(** * The build-step engine of [agent_build/tools/build_step.py]

    A shallow embedding of the step graph, of the content-addressed step
    identity, of the tracked-file resolution and of the [run] protocol of
    [BuildStep] / [ScriptBuildStep], followed by the properties that the
    specification states about them.

    Conventions of the embedding:
    - a Python [str] is a [string]; every character is a code point below
      256, so [str.encode()] is UTF-8 on that range ([encode]);
    - [bytes] are [list byte];
    - a [pathlib] path is the list of its [parts], an absolute path having
      ["/"] as its first part;
    - code that can raise returns a [res]; code that touches the build root
      or runs a command threads a [world]. *)

From Stdlib Require Import List String Ascii ZArith NArith Bool Arith Lia.
From Stdlib.Strings Require Import Byte.
From Stdlib Require Import Permutation Sorted.
Import ListNotations.

Set Warnings "-register-all".

Local Open Scope string_scope.
Local Open Scope list_scope.

(* ================================================================== *)
(** * Exceptions and the error monad *)

Inductive exn : Type :=
| ValueError (msg : string)
| OSError (msg : string)
| UnboundLocalError (var : string)
| AttributeError (msg : string)
| CalledProcessError (cmd : list string)
| DeploymentStepError (msg : string).

Inductive res (A : Type) : Type :=
| Ok (a : A)
| Raise (e : exn).

Arguments Ok {A} a.
Arguments Raise {A} e.

Definition bind {A B : Type} (m : res A) (k : A -> res B) : res B :=
  match m with
  | Ok a => k a
  | Raise e => Raise e
  end.

Declare Scope res_scope.
Delimit Scope res_scope with res.
Notation "x <- m ;; k" := (bind m (fun x => k))
  (at level 61, m at next level, right associativity) : res_scope.

(** [[f(x) for x in l]] where [f] may raise. *)
Definition mapM {A B : Type} (f : A -> res B) : list A -> res (list B) :=
  fix go (l : list A) : res (list B) :=
    match l with
    | [] => Ok []
    | x :: l' =>
        match f x with
        | Raise e => Raise e
        | Ok y =>
            match go l' with
            | Raise e => Raise e
            | Ok ys => Ok (y :: ys)
            end
        end
    end.

(* ================================================================== *)
(** * Text and bytes *)

Definition code (c : ascii) : N := N_of_ascii c.

(** [str.lower()] on code points below 256: the ASCII capitals and the
    Latin-1 capitals U+00C0..U+00DE (the multiplication sign U+00D7 is not a
    letter). *)
Definition lower_char (c : ascii) : ascii :=
  let n := code c in
  if ((65 <=? n) && (n <=? 90))%N then ascii_of_N (n + 32)
  else if ((192 <=? n) && (n <=? 222) && negb (n =? 215))%N then ascii_of_N (n + 32)
  else c.

Fixpoint lower (s : string) : string :=
  match s with
  | EmptyString => EmptyString
  | String c s' => String (lower_char c) (lower s')
  end.

Definition byte_of_N (n : N) : byte :=
  match Byte.of_N n with
  | Some b => b
  | None => x00
  end.

(** [str.encode()]: UTF-8, one byte below 128 and two bytes up to 255. *)
Definition encode_char (c : ascii) : list byte :=
  let n := code c in
  if (n <? 128)%N then [byte_of_N n]
  else [byte_of_N (192 + n / 64); byte_of_N (128 + n mod 64)].

Fixpoint encode (s : string) : list byte :=
  match s with
  | EmptyString => []
  | String c s' => encode_char c ++ encode s'
  end.

Definition hex_digit (n : Z) : ascii :=
  ascii_of_N (Z.to_N (if n <? 10 then 48 + n else 87 + n)%Z).

(** The [digits] lowest hexadecimal digits of [n], most significant first. *)
Fixpoint hex_of (digits : nat) (n : Z) : string :=
  match digits with
  | O => EmptyString
  | S d => hex_of d (n / 16) ++ String (hex_digit (n mod 16)) EmptyString
  end.

Fixpoint str_join (sep : string) (l : list string) : string :=
  match l with
  | [] => EmptyString
  | [x] => x
  | x :: l' => x ++ sep ++ str_join sep l'
  end.

(* ================================================================== *)
(** * [hashlib.sha256] (FIPS 180-4) *)

Module SHA256.
Local Open Scope Z_scope.

Definition mask : Z := 4294967295.
(** Addition modulo 2^32. *)
Definition add32 (x y : Z) : Z := Z.land (x + y) mask.
Definition rotr (n x : Z) : Z :=
  Z.lor (Z.shiftr x n) (Z.land (Z.shiftl x (32 - n)) mask).
Definition Ch (x y z : Z) : Z :=
  Z.lxor (Z.land x y) (Z.land (Z.lxor x mask) z).
Definition Maj (x y z : Z) : Z :=
  Z.lxor (Z.lxor (Z.land x y) (Z.land x z)) (Z.land y z).
Definition Sigma0 (x : Z) : Z := Z.lxor (Z.lxor (rotr 2 x) (rotr 13 x)) (rotr 22 x).
Definition Sigma1 (x : Z) : Z := Z.lxor (Z.lxor (rotr 6 x) (rotr 11 x)) (rotr 25 x).
Definition sigma0 (x : Z) : Z := Z.lxor (Z.lxor (rotr 7 x) (rotr 18 x)) (Z.shiftr x 3).
Definition sigma1 (x : Z) : Z := Z.lxor (Z.lxor (rotr 17 x) (rotr 19 x)) (Z.shiftr x 10).

Definition K : list Z :=
  [ 1116352408; 1899447441; 3049323471; 3921009573;
    961987163; 1508970993; 2453635748; 2870763221;
    3624381080; 310598401; 607225278; 1426881987;
    1925078388; 2162078206; 2614888103; 3248222580;
    3835390401; 4022224774; 264347078; 604807628;
    770255983; 1249150122; 1555081692; 1996064986;
    2554220882; 2821834349; 2952996808; 3210313671;
    3336571891; 3584528711; 113926993; 338241895;
    666307205; 773529912; 1294757372; 1396182291;
    1695183700; 1986661051; 2177026350; 2456956037;
    2730485921; 2820302411; 3259730800; 3345764771;
    3516065817; 3600352804; 4094571909; 275423344;
    430227734; 506948616; 659060556; 883997877;
    958139571; 1322822218; 1537002063; 1747873779;
    1955562222; 2024104815; 2227730452; 2361852424;
    2428436474; 2756734187; 3204031479; 3329325298 ].

Definition byte_val (b : byte) : Z := Z.of_N (Byte.to_N b).

(** Big-endian bytes of [n], [k] of them. *)
Fixpoint be_bytes (k : nat) (n : Z) : list Z :=
  match k with
  | O => []
  | S k' => be_bytes k' (n / 256) ++ [n mod 256]
  end.

(** The message followed by 0x80, zeros up to 56 modulo 64, and the bit
    length on eight bytes. *)
Definition pad (msg : list byte) : list Z :=
  let len := Z.of_nat (List.length msg) in
  let zeros := Z.to_nat ((55 - len) mod 64) in
  map byte_val msg ++ [128] ++ repeat 0 zeros ++ be_bytes 8 (8 * len).

(** Big-endian 32-bit words of a byte sequence. *)
Fixpoint words (fuel : nat) (bs : list Z) : list Z :=
  match fuel, bs with
  | S f, b0 :: b1 :: b2 :: b3 :: bs' =>
      (((b0 * 256 + b1) * 256 + b2) * 256 + b3) :: words f bs'
  | _, _ => []
  end.

(** Message schedule: [rw] holds the words computed so far, latest first. *)
Fixpoint extend (n : nat) (rw : list Z) : list Z :=
  match n with
  | O => rw
  | S n' =>
      let w := add32 (add32 (add32 (sigma1 (nth 1 rw 0)) (nth 6 rw 0))
                            (sigma0 (nth 14 rw 0))) (nth 15 rw 0) in
      extend n' (w :: rw)
  end.

Definition schedule (block : list Z) : list Z := rev (extend 48 (rev block)).

Definition state : Type := (Z * Z * Z * Z * Z * Z * Z * Z)%type.

Definition round (s : state) (kw : Z * Z) : state :=
  let '(a, b, c, d, e, f, g, h) := s in
  let t1 := add32 (add32 (add32 (add32 h (Sigma1 e)) (Ch e f g)) (fst kw)) (snd kw) in
  let t2 := add32 (Sigma0 a) (Maj a b c) in
  (add32 t1 t2, a, b, c, add32 d t1, e, f, g).

Definition compress (hs : state) (block : list Z) : state :=
  let '(a, b, c, d, e, f, g, h) := fold_left round (combine K (schedule block)) hs in
  let '(a0, b0, c0, d0, e0, f0, g0, h0) := hs in
  (add32 a0 a, add32 b0 b, add32 c0 c, add32 d0 d,
   add32 e0 e, add32 f0 f, add32 g0 g, add32 h0 h).

Fixpoint blocks (fuel : nat) (ws : list Z) (hs : state) : state :=
  match fuel, ws with
  | O, _ => hs
  | _, [] => hs
  | S f, _ => blocks f (skipn 16 ws) (compress hs (firstn 16 ws))
  end.

Definition init : state :=
  (1779033703, 3144134277, 1013904242, 2773480762,
   1359893119, 2600822924, 528734635, 1541459225).

Definition digest_words (msg : list byte) : list Z :=
  let bs := pad msg in
  let ws := words (List.length bs) bs in
  let '(a, b, c, d, e, f, g, h) := blocks (List.length ws) ws init in
  [a; b; c; d; e; f; g; h].

Local Close Scope Z_scope.

(** [hashlib.sha256(msg).hexdigest()]. *)
Definition hexdigest_of (msg : list byte) : string :=
  str_join EmptyString (map (hex_of 8) (digest_words msg)).

(** The hash object: [sha256()] starts it, [update] feeds bytes,
    [hexdigest] reads it. *)
Definition hasher : Type := list byte.
Definition new : hasher := [].
Definition update (h : hasher) (data : list byte) : hasher := h ++ data.
Definition hexdigest (h : hasher) : string := hexdigest_of h.
End SHA256.


(* ================================================================== *)
(** * Orders and [sorted] *)

Fixpoint list_compare {A : Type} (cmp : A -> A -> comparison) (l1 l2 : list A)
  : comparison :=
  match l1, l2 with
  | [], [] => Eq
  | [], _ :: _ => Lt
  | _ :: _, [] => Gt
  | x :: l1', y :: l2' =>
      match cmp x y with
      | Eq => list_compare cmp l1' l2'
      | c => c
      end
  end.

Definition leb_of {A : Type} (cmp : A -> A -> comparison) (x y : A) : bool :=
  match cmp x y with
  | Gt => false
  | _ => true
  end.

Fixpoint insert {A : Type} (leb : A -> A -> bool) (x : A) (l : list A) : list A :=
  match l with
  | [] => [x]
  | y :: l' => if leb x y then x :: l else y :: insert leb x l'
  end.

(** [sorted(l)]: a stable sort. *)
Fixpoint sorted_by {A : Type} (leb : A -> A -> bool) (l : list A) : list A :=
  match l with
  | [] => []
  | x :: l' => insert leb x (sorted_by leb l')
  end.

(** What [sorted] needs of a comparison. *)
Record total_order {A : Type} (cmp : A -> A -> comparison) : Prop := {
  cmp_refl : forall x, cmp x x = Eq;
  cmp_eq : forall x y, cmp x y = Eq -> x = y;
  cmp_opp : forall x y, cmp x y = CompOpp (cmp y x);
  cmp_trans : forall x y z, cmp x y = Lt -> cmp y z = Lt -> cmp x z = Lt
}.

(* ================================================================== *)
(** * [pathlib] paths *)

Definition path : Type := list string.

Definition path_eq_dec : forall p q : path, {p = q} + {p <> q} :=
  list_eq_dec string_dec.

Definition path_eqb (p q : path) : bool :=
  if path_eq_dec p q then true else false.

Definition is_root_part (x : string) : bool := (x =? "/") || (x =? "//").

Definition is_absolute (p : path) : bool :=
  match p with
  | x :: _ => is_root_part x
  | [] => false
  end.

(** [p / q] *)
Definition joinpath (p q : path) : path :=
  if is_absolute q then q else p ++ q.

(** [str(p)] *)
Definition str_path (p : path) : string :=
  match p with
  | [] => "."
  | x :: rest => if is_root_part x then x ++ str_join "/" rest else str_join "/" p
  end.

(** [p.relative_to(base)] *)
Fixpoint relative_to (p base : path) : res path :=
  match base, p with
  | [], _ => Ok p
  | b :: base', x :: p' =>
      if b =? x then relative_to p' base'
      else Raise (ValueError "path is not in the subpath of base")
  | _ :: _, [] => Raise (ValueError "path is not in the subpath of base")
  end.

Fixpoint is_prefix (base p : path) : bool :=
  match base, p with
  | [], _ => true
  | b :: base', x :: p' => (b =? x) && is_prefix base' p'
  | _ :: _, [] => false
  end.

Fixpoint split_on (sep : ascii) (s : string) : list string :=
  match s with
  | EmptyString => [EmptyString]
  | String c s' =>
      if Ascii.eqb c sep then EmptyString :: split_on sep s'
      else
        match split_on sep s' with
        | [] => [String c EmptyString]
        | x :: l => String c x :: l
        end
  end.

(** [pl.Path(s)]: empty and ["."] components are dropped; exactly two leading
    slashes are kept as the root ["//"]. *)
Definition parse_path (s : string) : path :=
  let comps :=
    filter (fun x => negb ((x =? EmptyString) || (x =? "."))) (split_on "/"%char s) in
  match s with
  | String "/" (String "/" (String "/" _)) => "/" :: comps
  | String "/" (String "/" _) => "//" :: comps
  | String "/" _ => "/" :: comps
  | _ => comps
  end.

(** [p.name] *)
Definition path_name (p : path) : string :=
  let n := last p EmptyString in
  if is_root_part n then EmptyString else n.

(** [s.rfind(c)] as an option. *)
Fixpoint rfind_from (c : ascii) (s : string) (i : nat) (found : option nat)
  : option nat :=
  match s with
  | EmptyString => found
  | String d s' =>
      rfind_from c s' (S i) (if Ascii.eqb d c then Some i else found)
  end.

(** [p.suffix]: the last dot of the name and what follows it, unless that dot
    is the first or the last character. *)
Definition suffix (p : path) : string :=
  let n := path_name p in
  match rfind_from "."%char n 0 None with
  | Some i =>
      if (0 <? i)%nat && (i <? String.length n - 1)%nat
      then substring i (String.length n - i) n
      else EmptyString
  | None => EmptyString
  end.

Definition path_compare : path -> path -> comparison :=
  list_compare String.compare.

(** The order of [pathlib] paths: lexicographic on the parts, each part
    compared as a string. *)
Definition path_leb : path -> path -> bool := leb_of path_compare.

Definition sorted_paths (l : list path) : list path := sorted_by path_leb l.

(* ================================================================== *)
(** * The source tree *)

(** An entry of the file system is a regular file or a directory. *)
Inductive node : Type :=
| File (content : list byte)
| Dir.

(** Absolute path of every entry, in the order in which directories are
    iterated. *)
Definition tree : Type := list (path * node).

Fixpoint lookup (fs : tree) (p : path) : option node :=
  match fs with
  | [] => None
  | (q, n) :: fs' => if path_eqb q p then Some n else lookup fs' p
  end.

Definition is_dir (fs : tree) (p : path) : bool :=
  match lookup fs p with
  | Some Dir => true
  | _ => false
  end.

Definition read_bytes (fs : tree) (p : path) : res (list byte) :=
  match lookup fs p with
  | Some (File c) => Ok c
  | Some Dir => Raise (OSError "IsADirectoryError")
  | None => Raise (OSError "FileNotFoundError")
  end.

(** [bytes.decode()]: UTF-8, on the code points below 256. *)
Fixpoint decode (bs : list byte) : res string :=
  match bs with
  | [] => Ok EmptyString
  | b :: bs' =>
      let n := Byte.to_N b in
      if (n <? 128)%N then
        match decode bs' with
        | Ok s => Ok (String (ascii_of_N n) s)
        | Raise e => Raise e
        end
      else if ((n =? 194) || (n =? 195))%N then
        match bs' with
        | b2 :: bs'' =>
            let m := Byte.to_N b2 in
            if ((128 <=? m) && (m <? 192))%N then
              match decode bs'' with
              | Ok s => Ok (String (ascii_of_N ((n - 192) * 64 + (m - 128))) s)
              | Raise e => Raise e
              end
            else Raise (ValueError "UnicodeDecodeError")
        | [] => Raise (ValueError "UnicodeDecodeError")
        end
      else Raise (ValueError "UnicodeDecodeError")
  end.

Definition read_text (fs : tree) (p : path) : res string :=
  match read_bytes fs p with
  | Ok bs => decode bs
  | Raise e => Raise e
  end.

Definition is_linebreak (c : ascii) : bool :=
  let n := code c in
  ((n =? 10) || (n =? 11) || (n =? 12) || (n =? 13)
   || (n =? 28) || (n =? 29) || (n =? 30) || (n =? 133))%N.

(** [s.splitlines()]; [cur] is the line being read, reversed. *)
Fixpoint splitlines_from (s : string) (cur : list ascii) : list string :=
  match s with
  | EmptyString =>
      match cur with
      | [] => []
      | _ => [string_of_list_ascii (rev cur)]
      end
  | String c s' =>
      if is_linebreak c then
        string_of_list_ascii (rev cur) ::
        match c, s' with
        | "013"%char, String "010"%char s'' => splitlines_from s'' []
        | _, _ => splitlines_from s' []
        end
      else splitlines_from s' (c :: cur)
  end.

Definition splitlines (s : string) : list string := splitlines_from s [].

(* ================================================================== *)
(** * [json.dumps(obj, sort_keys=True, indent=4)] *)

Inductive json : Type :=
| JNull
| JStr (s : string)
| JList (items : list json)
| JDict (items : list (string * json)).

Definition dquote : string := String "034"%char EmptyString.
Definition newline : string := String "010"%char EmptyString.

(** One character of a string literal, as [ensure_ascii] writes it. *)
Definition escape_char (c : ascii) : string :=
  let n := code c in
  if (n =? 34)%N then "\" ++ dquote
  else if (n =? 92)%N then "\\"
  else if (n =? 10)%N then "\n"
  else if (n =? 13)%N then "\r"
  else if (n =? 9)%N then "\t"
  else if (n =? 8)%N then "\b"
  else if (n =? 12)%N then "\f"
  else if ((32 <=? n) && (n <=? 126))%N then String c EmptyString
  else "\u" ++ hex_of 4 (Z.of_N n).

Fixpoint escape (s : string) : string :=
  match s with
  | EmptyString => EmptyString
  | String c s' => escape_char c ++ escape s'
  end.

Definition json_string (s : string) : string := dquote ++ escape s ++ dquote.

Fixpoint spaces (n : nat) : string :=
  match n with
  | O => EmptyString
  | S n' => String " "%char (spaces n')
  end.

(** A line break followed by the indentation of nesting level [level]. *)
Definition indent (level : nat) : string := newline ++ spaces (4 * level).

(** Dictionary items are written in the order of their keys. *)
Definition key_leb {B : Type} (a b : string * B) : bool :=
  leb_of String.compare (fst a) (fst b).

(** The items of a container one per line, separated by commas. *)
Fixpoint lines (level : nat) (items : list string) : string :=
  match items with
  | [] => EmptyString
  | [x] => x
  | x :: rest => x ++ "," ++ indent level ++ lines level rest
  end.

Fixpoint dumps_at (level : nat) (v : json) : string :=
  match v with
  | JNull => "null"
  | JStr s => json_string s
  | JList [] => "[]"
  | JList items =>
      "[" ++ indent (S level)
          ++ lines (S level) (map (dumps_at (S level)) items)
          ++ indent level ++ "]"
  | JDict [] => "{}"
  | JDict items =>
      "{" ++ indent (S level)
          ++ lines (S level)
               (map (fun kv => (json_string (fst kv) ++ ": " ++ snd kv)%string)
                    (sorted_by key_leb
                       (map (fun kv => let '(k, x) := kv in (k, dumps_at (S level) x)) items)))
          ++ indent level ++ "}"
  end.

Definition dumps (v : json) : string := dumps_at 0 v.

(* ================================================================== *)
(** * Steps *)

Record DockerImageSpec : Type := {
  image_name : string;
  (** [architecture.value] *)
  architecture : string
}.

(** A step object.  [is_script] tells a [ScriptBuildStep] from a plain
    [BuildStep] / [SimpleBuildStep]; [base_step] is the constructor argument
    of that name: nothing, a [DockerImageSpec] or another step.  Steps are
    built bottom-up from their constructor arguments, so the object graph is
    the finite unfolding represented here, a shared step appearing once for
    every reference to it. *)
Inductive BuildStep : Type := Build_BuildStep {
  is_script : bool;
  (** [type(self).__name__] *)
  type_name : string;
  name : string;
  TRACKED_FILE_GLOBS : list path;
  NO_CI_CD_CACHE : bool;
  _script_path : path;
  is_dependency_step : bool;
  base_step : option (DockerImageSpec + BuildStep);
  _dependency_steps : list BuildStep;
  _additional_settings : list (string * option string);
  (** [_ci_cd_settings.cacheable] *)
  cacheable : bool
}.

Definition _base_step (s : BuildStep) : option BuildStep :=
  match base_step s with
  | Some (inr b) => Some b
  | _ => None
  end.

Definition as_dict (spec : DockerImageSpec) : json :=
  JDict [("name", JStr (image_name spec));
         ("architecture", JStr (architecture spec))].

(** What the engine does to the outside: a process started through
    [common.run_command], [common.check_call_with_log] or
    [common.check_output_with_log] (with the variables added to the
    environment and the working directory, when given), or a message of
    [logging]. *)
Inductive event : Type :=
| Call (argv : list string) (env_vars : list (string * string)) (cwd : option string)
| Shell (cmd : string)
| LogInfo (msg : string)
| LogError (msg : string).

(** What the module takes from its surroundings: [constants.SOURCE_ROOT],
    the current directory, the flags of [common], the platform string of an
    architecture, the library functions [Path.glob], [PurePath.match] and
    [repr] of a list of strings, and the outcome of a process.
    [glob_sel root pattern p] tells whether [root.glob(pattern)] yields the
    entry [p]; patterns are taken to be acceptable to [pathlib].
    [process history e] is whether the process [e], started after [history],
    exits with status zero, and what it prints. *)
Record Env : Type := {
  SOURCE_ROOT : path;
  cwd : path;
  IN_CICD : bool;
  IN_DOCKER : bool;
  as_docker_platform : string -> string;
  glob_sel : path -> string -> path -> bool;
  path_match : path -> string -> bool;
  repr_list : list string -> string;
  process : list event -> event -> bool * string
}.

Section Engine.

Variable env : Env.

(** [root.glob(pattern)]: the selected entries below [root], in iteration
    order. *)
Definition glob (fs : tree) (root : path) (pattern : string) : list path :=
  filter (fun p => is_prefix root p && glob_sel env root pattern p) (map fst fs).

Definition _tracked_file_globs (s : BuildStep) : list path :=
  if is_script s then TRACKED_FILE_GLOBS s ++ [_script_path s]
  else TRACKED_FILE_GLOBS s.

(** The first loop of [tracked_file_paths]; the set [found_paths] is kept
    as a duplicate-free list. *)
Fixpoint resolve_globs (fs : tree) (globs : list path) (found_paths : list path)
  : res (list path) :=
  match globs with
  | [] => Ok found_paths
  | file_glob :: rest =>
      match
        (if is_absolute file_glob
         then relative_to file_glob (SOURCE_ROOT env)
         else Ok file_glob)
      with
      | Raise e => Raise e
      | Ok file_glob' =>
          resolve_globs fs rest
            (nodup path_eq_dec
               (found_paths ++ glob fs (SOURCE_ROOT env) (str_path file_glob')))
      end
  end.

(** The pattern of one line of [.dockerignore]: [str(glob)]. *)
Definition dockerignore_pattern (line : string) : res string :=
  let g := parse_path line in
  if is_absolute g then
    match relative_to g ["/"] with
    | Ok g' => Ok (str_path g')
    | Raise e => Raise e
    end
  else Ok (str_path g).

(** The second loop: [paths_excluded] after all lines are read. *)
Fixpoint exclude_lines (lines : list string) (found_paths : list path)
  : res (list path) :=
  match lines with
  | [] => Ok []
  | line :: rest =>
      if (line =? EmptyString)%string then exclude_lines rest found_paths
      else
        match dockerignore_pattern line with
        | Raise e => Raise e
        | Ok pattern =>
            match exclude_lines rest found_paths with
            | Raise e => Raise e
            | Ok more =>
                Ok (filter (fun f => path_match env f pattern) found_paths ++ more)
            end
        end
  end.

(** The third loop: the children of the excluded directories. *)
Definition exclude_children (fs : tree) (paths_excluded : list path) : list path :=
  paths_excluded ++
  flat_map (fun ex_path =>
              if is_dir fs ex_path then glob fs ex_path "**/*" else [])
           paths_excluded.

Definition mem_path (p : path) (l : list path) : bool := existsb (path_eqb p) l.

Definition tracked_file_paths (fs : tree) (s : BuildStep) : res (list path) :=
  match resolve_globs fs (_tracked_file_globs s) [] with
  | Raise e => Raise e
  | Ok found_paths =>
      let dockerignore_path := joinpath (SOURCE_ROOT env) [".dockerignore"] in
      match read_text fs dockerignore_path with
      | Raise e => Raise e
      | Ok dockerignore_content =>
          match exclude_lines (splitlines dockerignore_content) found_paths with
          | Raise e => Raise e
          | Ok paths_excluded =>
              let paths_excluded := exclude_children fs paths_excluded in
              let filtered_paths :=
                filter (fun p => negb (mem_path p paths_excluded)) found_paths in
              let filtered_paths :=
                filter (fun p => negb (is_dir fs p)) filtered_paths in
              let filtered_paths := filtered_paths ++ [dockerignore_path] in
              match mapM (fun p => relative_to p (SOURCE_ROOT env)) filtered_paths with
              | Raise e => Raise e
              | Ok filtered_paths => Ok (sorted_paths filtered_paths)
              end
          end
      end
  end.

(** The loop of [calculate_files_checksum]. *)
Fixpoint update_with_files (fs : tree) (files : list path) (sha256 : SHA256.hasher)
  : res SHA256.hasher :=
  match files with
  | [] => Ok sha256
  | file_path :: rest =>
      let sha256 := SHA256.update sha256 (encode (str_path file_path)) in
      let abs_path := joinpath (SOURCE_ROOT env) file_path in
      match read_bytes fs abs_path with
      | Raise e => Raise e
      | Ok content => update_with_files fs rest (SHA256.update sha256 content)
      end
  end.

Definition calculate_files_checksum (fs : tree) (files : list path) : res string :=
  let files := sorted_paths files in
  let sha256 := SHA256.new in
  match update_with_files fs (sorted_paths files) sha256 with
  | Raise e => Raise e
  | Ok sha256 => Ok (SHA256.hexdigest sha256)
  end.

Definition settings_json (settings : list (string * option string)) : json :=
  JDict (map (fun kv =>
                (fst kv, match snd kv with Some v => JStr v | None => JNull end))
             settings).

(** The body of [id], from the name and [overall_info_str]. *)
Definition id_of (step_name : string) (overall_info_str : string) : string :=
  let sha256 := SHA256.new in
  let sha256 := SHA256.update sha256 (encode overall_info_str) in
  let checksum := SHA256.hexdigest sha256 in
  lower (step_name ++ "__" ++ checksum).

(** The architecture of [base_docker_image], [None] when the step does not
    run in docker: that of the image given to the constructor, or that of
    the [result_image] of the base step, which is the architecture of the
    base step's own [base_docker_image]. *)
Fixpoint base_image_architecture (s : BuildStep) : option string :=
  if is_script s then
    match base_step s with
    | None => None
    | Some (inl spec) => Some (architecture spec)
    | Some (inr b) => if is_script b then base_image_architecture b else None
    end
  else None.

(** The attribute [base_docker_image] set by the constructor of
    [ScriptBuildStep], [base_id] being the [id] of the base step, which names
    its [result_image]. *)
Definition base_docker_image_with (s : BuildStep) (base_id : string)
  : option DockerImageSpec :=
  if is_script s then
    match base_step s with
    | None => None
    | Some (inl spec) => Some spec
    | Some (inr b) =>
        if is_script b then
          match base_image_architecture b with
          | Some arch => Some {| image_name := base_id; architecture := arch |}
          | None => None
          end
        else None
    end
  else None.

(** [overall_info]: [_init_overall_info] of [BuildStep], extended by that of
    [ScriptBuildStep]. *)
Fixpoint overall_info (fs : tree) (s : BuildStep) {struct s} : res json :=
  match tracked_file_paths fs s with
  | Raise e => Raise e
  | Ok paths =>
  match calculate_files_checksum fs paths with
  | Raise e => Raise e
  | Ok checksum =>
  match mapM (overall_info fs) (_dependency_steps s) with
  | Raise e => Raise e
  | Ok deps =>
  match
    match base_step s with
    | Some (inr b) =>
        match overall_info fs b with
        | Raise e => Raise e
        | Ok info => Ok (info, id_of (name b) (dumps info))
        end
    | _ => Ok (JNull, EmptyString)
    end
  with
  | Raise e => Raise e
  | Ok (base, base_id) =>
      Ok (JDict
            ([("name", JStr (name s));
              ("used_files", JList (map (fun p => JStr (str_path p)) paths));
              ("files_checksum", JStr checksum);
              ("dependency_steps", JList deps);
              ("base_step", base);
              ("additional_settings", settings_json (_additional_settings s))]
             ++ match base_docker_image_with s base_id with
                | Some spec => [("docker_image", as_dict spec)]
                | None => []
                end))
  end end end end.

Definition overall_info_str (fs : tree) (s : BuildStep) : res string :=
  match overall_info fs s with
  | Raise e => Raise e
  | Ok info => Ok (dumps info)
  end.

Definition id (fs : tree) (s : BuildStep) : res string :=
  match overall_info_str fs s with
  | Raise e => Raise e
  | Ok str => Ok (id_of (name s) str)
  end.

Definition base_docker_image (fs : tree) (s : BuildStep)
  : res (option DockerImageSpec) :=
  match _base_step s with
  | Some b =>
      match id fs b with
      | Raise e => Raise e
      | Ok base_id => Ok (base_docker_image_with s base_id)
      end
  | None => Ok (base_docker_image_with s EmptyString)
  end.

Definition runs_in_docker (s : BuildStep) : bool :=
  match base_image_architecture s with
  | Some _ => true
  | None => false
  end.

Definition result_image (fs : tree) (s : BuildStep) : res (option DockerImageSpec) :=
  match base_image_architecture s with
  | None => Ok None
  | Some arch =>
      match id fs s with
      | Raise e => Raise e
      | Ok i => Ok (Some {| image_name := i; architecture := arch |})
      end
  end.

Fixpoint all_used_cacheable_steps (s : BuildStep) : list BuildStep :=
  flat_map all_used_cacheable_steps (_dependency_steps s)
  ++ match base_step s with
     | Some (inr b) => all_used_cacheable_steps b
     | _ => []
     end
  ++ (if cacheable s then [s] else []).

Definition all_used_cached_step_ids (fs : tree) (s : BuildStep) : res (list string) :=
  mapM (id fs) (all_used_cacheable_steps s).

(* ------------------------------------------------------------------ *)
(** ** The build root and the [run] protocol *)

(** The state that [run] works on: the directories of
    [<build_root>/step_outputs] with the names of the files put in them by
    the engine, the directories of [<build_root>/step_isolated_source_roots]
    with the files copied into them, the trace of processes and log messages,
    oldest first, and, as an observation for the statements below, the id of
    every step whose [_run] has been called, oldest first.  A step's command
    writes below its own temporary output directory only. *)
Record world : Type := {
  step_outputs : list (string * list string);
  source_roots : list (string * list path);
  trace : list event;
  run_calls : list string
}.

Definition M (A : Type) : Type := world -> res A * world.

Definition ret {A : Type} (a : A) : M A := fun w => (Ok a, w).
Definition throw {A : Type} (e : exn) : M A := fun w => (Raise e, w).
Definition lift {A : Type} (r : res A) : M A := fun w => (r, w).

Definition mbind {A B : Type} (m : M A) (k : A -> M B) : M B :=
  fun w =>
    match m w with
    | (Ok a, w') => k a w'
    | (Raise e, w') => (Raise e, w')
    end.

Notation "x <-- m ;; k" := (mbind m (fun x => k))
  (at level 61, m at next level, right associativity).
Notation "m ;;; k" := (mbind m (fun _ => k))
  (at level 61, right associativity).

(** [for x in l: f(x)] *)
Definition forM_ {A : Type} (f : A -> M unit) : list A -> M unit :=
  fix go (l : list A) : M unit :=
    match l with
    | [] => ret tt
    | x :: l' => f x ;;; go l'
    end.

(** [try: body finally: cleanup] *)
Definition try_finally {A : Type} (body : M A) (cleanup : M unit) : M A :=
  fun w =>
    match body w with
    | (r, w') =>
        match cleanup w' with
        | (Ok _, w'') => (r, w'')
        | (Raise e, w'') => (Raise e, w'')
        end
    end.

Definition emit (e : event) : M unit :=
  fun w => (Ok tt, {| step_outputs := step_outputs w;
                      source_roots := source_roots w;
                      trace := trace w ++ [e];
                      run_calls := run_calls w |}).

Definition argv_of (e : event) : list string :=
  match e with
  | Call argv _ _ => argv
  | Shell cmd => [cmd]
  | _ => []
  end.

(** A process that must succeed; its output is returned. *)
Definition check_process (e : event) : M string :=
  fun w =>
    let '(ok, out) := process env (trace w) e in
    match emit e w with
    | (_, w') =>
        if ok then (Ok out, w') else (Raise (CalledProcessError (argv_of e)), w')
    end.

Definition run_command (argv : list string) : M unit :=
  check_process (Call argv [] None) ;;; ret tt.

Definition check_call_with_log (argv : list string)
    (env_vars : list (string * string)) (cwd : option string) : M unit :=
  check_process (Call argv env_vars cwd) ;;; ret tt.

Definition check_output_with_log (argv : list string) : M string :=
  check_process (Call argv [] None).

Definition set_step_outputs (f : list (string * list string) -> list (string * list string))
  : M unit :=
  fun w => (Ok tt, {| step_outputs := f (step_outputs w);
                      source_roots := source_roots w;
                      trace := trace w;
                      run_calls := run_calls w |}).

Definition set_source_roots (f : list (string * list path) -> list (string * list path))
  : M unit :=
  fun w => (Ok tt, {| step_outputs := step_outputs w;
                      source_roots := f (source_roots w);
                      trace := trace w;
                      run_calls := run_calls w |}).

Definition note_run_call (i : string) : M unit :=
  fun w => (Ok tt, {| step_outputs := step_outputs w;
                      source_roots := source_roots w;
                      trace := trace w;
                      run_calls := run_calls w ++ [i] |}).

Definition has_dir {B : Type} (dirs : list (string * B)) (d : string) : bool :=
  existsb (fun e => (fst e =? d)%string) dirs.

Definition rmtree {B : Type} (d : string) (dirs : list (string * B)) : list (string * B) :=
  filter (fun e => negb (fst e =? d)%string) dirs.

Definition add_file (d file : string) (dirs : list (string * list string))
  : list (string * list string) :=
  map (fun e => if (fst e =? d)%string then (fst e, snd e ++ [file]) else e) dirs.

(** [src.rename(dst)] between two directories of [step_outputs]. *)
Definition rename (src dst : string) : M unit :=
  fun w =>
    if has_dir (step_outputs w) dst
    then (Raise (OSError "Directory not empty"), w)
    else
      set_step_outputs
        (map (fun e => if (fst e =? src)%string then (dst, snd e) else e)) w.

(** [build_root.absolute()] *)
Definition absolute (p : path) : path :=
  if is_absolute p then p else cwd env ++ p.

Definition step_outputs_dir (build_root : path) : path :=
  absolute build_root ++ ["step_outputs"].

(** [output_directory] of the step of id [i]. *)
Definition output_directory (build_root : path) (i : string) : path :=
  step_outputs_dir build_root ++ [i].

(** The name of [_temp_output_directory]. *)
Definition temp_name (i : string) : string := "~" ++ i.

Definition _temp_output_directory (build_root : path) (i : string) : path :=
  step_outputs_dir build_root ++ [temp_name i].

Definition _source_root (build_root : path) (i : string) : path :=
  absolute build_root ++ ["step_isolated_source_roots"; i].

Definition _in_docker_dependency_outputs_path : path := ["/"; "tmp"; "step"; "dependencies"].
Definition _in_docker_source_root_path : path := ["/"; "tmp"; "agent_source"].

Definition is_space (c : ascii) : bool :=
  let n := code c in
  (((9 <=? n) && (n <=? 13)) || ((28 <=? n) && (n <=? 32))
   || (n =? 133) || (n =? 160))%N.

(** Whether [s.strip()] is empty. *)
Fixpoint strip_is_empty (s : string) : bool :=
  match s with
  | EmptyString => true
  | String c s' => is_space c && strip_is_empty s'
  end.

(** [DockerImageSpec.load_image] *)
Definition load_image (spec : DockerImageSpec) : M unit :=
  output <-- check_output_with_log ["docker"; "images"; "-q"; image_name spec] ;;
  if negb (strip_is_empty output) then ret tt
  else run_command ["docker"; "load"; "-i"; image_name spec].

(** [DockerImageSpec.save_image]; [output_path] is the file [file] in the
    directory [dir] of [step_outputs].  The file is opened for writing
    before [docker save] is started: without the directory, the opening
    raises [FileNotFoundError], an [OSError], and no process is started. *)
Definition save_image (spec : DockerImageSpec) (dir file : string) : M unit :=
  fun w =>
    if has_dir (step_outputs w) dir
    then (set_step_outputs (add_file dir file) ;;;
          check_call_with_log ["docker"; "save"; image_name spec] [] None) w
    else (Raise (OSError "FileNotFoundError"), w).

(** [_check_for_cached_result], of [BuildStep] and as overridden by
    [ScriptBuildStep]. *)
Definition _check_for_cached_result (fs : tree) (s : BuildStep) : M bool :=
  i <-- lift (id fs s) ;;
  exists_ <-- (fun w => (Ok (has_dir (step_outputs w) i), w)) ;;
  if is_script s then
    (if exists_ && runs_in_docker s && negb (is_dependency_step s) then
       image <-- lift (result_image fs s) ;;
       match image with
       | Some spec => load_image spec
       | None => ret tt
       end
     else ret tt) ;;;
    ret exists_
  else ret exists_.

Definition _get_command_line_args (fs : tree) (build_root : path) (s : BuildStep)
  : res (list string) :=
  match
    mapM (fun req_step =>
            match id fs req_step with
            | Raise e => Raise e
            | Ok ri =>
                if runs_in_docker s
                then Ok (str_path (_in_docker_dependency_outputs_path ++ [ri]))
                else Ok (str_path (output_directory build_root ri))
            end)
         (_dependency_steps s)
  with
  | Raise e => Raise e
  | Ok required_steps_outputs =>
      match relative_to (_script_path s) (SOURCE_ROOT env) with
      | Raise e => Raise e
      | Ok rel_script_path =>
          match
            (if (suffix rel_script_path =? ".ps1")%string then Ok ["powershell"]
             else if (suffix rel_script_path =? ".sh")%string then Ok ["/bin/bash"]
             else if (suffix rel_script_path =? ".py")%string then Ok ["python3"]
             else Raise (UnboundLocalError "full_command_args"))
          with
          | Raise e => Raise e
          | Ok full_command_args =>
              Ok (full_command_args
                    ++ [str_path rel_script_path] ++ required_steps_outputs)
          end
      end
  end.

Definition _prepare_working_source_root (fs : tree) (build_root : path) (s : BuildStep)
  : M unit :=
  i <-- lift (id fs s) ;;
  is_there <-- (fun w => (Ok (has_dir (source_roots w) i), w)) ;;
  (if is_there then
     check_process
       (Shell ("ls -al " ++ str_path (_source_root build_root i) ++ "/..")) ;;;
     set_source_roots (rmtree i)
   else ret tt) ;;;
  set_source_roots (fun dirs => dirs ++ [(i, [])]) ;;;
  files <-- lift (tracked_file_paths fs s) ;;
  set_source_roots
    (map (fun e => if (fst e =? i)%string then (fst e, snd e ++ files) else e)).

(** The settings that are put into the environment of a local command. *)
Fixpoint settings_env (settings : list (string * option string))
  : list (string * string) :=
  match settings with
  | [] => []
  | (n, Some v) :: rest => (n, v) :: settings_env rest
  | (_, None) :: rest => settings_env rest
  end.

Definition _run_locally (fs : tree) (build_root : path) (s : BuildStep) : M unit :=
  command_args <-- lift (_get_command_line_args fs build_root s) ;;
  i <-- lift (id fs s) ;;
  let env_vars :=
    [("STEP_OUTPUT_PATH", str_path (_temp_output_directory build_root i))]
    ++ settings_env (_additional_settings s)
    ++ [("SOURCE_ROOT", str_path (_source_root build_root i))]
    ++ (if IN_CICD env then [("IN_CICD", "1")] else []) in
  check_call_with_log command_args env_vars
    (Some (str_path (_source_root build_root i))).

Definition container_name : string := "agent-build-deployment-step".

Definition _save_step_docker_container_as_image_if_needed (fs : tree)
    (s : BuildStep) : M unit :=
  if is_dependency_step s then ret tt
  else
    image <-- lift (result_image fs s) ;;
    match image with
    | None => throw (AttributeError "'NoneType' object has no attribute 'name'")
    | Some spec =>
        run_command ["docker"; "commit"; container_name; image_name spec] ;;;
        i <-- lift (id fs s) ;;
        save_image spec (temp_name i) (i ++ ".tar")
    end.

Definition _run_in_docker (fs : tree) (build_root : path) (s : BuildStep) : M unit :=
  cmd_args <-- lift (_get_command_line_args fs build_root s) ;;
  run_command ["docker"; "rm"; "-f"; container_name] ;;;
  i <-- lift (id fs s) ;;
  let in_docker_output_path := "/tmp/step/output" in
  let env_variables_options :=
    flat_map (fun kv =>
                ["-e"; (fst kv ++ "=" ++
                        match snd kv with Some v => v | None => "None" end)%string])
             (_additional_settings s)
    ++ ["-e"; ("STEP_OUTPUT_PATH=" ++ in_docker_output_path)%string;
        "-e"; ("SOURCE_ROOT=" ++ str_path _in_docker_source_root_path)%string;
        "-e"; "AGENT_BUILD_IN_DOCKER=1"] in
  base_image <-- lift (match _base_step s with
                       | Some b => result_image fs b
                       | None => base_docker_image fs s
                       end) ;;
  dep_ids <-- lift (mapM (id fs) (_dependency_steps s)) ;;
  let volumes_mapping :=
    ["-v"; (str_path (_source_root build_root i) ++ ":"
            ++ str_path _in_docker_source_root_path)%string;
     "-v"; (str_path (_temp_output_directory build_root i) ++ ":"
            ++ in_docker_output_path)%string]
    ++ flat_map (fun di =>
                   ["-v"; (str_path (output_directory build_root di) ++ ":"
                           ++ str_path (_in_docker_dependency_outputs_path ++ [di])%list)%string])
                dep_ids in
  try_finally
    (match base_image with
     | None => throw (AttributeError "'NoneType' object has no attribute 'architecture'")
     | Some base_image =>
         check_call_with_log
           (["docker"; "run"; "-i"; "--name"; container_name]
              ++ volumes_mapping
              ++ ["--platform"; as_docker_platform env (architecture base_image)]
              ++ env_variables_options
              ++ ["--workdir"; str_path _in_docker_source_root_path;
                  image_name base_image]
              ++ cmd_args)
           [] None ;;;
         _save_step_docker_container_as_image_if_needed fs s
     end)
    (run_command ["docker"; "rm"; "-f"; container_name]).

(** The message of the error that [_run] raises. *)
Definition step_failed_message (i : string) : string :=
  "Step has failed. Step name: '" ++ i ++ "'.".

(** The message that [_run] logs before raising. *)
Definition tracked_files_hint (s : BuildStep) : string :=
  "'" ++ type_name s ++ "' has failed. "
  ++ "HINT: Make sure that you have specified all files. "
  ++ "For now, tracked files are: "
  ++ repr_list env (map str_path (_tracked_file_globs s)).

(** The body of the [try] of [_run]: the step's command, in docker or on
    the host. *)
Definition run_step_command (fs : tree) (build_root : path) (s : BuildStep) : M unit :=
  if runs_in_docker s && negb (IN_DOCKER env)
  then _run_in_docker fs build_root s
  else emit (LogInfo "555555") ;;; _run_locally fs build_root s.

(** [_run]: that of [ScriptBuildStep]; the one of [BuildStep] does nothing. *)
Definition _run (fs : tree) (build_root : path) (s : BuildStep) : M unit :=
  if is_script s then
    _prepare_working_source_root fs build_root s ;;;
    fun w =>
      match run_step_command fs build_root s w with
      | (Ok tt, w') => (Ok tt, w')
      | (Raise _, w') =>
          (emit (LogError (tracked_files_hint s)) ;;;
           i <-- lift (id fs s) ;;
           throw (DeploymentStepError (step_failed_message i))) w'
      end
  else ret tt.

(** [run], from the creation of the temporary output directory to the
    writing of [step_info.txt]. *)
Definition open_temp_output (fs : tree) (s : BuildStep) : M unit :=
  i <-- lift (id fs s) ;;
  set_step_outputs (rmtree (temp_name i)) ;;;
  set_step_outputs (fun dirs => dirs ++ [(temp_name i, [])]) ;;;
  info <-- lift (overall_info_str fs s) ;;
  set_step_outputs (add_file (temp_name i) "step_info.txt").

(** [run], after [_run] has returned: the marker file and the renaming of
    the temporary output directory. *)
Definition commit_output (fs : tree) (s : BuildStep) : M unit :=
  i <-- lift (id fs s) ;;
  (if IN_CICD env && NO_CI_CD_CACHE s
   then set_step_outputs (add_file (temp_name i) "skip_cache_to_cicd")
   else ret tt) ;;;
  rename (temp_name i) i.

(** The call of [_run], observed in [run_calls]. *)
Definition call_run (fs : tree) (build_root : path) (s : BuildStep) : M unit :=
  i <-- lift (id fs s) ;;
  note_run_call i ;;;
  _run fs build_root s.

Fixpoint run (fs : tree) (build_root : path) (s : BuildStep) {struct s} : M unit :=
  cached <-- _check_for_cached_result fs s ;;
  if cached then
    i <-- lift (id fs s) ;;
    emit (LogInfo ("The cache of the deployment step " ++ i
                   ++ " is found, reuse it and skip it."))
  else
    (forM_ (run fs build_root) (_dependency_steps s) ;;;
     match base_step s with
     | Some (inr b) => run fs build_root b
     | _ => ret tt
     end) ;;;
    open_temp_output fs s ;;;
    call_run fs build_root s ;;;
    commit_output fs s.

(** The two loops of [run] over the dependency steps and the base step. *)
Definition run_upstream (fs : tree) (build_root : path) (s : BuildStep) : M unit :=
  forM_ (run fs build_root) (_dependency_steps s) ;;;
  match base_step s with
  | Some (inr b) => run fs build_root b
  | _ => ret tt
  end.

(** The steps that a step is built on, through dependency and base steps,
    in the order in which [run] meets them. *)
Fixpoint upstream_steps (s : BuildStep) : list BuildStep :=
  flat_map (fun d => upstream_steps d ++ [d]) (_dependency_steps s)
  ++ match base_step s with
     | Some (inr b) => upstream_steps b ++ [b]
     | _ => []
     end.

Definition all_steps (s : BuildStep) : list BuildStep := upstream_steps s ++ [s].

End Engine.

Notation "x <-- m ;; k" := (mbind m (fun x => k))
  (at level 61, m at next level, right associativity).
Notation "m ;;; k" := (mbind m (fun _ => k))
  (at level 61, right associativity).

(* ================================================================== *)
(** * The wording of the specification *)

(** [files_checksum] as the specification words it: the digest over, for
    each path in sorted order, the bytes of the relative path string followed
    by the bytes of the file. *)
Definition files_checksum_spec (env : Env) (fs : tree) (tracked_paths : list path)
  : res string :=
  match
    mapM (fun p =>
            match read_bytes fs (joinpath (SOURCE_ROOT env) p) with
            | Ok content => Ok (encode (str_path p) ++ content)
            | Raise e => Raise e
            end)
         (sorted_paths tracked_paths)
  with
  | Ok chunks => Ok (SHA256.hexdigest_of (List.concat chunks))
  | Raise e => Raise e
  end.

(** Sortedness in the order of paths. *)
Definition path_le (p q : path) : Prop := path_leb p q = true.

(** The inputs of the identity of [s] are the same in two surroundings: the
    tracked paths, the bytes of the tracked files, and the fingerprints
    ([overall_info]) of the dependency steps and of the base step.  The
    name and the settings are those of [s]. *)
Definition same_fingerprint_inputs (env : Env) (fs : tree) (env' : Env) (fs' : tree)
    (s : BuildStep) : Prop :=
  tracked_file_paths env' fs' s = tracked_file_paths env fs s
  /\ (forall paths p,
        tracked_file_paths env fs s = Ok paths -> In p paths ->
        read_bytes fs' (joinpath (SOURCE_ROOT env') p)
        = read_bytes fs (joinpath (SOURCE_ROOT env) p))
  /\ mapM (overall_info env' fs') (_dependency_steps s)
     = mapM (overall_info env fs) (_dependency_steps s)
  /\ (forall b, _base_step s = Some b ->
                overall_info env' fs' b = overall_info env fs b).

(** [used_by t s]: [t] is [s] itself or a step that [s] is built on, through
    dependency and base steps. *)
Inductive used_by (t : BuildStep) : BuildStep -> Prop :=
| used_self : used_by t t
| used_dependency : forall d s,
    In d (_dependency_steps s) -> used_by t d -> used_by t s
| used_base : forall b s,
    _base_step s = Some b -> used_by t b -> used_by t s.

(** The names of the directories of [step_outputs]. *)
Definition dir_names (w : world) : list string := map fst (step_outputs w).

(** A computation that creates, removes or renames no directory of
    [step_outputs] and calls no [_run]. *)
Definition keeps_dirs {A : Type} (m : M A) : Prop :=
  forall w r w', m w = (r, w') ->
    dir_names w' = dir_names w /\ run_calls w' = run_calls w.

Definition is_process (e : event) : bool :=
  match e with
  | Call _ _ _ | Shell _ => true
  | _ => false
  end.

(** The processes of a trace. *)
Definition processes (t : list event) : list event := filter is_process t.

(** The number of step objects in the unfolding of a step. *)
Fixpoint step_size (s : BuildStep) : nat :=
  S (list_sum (map step_size (_dependency_steps s))
     + match base_step s with
       | Some (inr b) => step_size b
       | _ => 0
       end).

(** No two directories used by the steps [U] of a graph have the same name:
    distinct steps have distinct ids, and no temporary output directory is
    named like an output directory. *)
Definition collision_free (env : Env) (fs : tree) (U : list BuildStep) : Prop :=
  forall t u j k,
    In t U -> In u U ->
    id env fs t = Ok j -> id env fs u = Ok k ->
    (j = k -> t = u) /\ temp_name j <> k.

(** [j] is the id of a step of [l]. *)
Definition graph_ids (env : Env) (fs : tree) (l : list BuildStep) (j : string) : Prop :=
  exists u, In u l /\ id env fs u = Ok j.

(** What holds of the build root between the runs of the steps of a graph
    [U]: no id is recorded twice in [run_calls], and a recorded id is that of
    a step of the graph, whose output directory exists. *)
Record runs_once (env : Env) (fs : tree) (U : list BuildStep) (w : world) : Prop := {
  once_nodup : NoDup (run_calls w);
  once_committed : forall j, In j (run_calls w) -> In j (dir_names w);
  once_ids : forall j, In j (run_calls w) -> graph_ids env fs U j
}.

(** What holds besides when the build root was empty at first: every
    directory is the output directory of a step that was run, and the steps
    that a step that was run is built on were run too. *)
Record all_run (env : Env) (fs : tree) (U : list BuildStep) (w : world) : Prop := {
  all_made : forall d, In d (dir_names w) -> In d (run_calls w);
  all_closed :
    forall t j u,
      In t U -> id env fs t = Ok j -> In j (run_calls w) -> In u (all_steps t) ->
      exists k, id env fs u = Ok k /\ In k (run_calls w)
}.

(** What a run of steps among [frame] leaves, started from [w]: [done] are
    the steps that have been run when it returns. *)
Definition run_post (env : Env) (fs : tree) (U frame done : list BuildStep)
    (w : world) (r : res unit) (w' : world) : Prop :=
  NoDup (run_calls w')
  /\ (forall j, In j (run_calls w') -> In j (run_calls w) \/ graph_ids env fs frame j)
  /\ (r = Ok tt ->
      runs_once env fs U w'
      /\ incl (run_calls w) (run_calls w')
      /\ (all_run env fs U w ->
          all_run env fs U w'
          /\ forall t, In t done -> exists k, id env fs t = Ok k /\ In k (run_calls w'))).

(** The suffixes for which [_get_command_line_args] knows an interpreter. *)
Definition known_suffix (x : string) : bool :=
  ((x =? ".ps1") || (x =? ".sh") || (x =? ".py"))%string.

(** What an exception carries: its message. *)
Definition exn_message (e : exn) : string :=
  match e with
  | ValueError msg | OSError msg | AttributeError msg | DeploymentStepError msg => msg
  | UnboundLocalError var => var
  | CalledProcessError cmd => str_join " " cmd
  end.

(** [needle in s] *)
Fixpoint contains (needle s : string) : bool :=
  String.prefix needle s
  || match s with
     | EmptyString => false
     | String _ s' => contains needle s'
     end.

(** The claim on errors, as stated: the error names the id of the step and
    every resolved tracked file. *)
Definition error_names_step_and_files (e : exn) (i : string) (files : list path)
  : Prop :=
  contains i (exn_message e) = true
  /\ forall p, In p files -> contains (str_path p) (exn_message e) = true.

(** The file in which [_save_step_docker_container_as_image_if_needed]
    saves the image of the step of id [i], once the output directory is
    committed. *)
Definition saved_image_path (env : Env) (build_root : path) (i : string) : path :=
  output_directory env build_root i ++ [(i ++ ".tar")%string].

(** The directories that the steps of a list use in [step_outputs]: their
    output directories and their temporary output directories. *)
Definition step_dirs (env : Env) (fs : tree) (l : list BuildStep) (d : string) : Prop :=
  exists u j, In u l /\ id env fs u = Ok j /\ (d = j \/ d = temp_name j).

(** [run] adds to [step_outputs] only directories of the steps that it
    runs. *)
Definition adds_own_dirs (env : Env) (fs : tree) (br : path) (t : BuildStep) : Prop :=
  forall w r w', run env fs br t w = (r, w') ->
    forall d, In d (dir_names w') ->
              In d (dir_names w) \/ step_dirs env fs (all_steps t) d.


(** What the run of the step [s] does to a state in which every identity was
    run at most once: the statement proved by induction on the step. *)
Definition runs_once_from (env : Env) (fs : tree) (br : path) (U : list BuildStep)
    (s : BuildStep) : Prop :=
  incl (all_steps s) U ->
  forall w r w',
    runs_once env fs U w -> run env fs br s w = (r, w') ->
    run_post env fs U (all_steps s) [s] w r w'.



(** ** Reading a serialization back *)

(** The value that [json.dumps] with [sort_keys] writes: the items of every
    dictionary in the order of their keys.  Two values with the same [canon]
    are the same Python object. *)
Fixpoint canon (v : json) : json :=
  match v with
  | JList items => JList (map canon items)
  | JDict items =>
      JDict (sorted_by key_leb (map (fun kv => let '(k, x) := kv in (k, canon x)) items))
  | _ => v
  end.

Definition hex_value (c : ascii) : N :=
  let n := code c in
  if (n <? 58)%N then (n - 48)%N else (n - 87)%N.

(** The character at the head of an escaped string literal and the rest of
    the text; nothing at the closing quote. *)
Definition unescape_char (s : string) : option (ascii * string) :=
  match s with
  | EmptyString => None
  | String c rest =>
      if (code c =? 34)%N then None
      else if (code c =? 92)%N then
        match rest with
        | EmptyString => None
        | String d rest' =>
            if (code d =? 110)%N then Some (ascii_of_N 10, rest')
            else if (code d =? 114)%N then Some (ascii_of_N 13, rest')
            else if (code d =? 116)%N then Some (ascii_of_N 9, rest')
            else if (code d =? 98)%N then Some (ascii_of_N 8, rest')
            else if (code d =? 102)%N then Some (ascii_of_N 12, rest')
            else if (code d =? 117)%N then
              match rest' with
              | String _ (String _ (String h (String l rest''))) =>
                  Some (ascii_of_N (hex_value h * 16 + hex_value l), rest'')
              | _ => None
              end
            else Some (d, rest')
        end
      else Some (c, rest)
  end.

(** SHA-256 tells the two messages apart. *)
Definition sha256_distinguishes (x y : list byte) : Prop :=
  x <> y -> SHA256.hexdigest_of x <> SHA256.hexdigest_of y.

(** The bytes that [calculate_files_checksum] feeds to the hash. *)
Definition files_stream (env : Env) (fs : tree) (files : list path) : res (list byte) :=
  update_with_files env fs (sorted_paths (sorted_paths files)) SHA256.new.

(** Between the source trees [fs] and [fs'] the step [s] tracks the same
    paths [paths]; the file [p] among them has other bytes and the other
    tracked files have the same bytes. *)
Record changed_file (env : Env) (fs fs' : tree) (s : BuildStep) (paths : list path)
    (p : path) : Prop := {
  changed_paths : tracked_file_paths env fs s = Ok paths;
  changed_paths' : tracked_file_paths env fs' s = Ok paths;
  changed_tracked : In p paths;
  changed_bytes :
    read_bytes fs' (joinpath (SOURCE_ROOT env) p)
    <> read_bytes fs (joinpath (SOURCE_ROOT env) p);
  changed_only :
    forall q, In q paths -> q <> p ->
      read_bytes fs' (joinpath (SOURCE_ROOT env) q)
      = read_bytes fs (joinpath (SOURCE_ROOT env) q)
}.

(** Between [fs] and [fs'] the step [s] tracks the same paths, and the
    tracked files have the same bytes. *)
Definition unchanged_inputs (env : Env) (fs fs' : tree) (s : BuildStep) : Prop :=
  tracked_file_paths env fs' s = tracked_file_paths env fs s
  /\ forall paths p,
       tracked_file_paths env fs s = Ok paths -> In p paths ->
       read_bytes fs' (joinpath (SOURCE_ROOT env) p)
       = read_bytes fs (joinpath (SOURCE_ROOT env) p).



(** ** The environment of a command *)

(** The value of the variable [n] after the assignments [vars], made in
    this order, to the environment of a command: the last one wins. *)
Fixpoint env_get (vars : list (string * string)) (n : string) : option string :=
  match vars with
  | [] => None
  | (k, v) :: rest =>
      match env_get rest n with
      | Some v' => Some v'
      | None => if (k =? n)%string then Some v else None
      end
  end.



(** ** The command that runs a step in a container *)

(** The removal of the container of a step. *)
Definition remove_container : event :=
  Call ["docker"; "rm"; "-f"; container_name] [] None.

(** The [-e] options of [_run_in_docker]. *)
Definition docker_env_options (settings : list (string * option string)) : list string :=
  flat_map (fun kv =>
              ["-e"; (fst kv ++ "=" ++
                      match snd kv with Some v => v | None => "None" end)%string])
           settings
  ++ ["-e"; "STEP_OUTPUT_PATH=/tmp/step/output";
      "-e"; ("SOURCE_ROOT=" ++ str_path _in_docker_source_root_path)%string;
      "-e"; "AGENT_BUILD_IN_DOCKER=1"].

(** The [-v] options of [_run_in_docker], for the step of id [i] with the
    dependency steps of ids [dep_ids]. *)
Definition docker_volumes (env : Env) (build_root : path) (i : string)
    (dep_ids : list string) : list string :=
  ["-v"; (str_path (_source_root env build_root i) ++ ":"
          ++ str_path _in_docker_source_root_path)%string;
   "-v"; (str_path (_temp_output_directory env build_root i) ++ ":"
          ++ "/tmp/step/output")%string]
  ++ flat_map (fun di =>
                 ["-v"; (str_path (output_directory env build_root di) ++ ":"
                         ++ str_path (_in_docker_dependency_outputs_path ++ [di])%list)%string])
              dep_ids.

(** The command line of [docker run] in [_run_in_docker]. *)
Definition docker_run_argv (env : Env) (build_root : path) (s : BuildStep) (i : string)
    (base_image : DockerImageSpec) (dep_ids cmd_args : list string) : list string :=
  ["docker"; "run"; "-i"; "--name"; container_name]
  ++ docker_volumes env build_root i dep_ids
  ++ ["--platform"; as_docker_platform env (architecture base_image)]
  ++ docker_env_options (_additional_settings s)
  ++ ["--workdir"; str_path _in_docker_source_root_path; image_name base_image]
  ++ cmd_args.

(** The image that the container of a step is started from. *)
Definition docker_base_image (env : Env) (fs : tree) (s : BuildStep)
  : res (option DockerImageSpec) :=
  match _base_step s with
  | Some b => result_image env fs b
  | None => base_docker_image env fs s
  end.



(** ** The files of an output directory *)

(** The file lists of the directories named [d] among [dirs]. *)
Definition files_of (dirs : list (string * list string)) (d : string)
  : list (list string) :=
  map snd (filter (fun e => (fst e =? d)%string) dirs).

(** The file lists of the directories named [d] in [step_outputs]: one list
    when there is one such directory, none when there is no such
    directory. *)
Definition files_in (w : world) (d : string) : list (list string) :=
  files_of (step_outputs w) d.

(** Whether [_run] saves the image of the container of the step. *)
Definition image_saved (env : Env) (s : BuildStep) : bool :=
  is_script s && runs_in_docker s && negb (IN_DOCKER env) && negb (is_dependency_step s).

(** [m] leaves the output directories and their files as they are. *)
Definition keeps_outputs {A : Type} (m : M A) : Prop :=
  forall w r w', m w = (r, w') -> step_outputs w' = step_outputs w.



(** ** [FinalStep] *)

(** A final step: the steps it uses and, for [_run], what the subclass
    does. *)
Record FinalStep : Type := {
  _used_steps : list BuildStep;
  final__run : M unit
}.

(** [FinalStep.all_used_cacheable_steps] *)
Definition final_all_used_cacheable_steps (f : FinalStep) : list BuildStep :=
  flat_map all_used_cacheable_steps (_used_steps f).

(** [FinalStep.all_used_cacheable_steps_ids] *)
Definition final_all_used_cacheable_steps_ids (env : Env) (fs : tree) (f : FinalStep)
  : res (list string) :=
  mapM (id env fs) (final_all_used_cacheable_steps f).

(** [FinalStep.run] *)
Definition final_run (env : Env) (fs : tree) (build_root : path) (f : FinalStep)
  : M unit :=
  forM_ (run env fs build_root) (_used_steps f) ;;; final__run f.

(** The command that [_prepare_working_source_root] runs before it removes
    an isolated source root. *)
Definition list_source_root (env : Env) (build_root : path) (i : string) : event :=
  Shell ("ls -al " ++ str_path (_source_root env build_root i) ++ "/..").


(* ================================================================== *)
(** * A concrete environment and a small step graph *)

(** [Path.glob] on a pattern without wildcard characters, and on ["**/*"],
    which yields every entry below the root. *)
Definition literal_glob (root : path) (pattern : string) (p : path) : bool :=
  if (pattern =? "**/*")%string then negb (path_eqb p root)
  else path_eqb p (root ++ parse_path pattern).

(** [PurePath.match] on a relative pattern without wildcard characters: the
    pattern is matched from the right. *)
Definition literal_match (p : path) (pattern : string) : bool :=
  match parse_path pattern with
  | [] => false
  | pat => is_prefix (rev pat) (rev p)
  end.

(** [repr] of a list of strings that need no escaping. *)
Definition repr_plain (l : list string) : string :=
  "[" ++ str_join ", " (map (fun x => "'" ++ x ++ "'")%string l) ++ "]".

Definition all_succeed (history : list event) (e : event) : bool * string :=
  (true, EmptyString).

(** Every process succeeds, except those that have [word] in their command
    line. *)
Definition fails_on (word : string) (history : list event) (e : event)
  : bool * string :=
  (negb (existsb (String.eqb word) (argv_of e)), EmptyString).

Definition example_env (proc : list event -> event -> bool * string) : Env :=
  {| SOURCE_ROOT := ["/"; "src"];
     cwd := ["/"; "work"];
     IN_CICD := false;
     IN_DOCKER := false;
     as_docker_platform := fun arch => ("linux/" ++ arch)%string;
     glob_sel := literal_glob;
     path_match := literal_match;
     repr_list := repr_plain;
     process := proc |}.

Definition example_tree_with (x_content : string) : tree :=
  [ (["/"; "src"; ".dockerignore"], File (encode ("build" ++ newline)%string));
    (["/"; "src"; "x"], File (encode x_content));
    (["/"; "src"; "y"], File (encode "2"));
    (["/"; "src"; "z"], File (encode "3"));
    (["/"; "src"; "steps"], Dir);
    (["/"; "src"; "steps"; "a.sh"], File (encode "echo a"));
    (["/"; "src"; "steps"; "b.sh"], File (encode "echo b"));
    (["/"; "src"; "steps"; "c.py"], File (encode "print(1)"));
    (["/"; "src"; "steps"; "d.sh"], File (encode "echo d"));
    (["/"; "src"; "steps"; "e.txt"], File (encode "e"));
    (["/"; "src"; "build"], Dir);
    (["/"; "src"; "build"; "x"], File (encode "out")) ].

Definition example_tree : tree := example_tree_with "1".

Definition script_step (step_name : string) (tracked : list path) (script : string)
    (base : option (DockerImageSpec + BuildStep)) (deps : list BuildStep) : BuildStep :=
  {| is_script := true;
     type_name := "ScriptBuildStep";
     name := step_name;
     TRACKED_FILE_GLOBS := tracked;
     NO_CI_CD_CACHE := false;
     _script_path := ["/"; "src"; "steps"; script];
     is_dependency_step := false;
     base_step := base;
     _dependency_steps := deps;
     _additional_settings := [];
     cacheable := true |}.

(** The scenario of the specification: [A] tracks [x]; [B] depends on [A]
    and tracks [y].  [C] is a sibling of [B] that tracks [z]; [D] reaches
    [A] through [B] and through its own base step. *)
Definition step_A : BuildStep := script_step "A" [["x"]] "a.sh" None [].
Definition step_B : BuildStep := script_step "B" [["y"]] "b.sh" None [step_A].
Definition step_C : BuildStep := script_step "C" [["z"]] "c.py" None [].
Definition step_D : BuildStep :=
  script_step "D" [] "d.sh" (Some (inr step_A)) [step_B].

(** A step whose script is not a [.ps1], [.sh] or [.py] file. *)
Definition step_E : BuildStep := script_step "E" [] "e.txt" None [].

Definition ubuntu : DockerImageSpec :=
  {| image_name := "ubuntu:20.04"; architecture := "x86_64" |}.

(** A step that runs in a container and saves its image. *)
Definition step_I : BuildStep := script_step "I" [] "a.sh" (Some (inl ubuntu)) [].

Definition empty_world : world :=
  {| step_outputs := []; source_roots := []; trace := []; run_calls := [] |}.

Definition build_root_example : path := ["/"; "work"; "build"].


(** A step whose globs name a directory, an ignored directory and a file in
    it. *)
Definition step_T : BuildStep :=
  script_step "T" [["steps"]; ["build"; "x"]; ["build"]; ["y"]] "a.sh" None [].


(** A step like [A], of another class, that is a dependency step, is not
    cacheable and asks for no cache in CI/CD. *)
Definition step_A_flagged : BuildStep :=
  {| is_script := true;
     type_name := "PrepareStep";
     name := "A";
     TRACKED_FILE_GLOBS := [["x"]];
     NO_CI_CD_CACHE := true;
     _script_path := ["/"; "src"; "steps"; "a.sh"];
     is_dependency_step := true;
     base_step := None;
     _dependency_steps := [];
     _additional_settings := [];
     cacheable := false |}.


(** A step with settings: one has no value, two bear the names of
    variables that the engine sets itself. *)
Definition step_S : BuildStep :=
  {| is_script := true;
     type_name := "ScriptBuildStep";
     name := "S";
     TRACKED_FILE_GLOBS := [];
     NO_CI_CD_CACHE := false;
     _script_path := ["/"; "src"; "steps"; "a.sh"];
     is_dependency_step := false;
     base_step := None;
     _dependency_steps := [step_A];
     _additional_settings :=
       [("MODE", Some "fast"); ("EXTRA", None);
        ("SOURCE_ROOT", Some "/elsewhere"); ("STEP_OUTPUT_PATH", Some "/mine")];
     cacheable := true |}.


(** A step that runs in a container, with a dependency step and settings,
    one of them without a value. *)
Definition step_J : BuildStep :=
  {| is_script := true;
     type_name := "ScriptBuildStep";
     name := "J";
     TRACKED_FILE_GLOBS := [];
     NO_CI_CD_CACHE := false;
     _script_path := ["/"; "src"; "steps"; "a.sh"];
     is_dependency_step := false;
     base_step := Some (inl ubuntu);
     _dependency_steps := [step_A];
     _additional_settings := [("MODE", Some "fast"); ("EXTRA", None)];
     cacheable := true |}.


(** A final step on the steps [B] and [C], that does nothing itself. *)
Definition final_BC : FinalStep :=
  {| _used_steps := [step_B; step_C]; final__run := ret tt |}.


(** A step that runs in the container left by the step [I]. *)
Definition step_K : BuildStep := script_step "K" [] "a.sh" (Some (inr step_I)) [].

(** The source tree after one more line is written to [.dockerignore], a
    line that matches no path of the tree: the other files are as they
    were. *)
Definition example_tree_ignoring_tmp : tree :=
  (["/"; "src"; ".dockerignore"],
   File (encode ("build" ++ newline ++ "tmp" ++ newline)%string))
  :: tl example_tree.

(* ================================================================== *)
(** * Properties *)

Ltac inv H := inversion H; subst; clear H.

(* ------------------------------------------------------------------ *)
(** ** Comparisons and sorting *)

Section Comparison.

Context {A : Type} (cmp : A -> A -> comparison).
Hypothesis cmp_ok : total_order cmp.

Lemma list_compare_refl : forall l, list_compare cmp l l = Eq.
Proof.
  induction l as [|x l IH]; simpl; [reflexivity|].
  now rewrite (cmp_refl cmp cmp_ok).
Qed.

Lemma list_compare_eq : forall l1 l2, list_compare cmp l1 l2 = Eq -> l1 = l2.
Proof.
  induction l1 as [|x l1 IH]; destruct l2 as [|y l2]; simpl; try discriminate; auto.
  destruct (cmp x y) eqn:E; try discriminate.
  intros H. apply (cmp_eq cmp cmp_ok) in E. subst. f_equal. auto.
Qed.

Lemma list_compare_opp :
  forall l1 l2, list_compare cmp l1 l2 = CompOpp (list_compare cmp l2 l1).
Proof.
  induction l1 as [|x l1 IH]; destruct l2 as [|y l2]; simpl; auto.
  rewrite (cmp_opp cmp cmp_ok x y).
  destruct (cmp y x); simpl; auto.
Qed.

Lemma list_compare_trans :
  forall l1 l2 l3,
    list_compare cmp l1 l2 = Lt -> list_compare cmp l2 l3 = Lt ->
    list_compare cmp l1 l3 = Lt.
Proof.
  induction l1 as [|x l1 IH]; destruct l2 as [|y l2]; destruct l3 as [|z l3];
    simpl; try discriminate; auto.
  destruct (cmp x y) eqn:Exy; try discriminate;
    destruct (cmp y z) eqn:Eyz; try discriminate; intros H1 H2.
  - apply (cmp_eq cmp cmp_ok) in Exy. subst. rewrite Eyz. eauto.
  - apply (cmp_eq cmp cmp_ok) in Exy. subst. now rewrite Eyz.
  - apply (cmp_eq cmp cmp_ok) in Eyz. subst. now rewrite Exy.
  - now rewrite (cmp_trans cmp cmp_ok _ _ _ Exy Eyz).
Qed.

Lemma list_compare_total_order : total_order (list_compare cmp).
Proof.
  constructor.
  - apply list_compare_refl.
  - apply list_compare_eq.
  - apply list_compare_opp.
  - apply list_compare_trans.
Qed.

(** The order [leb_of cmp]. *)

Lemma leb_of_total : forall x y, leb_of cmp x y = true \/ leb_of cmp y x = true.
Proof.
  intros x y. unfold leb_of. rewrite (cmp_opp cmp cmp_ok x y).
  destruct (cmp y x); simpl; auto.
Qed.

Lemma leb_of_antisym :
  forall x y, leb_of cmp x y = true -> leb_of cmp y x = true -> x = y.
Proof.
  intros x y. unfold leb_of. rewrite (cmp_opp cmp cmp_ok x y).
  destruct (cmp y x) eqn:E; simpl; try discriminate.
  intros _ _. symmetry. now apply (cmp_eq cmp cmp_ok).
Qed.

Lemma leb_of_trans :
  forall x y z,
    leb_of cmp x y = true -> leb_of cmp y z = true -> leb_of cmp x z = true.
Proof.
  intros x y z. unfold leb_of.
  destruct (cmp x y) eqn:Exy; try discriminate;
    destruct (cmp y z) eqn:Eyz; try discriminate; intros _ _.
  - apply (cmp_eq cmp cmp_ok) in Exy. subst. now rewrite Eyz.
  - apply (cmp_eq cmp cmp_ok) in Exy. subst. now rewrite Eyz.
  - apply (cmp_eq cmp cmp_ok) in Eyz. subst. now rewrite Exy.
  - now rewrite (cmp_trans cmp cmp_ok _ _ _ Exy Eyz).
Qed.

End Comparison.

Section Sorting.

Context {A : Type} (leb : A -> A -> bool).

Let le (x y : A) : Prop := leb x y = true.

Lemma insert_perm : forall x l, Permutation (x :: l) (insert leb x l).
Proof.
  intros x l. induction l as [|y l IH]; simpl; [apply Permutation_refl|].
  destruct (leb x y); [apply Permutation_refl|].
  eapply Permutation_trans; [apply perm_swap|]. now apply perm_skip.
Qed.

Lemma sorted_by_perm : forall l, Permutation l (sorted_by leb l).
Proof.
  induction l as [|x l IH]; simpl; [constructor|].
  eapply Permutation_trans; [|apply insert_perm]. now apply perm_skip.
Qed.

(** A sorted list is left as it is. *)
Lemma sorted_by_fixed : forall l, Sorted le l -> sorted_by leb l = l.
Proof.
  induction l as [|x l IH]; simpl; intros H; [reflexivity|].
  inv H. rewrite IH by assumption.
  destruct l as [|y l]; simpl; [reflexivity|].
  inv H3. unfold le in H0. now rewrite H0.
Qed.

Hypothesis leb_total : forall x y, leb x y = true \/ leb y x = true.

Lemma insert_sorted : forall x l, Sorted le l -> Sorted le (insert leb x l).
Proof.
  intros x l. induction l as [|y l IH]; simpl; intros H.
  - repeat constructor.
  - destruct (leb x y) eqn:E.
    + constructor; [assumption|]. constructor. exact E.
    + inv H. constructor; [auto|].
      assert (Hyx : le y x) by (destruct (leb_total x y); congruence).
      destruct l as [|z l]; simpl.
      * now constructor.
      * destruct (leb x z); constructor; auto. now inv H3.
Qed.

Lemma sorted_by_sorted : forall l, Sorted le (sorted_by leb l).
Proof.
  induction l as [|x l IH]; simpl; [constructor|]. now apply insert_sorted.
Qed.

Lemma sorted_by_idempotent : forall l, sorted_by leb (sorted_by leb l) = sorted_by leb l.
Proof. intros l. apply sorted_by_fixed, sorted_by_sorted. Qed.

Hypothesis leb_trans : forall x y z, leb x y = true -> leb y z = true -> leb x z = true.
Hypothesis leb_antisym : forall x y, leb x y = true -> leb y x = true -> x = y.

Lemma leb_refl : forall x, leb x x = true.
Proof. intros x. now destruct (leb_total x x). Qed.

(** Two sorted lists with the same elements are the same list. *)
Lemma sorted_unique :
  forall l l', StronglySorted le l -> StronglySorted le l' ->
               Permutation l l' -> l = l'.
Proof.
  induction l as [|x l IH]; intros l' Hl Hl' Hp.
  - apply Permutation_nil in Hp. now subst.
  - destruct l' as [|y l'].
    + apply Permutation_sym, Permutation_nil in Hp. discriminate.
    + inv Hl. inv Hl'.
      assert (Hxy : x = y).
      { assert (Hx : In x (y :: l')) by (eapply Permutation_in; [exact Hp|now left]).
        assert (Hy : In y (x :: l))
          by (eapply Permutation_in; [apply Permutation_sym; exact Hp|now left]).
        destruct Hx as [->|Hx]; [reflexivity|].
        destruct Hy as [->|Hy]; [reflexivity|].
        apply leb_antisym.
        - rewrite Forall_forall in H2. now apply H2.
        - rewrite Forall_forall in H4. now apply H4. }
      subst y. f_equal. apply IH; auto.
      now apply Permutation_cons_inv in Hp.
Qed.

Lemma sorted_by_strongly_sorted : forall l, StronglySorted le (sorted_by leb l).
Proof.
  intros l. apply Sorted_StronglySorted.
  - intros x y z. apply leb_trans.
  - apply sorted_by_sorted.
Qed.

(** [sorted] does not depend on the order of its argument. *)
Lemma sorted_by_permutation :
  forall l l', Permutation l l' -> sorted_by leb l = sorted_by leb l'.
Proof.
  intros l l' Hp. apply sorted_unique; try apply sorted_by_strongly_sorted.
  eapply Permutation_trans; [apply Permutation_sym, sorted_by_perm|].
  eapply Permutation_trans; [exact Hp|apply sorted_by_perm].
Qed.

End Sorting.

(* ------------------------------------------------------------------ *)
(** ** The order of strings and of paths *)

Lemma ascii_compare_total_order : total_order Ascii.compare.
Proof.
  constructor.
  - intros x. apply N.compare_refl.
  - apply Ascii.compare_eq_iff.
  - apply Ascii.compare_antisym.
  - intros x y z. unfold Ascii.compare. rewrite !N.compare_lt_iff. apply N.lt_trans.
Qed.

Lemma string_compare_as_list :
  forall s1 s2,
    String.compare s1 s2
    = list_compare Ascii.compare (list_ascii_of_string s1) (list_ascii_of_string s2).
Proof.
  induction s1 as [|c1 s1 IH]; destruct s2 as [|c2 s2]; simpl; auto.
  now rewrite IH.
Qed.

Lemma list_ascii_of_string_inj :
  forall s1 s2, list_ascii_of_string s1 = list_ascii_of_string s2 -> s1 = s2.
Proof.
  intros s1 s2 H.
  rewrite <- (string_of_list_ascii_of_string s1), <- (string_of_list_ascii_of_string s2).
  now rewrite H.
Qed.

Lemma string_compare_total_order : total_order String.compare.
Proof.
  pose proof (list_compare_total_order _ ascii_compare_total_order) as L.
  constructor.
  - intros x. rewrite string_compare_as_list. apply (cmp_refl _ L).
  - intros x y. rewrite string_compare_as_list. intros H.
    apply list_ascii_of_string_inj. now apply (cmp_eq _ L).
  - intros x y. rewrite !string_compare_as_list. apply (cmp_opp _ L).
  - intros x y z. rewrite !string_compare_as_list. apply (cmp_trans _ L).
Qed.

Lemma path_compare_total_order : total_order path_compare.
Proof. apply list_compare_total_order, string_compare_total_order. Qed.

Lemma path_leb_total : forall p q, path_leb p q = true \/ path_leb q p = true.
Proof. apply leb_of_total, path_compare_total_order. Qed.

Lemma path_leb_trans :
  forall p q r, path_leb p q = true -> path_leb q r = true -> path_leb p r = true.
Proof. apply leb_of_trans, path_compare_total_order. Qed.

Lemma path_leb_antisym :
  forall p q, path_leb p q = true -> path_leb q p = true -> p = q.
Proof. apply leb_of_antisym, path_compare_total_order. Qed.

Lemma sorted_paths_sorted : forall l, Sorted path_le (sorted_paths l).
Proof. intros l. apply (sorted_by_sorted path_leb path_leb_total). Qed.

Lemma sorted_paths_perm : forall l, Permutation l (sorted_paths l).
Proof. intros l. apply sorted_by_perm. Qed.

Lemma sorted_paths_idempotent : forall l, sorted_paths (sorted_paths l) = sorted_paths l.
Proof. intros l. apply (sorted_by_idempotent path_leb path_leb_total). Qed.

Lemma sorted_paths_permutation :
  forall l l', Permutation l l' -> sorted_paths l = sorted_paths l'.
Proof.
  apply (sorted_by_permutation path_leb path_leb_total path_leb_trans path_leb_antisym).
Qed.

(* ------------------------------------------------------------------ *)
(** ** [calculate_files_checksum] *)

Lemma update_with_files_chunks :
  forall env fs files sha256,
    update_with_files env fs files sha256
    = match
        mapM (fun p =>
                match read_bytes fs (joinpath (SOURCE_ROOT env) p) with
                | Ok content => Ok (encode (str_path p) ++ content)
                | Raise e => Raise e
                end) files
      with
      | Ok chunks => Ok (sha256 ++ List.concat chunks)
      | Raise e => Raise e
      end.
Proof.
  intros env fs files. induction files as [|p files IH]; intros sha256; simpl.
  - now rewrite app_nil_r.
  - destruct (read_bytes fs (joinpath (SOURCE_ROOT env) p)) as [content|e]; [|reflexivity].
    rewrite IH. unfold SHA256.update.
    match goal with |- context [mapM ?f files] => destruct (mapM f files) as [chunks|e] end;
      [|reflexivity].
    simpl. now rewrite <- !app_assoc.
Qed.

Lemma calculate_files_checksum_chunks :
  forall env fs files,
    calculate_files_checksum env fs files = files_checksum_spec env fs files.
Proof.
  intros env fs files. unfold calculate_files_checksum, files_checksum_spec.
  rewrite sorted_paths_idempotent, update_with_files_chunks.
  unfold SHA256.new, SHA256.hexdigest.
  match goal with |- context [mapM ?f ?l] => destruct (mapM f l) as [chunks|e] end;
    reflexivity.
Qed.

(** C8: [calculate_files_checksum] is the SHA-256 digest of the bytes
    obtained by going through the paths in sorted order and taking, for each
    path, the bytes of the relative path string and then the bytes of the
    file; the order is that of [sorted], a permutation of the given paths
    that is sorted in the order of paths.  If a file cannot be read, both
    raise the same error. *)
Theorem calculate_files_checksum_spec :
  forall env fs files,
    calculate_files_checksum env fs files = files_checksum_spec env fs files
    /\ Sorted path_le (sorted_paths files)
    /\ Permutation files (sorted_paths files).
Proof.
  intros env fs files. split; [|split].
  - apply calculate_files_checksum_chunks.
  - apply sorted_paths_sorted.
  - apply sorted_paths_perm.
Qed.

(* ------------------------------------------------------------------ *)
(** ** Strings *)

Lemma string_app_assoc : forall a b c : string, ((a ++ b) ++ c = a ++ (b ++ c))%string.
Proof. induction a as [|x a IH]; intros; simpl; [reflexivity|]. now rewrite IH. Qed.

Lemma string_app_nil_r : forall a : string, (a ++ EmptyString = a)%string.
Proof. induction a as [|x a IH]; simpl; [reflexivity|]. now rewrite IH. Qed.

Lemma string_app_length :
  forall a b : string, String.length (a ++ b) = String.length a + String.length b.
Proof. induction a as [|x a IH]; intros; simpl; [reflexivity|]. now rewrite IH. Qed.

Lemma lower_app : forall a b, lower (a ++ b) = (lower a ++ lower b)%string.
Proof. induction a as [|x a IH]; intros; simpl; [reflexivity|]. now rewrite IH. Qed.

Lemma lower_hex_digit :
  forall n, (0 <= n < 16)%Z -> lower_char (hex_digit n) = hex_digit n.
Proof.
  intros n Hn. replace n with (Z.of_nat (Z.to_nat n)) by lia.
  assert (Hk : Z.to_nat n < 16) by lia.
  revert Hk. generalize (Z.to_nat n). intros k Hk.
  do 16 (destruct k as [|k]; [reflexivity|]). lia.
Qed.

Lemma lower_hex_of : forall digits n, lower (hex_of digits n) = hex_of digits n.
Proof.
  induction digits as [|d IH]; intros n; simpl; [reflexivity|].
  rewrite lower_app, IH. simpl. rewrite lower_hex_digit; [reflexivity|].
  apply Z.mod_pos_bound. lia.
Qed.

Lemma lower_join_fixed :
  forall l, Forall (fun x => lower x = x) l ->
            lower (str_join EmptyString l) = str_join EmptyString l.
Proof.
  induction l as [|x l IH]; intros H; [reflexivity|].
  inv H. destruct l as [|y l].
  - exact H2.
  - change (str_join EmptyString (x :: y :: l))
      with (x ++ EmptyString ++ str_join EmptyString (y :: l))%string.
    rewrite !lower_app, IH, H2 by assumption. reflexivity.
Qed.

Lemma lower_join_hex :
  forall ws, lower (str_join EmptyString (map (hex_of 8) ws))
             = str_join EmptyString (map (hex_of 8) ws).
Proof.
  intros ws. apply lower_join_fixed, Forall_forall.
  intros x Hx. apply in_map_iff in Hx. destruct Hx as (w & <- & _).
  apply lower_hex_of.
Qed.

(** A digest is written in lower case. *)
Lemma lower_hexdigest : forall msg, lower (SHA256.hexdigest_of msg) = SHA256.hexdigest_of msg.
Proof. intros msg. apply lower_join_hex. Qed.

(* ------------------------------------------------------------------ *)
(** ** The identity of a step *)

Lemma mapM_ext_in :
  forall {A B : Type} (f g : A -> res B) l,
    (forall x, In x l -> f x = g x) -> mapM f l = mapM g l.
Proof.
  intros A B f g l. induction l as [|x l IH]; intros H; simpl; [reflexivity|].
  rewrite (H x) by now left.
  destruct (g x); [|reflexivity].
  rewrite IH; [reflexivity|]. intros y Hy. apply H. now right.
Qed.

Lemma mapM_cons :
  forall {A B : Type} (f : A -> res B) x l,
    mapM f (x :: l)
    = match f x with
      | Raise e => Raise e
      | Ok y => match mapM f l with
                | Raise e => Raise e
                | Ok ys => Ok (y :: ys)
                end
      end.
Proof. reflexivity. Qed.

Lemma mapM_all_ok :
  forall {A B : Type} (f : A -> res B) l,
    Forall (fun x => exists y, f x = Ok y) l -> exists ys, mapM f l = Ok ys.
Proof.
  intros A B f l H. induction H as [|x l (y & Hy) _ (ys & IH)]; [now exists []|].
  rewrite mapM_cons, Hy, IH. eauto.
Qed.

Lemma overall_info_eq :
  forall env fs s,
    overall_info env fs s =
    match tracked_file_paths env fs s with
    | Raise e => Raise e
    | Ok paths =>
    match calculate_files_checksum env fs paths with
    | Raise e => Raise e
    | Ok checksum =>
    match mapM (overall_info env fs) (_dependency_steps s) with
    | Raise e => Raise e
    | Ok deps =>
    match
      match _base_step s with
      | Some b =>
          match overall_info env fs b with
          | Raise e => Raise e
          | Ok info => Ok (info, id_of (name b) (dumps info))
          end
      | None => Ok (JNull, EmptyString)
      end
    with
    | Raise e => Raise e
    | Ok (base, base_id) =>
        Ok (JDict
              ([("name", JStr (name s));
                ("used_files", JList (map (fun p => JStr (str_path p)) paths));
                ("files_checksum", JStr checksum);
                ("dependency_steps", JList deps);
                ("base_step", base);
                ("additional_settings", settings_json (_additional_settings s))]
               ++ match base_docker_image_with s base_id with
                  | Some spec => [("docker_image", as_dict spec)]
                  | None => []
                  end))
    end end end end.
Proof.
  intros env fs s. destruct s as [sc tn nm globs nocache sp isdep base deps st ca].
  unfold _base_step. simpl.
  destruct base as [[spec|b]|]; reflexivity.
Qed.

Lemma id_of_eq :
  forall step_name str,
    id_of step_name str
    = (lower step_name ++ "__" ++ SHA256.hexdigest_of (encode str))%string.
Proof.
  intros. unfold id_of, SHA256.hexdigest, SHA256.update, SHA256.new. simpl app.
  now rewrite !lower_app, lower_hexdigest.
Qed.

Lemma calculate_files_checksum_ext :
  forall env fs env' fs' paths,
    (forall p, In p paths ->
               read_bytes fs' (joinpath (SOURCE_ROOT env') p)
               = read_bytes fs (joinpath (SOURCE_ROOT env) p)) ->
    calculate_files_checksum env' fs' paths = calculate_files_checksum env fs paths.
Proof.
  intros env fs env' fs' paths H.
  rewrite !calculate_files_checksum_chunks.
  unfold files_checksum_spec. erewrite mapM_ext_in; [reflexivity|].
  intros p Hp. simpl. rewrite H; [reflexivity|].
  eapply Permutation_in; [apply Permutation_sym, sorted_paths_perm|exact Hp].
Qed.

Lemma overall_info_same_inputs :
  forall env fs env' fs' s,
    same_fingerprint_inputs env fs env' fs' s ->
    overall_info env' fs' s = overall_info env fs s.
Proof.
  intros env fs env' fs' s (Ht & Hb & Hd & Hbase).
  rewrite (overall_info_eq env' fs' s), (overall_info_eq env fs s), Ht, Hd.
  destruct (tracked_file_paths env fs s) as [paths|e] eqn:Et; [|reflexivity].
  rewrite (calculate_files_checksum_ext env fs env' fs' paths)
    by (intros p Hp; now apply (Hb paths)).
  destruct (_base_step s) as [b|]; [|reflexivity].
  now rewrite (Hbase b eq_refl).
Qed.

(** C1: the identity of a step is the lower-cased name, two underscores and
    the SHA-256 hex digest of [json.dumps(overall_info, sort_keys=True,
    indent=4)]; and it is the same string wherever it is computed, as long as
    the tracked paths, the bytes of the tracked files and the fingerprints of
    the dependency and base steps are the same. *)
Theorem id_is_name_and_digest :
  forall env fs s,
    id env fs s
    = match overall_info env fs s with
      | Ok info =>
          Ok (lower (name s) ++ "__"
              ++ SHA256.hexdigest_of (encode (dumps info)))%string
      | Raise e => Raise e
      end
    /\ forall env' fs',
         same_fingerprint_inputs env fs env' fs' s ->
         id env' fs' s = id env fs s.
Proof.
  intros env fs s. split.
  - unfold id, overall_info_str.
    destruct (overall_info env fs s); [|reflexivity]. now rewrite id_of_eq.
  - intros env' fs' H. unfold id, overall_info_str.
    now rewrite (overall_info_same_inputs env fs env' fs' s H).
Qed.

Lemma id_is_name_and_digest_witness :
  id (example_env (fails_on "docker")) (example_tree_with "one") step_C
  = id (example_env all_succeed) example_tree step_C.
Proof.
  apply (proj2 (id_is_name_and_digest (example_env all_succeed) example_tree step_C)).
  split; [vm_compute; reflexivity|].
  split; [|split].
  - intros paths p H. vm_compute in H. inv H.
    intros [<-|[<-|[<-|[]]]]; vm_compute; reflexivity.
  - reflexivity.
  - intros b H. discriminate H.
Defined.

(* ------------------------------------------------------------------ *)
(** ** Induction on the step graph *)

Lemma BuildStep_induction :
  forall P : BuildStep -> Prop,
    (forall s,
        Forall P (_dependency_steps s) ->
        (forall b, _base_step s = Some b -> P b) ->
        P s) ->
    forall s, P s.
Proof.
  intros P H. fix IH 1.
  intros [sc tn nm globs nocache sp isdep base deps st ca]. apply H.
  - simpl. revert deps.
    refine (fix go (deps : list BuildStep) : Forall P deps :=
              match deps with
              | [] => Forall_nil P
              | d :: deps' => Forall_cons d (IH d) (go deps')
              end).
  - unfold _base_step. simpl.
    destruct base as [[spec|b]|]; intros b' E; try discriminate E.
    exact (match E in _ = o return match o with Some x => P x | None => True end
           with eq_refl => IH b end).
Qed.

Lemma all_used_cacheable_steps_eq :
  forall s,
    all_used_cacheable_steps s
    = flat_map all_used_cacheable_steps (_dependency_steps s)
      ++ match _base_step s with
         | Some b => all_used_cacheable_steps b
         | None => []
         end
      ++ (if cacheable s then [s] else []).
Proof.
  intros [sc tn nm globs nocache sp isdep base deps st ca]. unfold _base_step. simpl.
  destruct base as [[spec|b]|]; reflexivity.
Qed.

(* ------------------------------------------------------------------ *)
(** ** The cacheable steps that a step uses *)

Lemma all_used_cacheable_steps_sound :
  forall s t, In t (all_used_cacheable_steps s) -> used_by t s /\ cacheable t = true.
Proof.
  induction s as [s IHd IHb] using BuildStep_induction. intros t.
  rewrite all_used_cacheable_steps_eq, !in_app_iff, in_flat_map.
  intros [(d & Hd & Ht)|[Ht|Ht]].
  - rewrite Forall_forall in IHd. destruct (IHd d Hd t Ht) as [U C].
    split; [eapply used_dependency; eauto|exact C].
  - destruct (_base_step s) as [b|] eqn:E; [|contradiction].
    destruct (IHb b eq_refl t Ht) as [U C].
    split; [eapply used_base; eauto|exact C].
  - destruct (cacheable s) eqn:C; [|contradiction].
    destruct Ht as [<-|[]]. split; [constructor|exact C].
Qed.

Lemma all_used_cacheable_steps_complete :
  forall s t, used_by t s -> cacheable t = true -> In t (all_used_cacheable_steps s).
Proof.
  intros s t U C. induction U as [|d s Hd U IH|b s Hb U IH];
    rewrite all_used_cacheable_steps_eq, !in_app_iff.
  - right. right. rewrite C. now left.
  - left. apply in_flat_map. eauto.
  - right. left. now rewrite Hb.
Qed.

(** C2, as amended: the list is that of the dependency steps, in their
    order, then that of the base step, then the step itself when it is marked
    cacheable; its elements are exactly the cacheable steps among the step
    and the steps that it is built on.  Nothing removes a step that is met
    more than once. *)
Theorem all_used_cacheable_steps_closure :
  forall s,
    all_used_cacheable_steps s
    = flat_map all_used_cacheable_steps (_dependency_steps s)
      ++ match _base_step s with
         | Some b => all_used_cacheable_steps b
         | None => []
         end
      ++ (if cacheable s then [s] else [])
    /\ forall t, In t (all_used_cacheable_steps s)
                 <-> (used_by t s /\ cacheable t = true).
Proof.
  intros s. split; [apply all_used_cacheable_steps_eq|].
  intros t. split.
  - apply all_used_cacheable_steps_sound.
  - intros [U C]. now apply all_used_cacheable_steps_complete.
Qed.

(** C2, as stated, fails on the step [D], which reaches the cacheable step
    [A] through its dependency [B] and again through its base step: [A] is
    listed twice, and so is its id. *)
Lemma all_used_cacheable_steps_duplicates :
  ~ NoDup (all_used_cacheable_steps step_D)
  /\ exists ids,
       all_used_cached_step_ids (example_env all_succeed) example_tree step_D = Ok ids
       /\ ~ NoDup ids.
Proof.
  split.
  - intros H. change (all_used_cacheable_steps step_D)
      with [step_A; step_B; step_A; step_D] in H.
    inv H. apply H2. simpl. auto.
  - eexists. split; [vm_compute; reflexivity|].
    intros H. inv H. apply H2. simpl. auto.
Qed.

(* ------------------------------------------------------------------ *)
(** ** Paths and the source tree *)

Lemma path_eqb_eq : forall p q, path_eqb p q = true <-> p = q.
Proof.
  intros p q. unfold path_eqb. destruct (path_eq_dec p q); split; auto; discriminate.
Qed.

Lemma path_eqb_refl : forall p, path_eqb p p = true.
Proof. intros p. now apply path_eqb_eq. Qed.

Lemma mem_path_In : forall p l, mem_path p l = true <-> In p l.
Proof.
  intros p l. unfold mem_path. rewrite existsb_exists. split.
  - intros (x & Hx & E). apply path_eqb_eq in E. now subst.
  - intros H. exists p. split; [exact H|apply path_eqb_refl].
Qed.

Lemma relative_to_app :
  forall base p rel, relative_to p base = Ok rel -> p = base ++ rel.
Proof.
  induction base as [|b base IH]; intros [|x p] rel; simpl; try discriminate.
  - intros H. now inv H.
  - intros H. now inv H.
  - destruct (String.eqb_spec b x) as [->|]; [|discriminate].
    intros H. f_equal. now apply IH.
Qed.

Lemma relative_to_prefix :
  forall base p,
    is_prefix base p = true -> relative_to p base = Ok (skipn (List.length base) p).
Proof.
  induction base as [|b base IH]; intros [|x p]; simpl; try reflexivity; try discriminate.
  destruct (String.eqb b x); simpl; [apply IH|discriminate].
Qed.

Lemma is_prefix_app : forall base rel, is_prefix base (base ++ rel) = true.
Proof.
  induction base as [|b base IH]; intros rel; simpl; [reflexivity|].
  now rewrite String.eqb_refl, IH.
Qed.

Lemma skipn_app_exact : forall {A : Type} (l r : list A), skipn (List.length l) (l ++ r) = r.
Proof. induction l as [|x l IH]; intros r; simpl; auto. Qed.

Lemma lookup_In : forall fs p n, lookup fs p = Some n -> In (p, n) fs.
Proof.
  induction fs as [|[q m] fs IH]; intros p n; simpl; [discriminate|].
  destruct (path_eqb q p) eqn:E.
  - intros H. inv H. apply path_eqb_eq in E. subst. now left.
  - intros H. right. now apply IH.
Qed.

Lemma lookup_key : forall fs p, In p (map fst fs) -> exists n, lookup fs p = Some n.
Proof.
  induction fs as [|[q m] fs IH]; intros p; simpl; [contradiction|].
  destruct (path_eqb q p) eqn:E; [eauto|].
  intros [->|H]; [|now apply IH].
  now rewrite path_eqb_refl in E.
Qed.

Lemma In_lookup :
  forall fs p n, NoDup (map fst fs) -> In (p, n) fs -> lookup fs p = Some n.
Proof.
  induction fs as [|[q m] fs IH]; intros p n Hnd; simpl; [contradiction|].
  inv Hnd. intros [E|H].
  - inv E. now rewrite path_eqb_refl.
  - destruct (path_eqb q p) eqn:E; [|now apply IH].
    apply path_eqb_eq in E. subst q. exfalso. apply H1.
    apply in_map_iff. now exists (p, n).
Qed.

(** The content of the tree does not depend on the order of its entries. *)
Lemma lookup_permutation :
  forall fs fs' p,
    NoDup (map fst fs) -> Permutation fs fs' -> lookup fs' p = lookup fs p.
Proof.
  intros fs fs' p Hnd Hp.
  assert (Hnd' : NoDup (map fst fs'))
    by (eapply Permutation_NoDup; [apply Permutation_map; exact Hp|exact Hnd]).
  destruct (lookup fs p) as [n|] eqn:E.
  - apply In_lookup; [exact Hnd'|].
    eapply Permutation_in; [exact Hp|now apply lookup_In].
  - destruct (lookup fs' p) as [n|] eqn:E'; [|reflexivity].
    apply lookup_In in E'.
    assert (H : In (p, n) fs) by (eapply Permutation_in; [apply Permutation_sym; exact Hp|exact E']).
    apply (In_lookup _ _ _ Hnd) in H. congruence.
Qed.

Lemma glob_In :
  forall env fs root pattern p,
    In p (glob env fs root pattern)
    <-> In p (map fst fs) /\ is_prefix root p = true /\ glob_sel env root pattern p = true.
Proof.
  intros. unfold glob. rewrite filter_In, andb_true_iff. tauto.
Qed.

(* ------------------------------------------------------------------ *)
(** ** [tracked_file_paths] *)

Section TrackedFiles.

Variable env : Env.

Lemma glob_permutation :
  forall fs fs' root pattern p,
    Permutation fs fs' ->
    (In p (glob env fs' root pattern) <-> In p (glob env fs root pattern)).
Proof.
  intros fs fs' root pattern p Hp. rewrite !glob_In.
  assert (H : In p (map fst fs') <-> In p (map fst fs)).
  { split; apply Permutation_in; [apply Permutation_sym|]; now apply Permutation_map. }
  tauto.
Qed.

Lemma resolve_globs_permutation :
  forall fs fs', Permutation fs fs' ->
  forall globs found found',
    (forall x, In x found' <-> In x found) ->
    match resolve_globs env fs globs found, resolve_globs env fs' globs found' with
    | Ok r, Ok r' => forall x, In x r' <-> In x r
    | Raise e, Raise e' => e = e'
    | _, _ => False
    end.
Proof.
  intros fs fs' Hp. induction globs as [|g globs IH]; intros found found' H; simpl.
  - exact H.
  - destruct (if is_absolute g then relative_to g (SOURCE_ROOT env) else Ok g)
      as [g'|e]; [|reflexivity].
    apply IH. intros x. rewrite !nodup_In, !in_app_iff, H.
    now rewrite (glob_permutation fs fs' _ _ x Hp).
Qed.

Lemma resolve_globs_NoDup :
  forall fs globs found r,
    NoDup found -> resolve_globs env fs globs found = Ok r -> NoDup r.
Proof.
  intros fs. induction globs as [|g globs IH]; intros found r Hnd; simpl.
  - intros H. now inv H.
  - destruct (if is_absolute g then relative_to g (SOURCE_ROOT env) else Ok g)
      as [g'|e]; [|discriminate].
    apply IH, NoDup_nodup.
Qed.

Lemma resolve_globs_members :
  forall fs globs found r,
    resolve_globs env fs globs found = Ok r ->
    forall p, In p r ->
      In p found \/ (In p (map fst fs) /\ is_prefix (SOURCE_ROOT env) p = true).
Proof.
  intros fs. induction globs as [|g globs IH]; intros found r; simpl.
  - intros H. inv H. auto.
  - destruct (if is_absolute g then relative_to g (SOURCE_ROOT env) else Ok g)
      as [g'|e]; [|discriminate].
    intros H p Hp. destruct (IH _ _ H p Hp) as [Hin|Hin]; [|now right].
    rewrite nodup_In, in_app_iff, glob_In in Hin. tauto.
Qed.

Lemma exclude_lines_permutation :
  forall ls found found',
    (forall x, In x found' <-> In x found) ->
    match exclude_lines env ls found, exclude_lines env ls found' with
    | Ok r, Ok r' => forall x, In x r' <-> In x r
    | Raise e, Raise e' => e = e'
    | _, _ => False
    end.
Proof.
  induction ls as [|line ls IH]; intros found found' H; simpl.
  - tauto.
  - destruct (line =? EmptyString)%string; [now apply IH|].
    destruct (dockerignore_pattern line) as [pattern|e]; [|reflexivity].
    specialize (IH found found' H).
    destruct (exclude_lines env ls found) as [r|e],
             (exclude_lines env ls found') as [r'|e']; try exact IH.
    intros x. rewrite !in_app_iff, !filter_In, H, IH. tauto.
Qed.

Lemma is_dir_permutation :
  forall fs fs' p,
    NoDup (map fst fs) -> Permutation fs fs' -> is_dir fs' p = is_dir fs p.
Proof.
  intros. unfold is_dir. now rewrite (lookup_permutation fs fs').
Qed.

Lemma exclude_children_In :
  forall fs excluded x,
    In x (exclude_children env fs excluded)
    <-> In x excluded
        \/ exists ex_path, In ex_path excluded /\ is_dir fs ex_path = true
                           /\ In x (glob env fs ex_path "**/*").
Proof.
  intros fs excluded x. unfold exclude_children. rewrite in_app_iff, in_flat_map.
  split; (intros [H|(e & He & H)]; [now left|right; exists e]).
  - destruct (is_dir fs e); [auto|contradiction].
  - destruct H as [-> H]. auto.
Qed.

(** The list that [tracked_file_paths] sorts, when nothing raises. *)
Lemma tracked_file_paths_ok :
  forall fs s l,
    tracked_file_paths env fs s = Ok l ->
    exists found content excluded,
      resolve_globs env fs (_tracked_file_globs s) [] = Ok found
      /\ read_text fs (SOURCE_ROOT env ++ [".dockerignore"]) = Ok content
      /\ exclude_lines env (splitlines content) found = Ok excluded
      /\ l = sorted_paths
               (map (skipn (List.length (SOURCE_ROOT env)))
                    (filter (fun p => negb (is_dir fs p))
                       (filter (fun p => negb (mem_path p (exclude_children env fs excluded)))
                          found)
                     ++ [SOURCE_ROOT env ++ [".dockerignore"]])).
Proof.
  intros fs s l. unfold tracked_file_paths.
  change (joinpath (SOURCE_ROOT env) [".dockerignore"])
    with (SOURCE_ROOT env ++ [".dockerignore"]).
  destruct (resolve_globs env fs (_tracked_file_globs s) []) as [found|e] eqn:Ef;
    [|discriminate].
  destruct (read_text fs (SOURCE_ROOT env ++ [".dockerignore"])) as [content|e] eqn:Er;
    [|discriminate].
  destruct (exclude_lines env (splitlines content) found) as [excluded|e] eqn:Ee;
    [|discriminate].
  cbv zeta.
  rewrite (mapM_ext_in (fun p => relative_to p (SOURCE_ROOT env))
             (fun p : path => Ok (skipn (List.length (SOURCE_ROOT env)) p))).
  - assert (Hm : forall (f : path -> path) l0, mapM (fun p => Ok (f p)) l0 = Ok (map f l0)).
    { intros f l0. induction l0 as [|x l0 IH]; simpl; [reflexivity|].
      simpl in IH. now rewrite IH. }
    rewrite Hm. intros H. inv H. exists found, content, excluded. auto.
  - intros p Hp. apply relative_to_prefix. apply in_app_iff in Hp.
    destruct Hp as [Hp|[<-|[]]]; [|apply is_prefix_app].
    apply filter_In in Hp. destruct Hp as [Hp _].
    apply filter_In in Hp. destruct Hp as [Hp _].
    destruct (resolve_globs_members _ _ _ _ Ef p Hp) as [[]|[_ H]]. exact H.
Qed.

(** The result does not depend on the order in which the file system lists
    its entries. *)
Lemma tracked_file_paths_permutation :
  forall fs fs' s,
    NoDup (map fst fs) -> Permutation fs fs' ->
    tracked_file_paths env fs' s = tracked_file_paths env fs s.
Proof.
  intros fs fs' s Hnd Hp. unfold tracked_file_paths.
  pose proof (resolve_globs_permutation fs fs' Hp (_tracked_file_globs s) [] []
                (fun x => iff_refl _)) as Hf.
  destruct (resolve_globs env fs (_tracked_file_globs s) []) as [found|e] eqn:Ef,
           (resolve_globs env fs' (_tracked_file_globs s) []) as [found'|e'] eqn:Ef';
    try contradiction; [|now subst].
  unfold read_text, read_bytes. rewrite (lookup_permutation fs fs' _ Hnd Hp).
  destruct (lookup fs (joinpath (SOURCE_ROOT env) [".dockerignore"])) as [[c|]|];
    try reflexivity.
  destruct (decode c) as [content|e]; [|reflexivity].
  pose proof (exclude_lines_permutation (splitlines content) found found' Hf) as He.
  destruct (exclude_lines env (splitlines content) found) as [ex|e],
           (exclude_lines env (splitlines content) found') as [ex'|e'];
    try contradiction; [|now subst].
  assert (Hperm :
    Permutation
      (filter (fun p => negb (is_dir fs' p))
         (filter (fun p => negb (mem_path p (exclude_children env fs' ex'))) found'))
      (filter (fun p => negb (is_dir fs p))
         (filter (fun p => negb (mem_path p (exclude_children env fs ex))) found))).
  { apply NoDup_Permutation.
    - apply NoDup_filter, NoDup_filter.
      eapply resolve_globs_NoDup; [constructor|exact Ef'].
    - apply NoDup_filter, NoDup_filter.
      eapply resolve_globs_NoDup; [constructor|exact Ef].
    - intros x. rewrite !filter_In, Hf, (is_dir_permutation fs fs' x Hnd Hp).
      assert (Hm : mem_path x (exclude_children env fs' ex')
                   = mem_path x (exclude_children env fs ex)).
      { apply eq_true_iff_eq. rewrite !mem_path_In, !exclude_children_In.
        split; (intros [H|(e & H1 & H2 & H3)]; [left; now apply He|right; exists e]).
        - rewrite <- (is_dir_permutation fs fs' e Hnd Hp).
          rewrite <- (glob_permutation fs fs' _ _ x Hp).
          split; [now apply He|auto].
        - rewrite (is_dir_permutation fs fs' e Hnd Hp).
          rewrite (glob_permutation fs fs' _ _ x Hp).
          split; [now apply He|auto]. }
      rewrite Hm. tauto. }
  assert (Hall :
    forall l1 l2 : list path,
      Permutation l1 l2 ->
      match mapM (fun p => relative_to p (SOURCE_ROOT env)) l2 with
      | Ok r2 => exists r1, mapM (fun p => relative_to p (SOURCE_ROOT env)) l1 = Ok r1
                            /\ Permutation r1 r2
      | Raise e =>
          mapM (fun p => relative_to p (SOURCE_ROOT env)) l1
          = Raise (ValueError "path is not in the subpath of base")
          /\ e = ValueError "path is not in the subpath of base"
      end).
  { assert (Herr : forall p base e, relative_to p base = Raise e ->
                     e = ValueError "path is not in the subpath of base").
    { intros p base. revert p. induction base as [|b base IH]; intros [|x p] e; simpl;
        try discriminate; try (intros H; now inv H).
      destruct (b =? x)%string; [apply IH|intros H; now inv H]. }
    assert (Hone : forall l0, match mapM (fun p => relative_to p (SOURCE_ROOT env)) l0 with
                   | Ok r => Forall2 (fun p q => relative_to p (SOURCE_ROOT env) = Ok q) l0 r
                   | Raise e => e = ValueError "path is not in the subpath of base"
                                /\ exists p e', In p l0
                                     /\ relative_to p (SOURCE_ROOT env) = Raise e'
                   end).
    { induction l0 as [|x l0 IH]; simpl; [constructor|].
      destruct (relative_to x (SOURCE_ROOT env)) as [y|e] eqn:Ex.
      - destruct (mapM (fun p => relative_to p (SOURCE_ROOT env)) l0) as [r|e].
        + now constructor.
        + destruct IH as [-> (p & e' & Hin & Hr)]. split; [reflexivity|].
          exists p, e'. split; [now right|exact Hr].
      - split; [eapply Herr; eauto|]. exists x, e. split; [now left|exact Ex]. }
    assert (Hok : forall l0, (forall p, In p l0 -> exists q, relative_to p (SOURCE_ROOT env) = Ok q) ->
                   mapM (fun p => relative_to p (SOURCE_ROOT env)) l0
                   = Ok (map (skipn (List.length (SOURCE_ROOT env))) l0)).
    { induction l0 as [|x l0 IH]; intros H; simpl; [reflexivity|].
      destruct (H x (or_introl eq_refl)) as [q Hq]. rewrite Hq.
      rewrite IH by (intros p Hin; apply H; now right). f_equal. f_equal.
      apply relative_to_app in Hq. rewrite Hq. now rewrite skipn_app_exact. }
    intros l1 l2 H12. pose proof (Hone l2) as H2. pose proof (Hone l1) as H1.
    destruct (mapM (fun p => relative_to p (SOURCE_ROOT env)) l2) as [r2|e2] eqn:E2.
    - assert (Hex : forall p, In p l1 -> exists q, relative_to p (SOURCE_ROOT env) = Ok q).
      { intros p Hin.
        assert (Hin2 : In p l2) by (eapply Permutation_in; eauto).
        clear - H2 Hin2. induction H2; [contradiction|].
        destruct Hin2 as [<-|Hin2]; eauto. }
      exists (map (skipn (List.length (SOURCE_ROOT env))) l1). split; [now apply Hok|].
      assert (Hex2 : forall p, In p l2 -> exists q, relative_to p (SOURCE_ROOT env) = Ok q).
      { intros p Hin. apply Hex. eapply Permutation_in; [apply Permutation_sym|]; eauto. }
      rewrite (Hok l2 Hex2) in E2. inv E2. now apply Permutation_map.
    - destruct H2 as [-> (p & e' & Hin & Hr)]. split; [|reflexivity].
      destruct (mapM (fun p => relative_to p (SOURCE_ROOT env)) l1) as [r1|e1] eqn:E1.
      + exfalso. assert (Hin1 : In p l1)
          by (eapply Permutation_in; [apply Permutation_sym|]; eauto).
        clear - H1 Hin1 Hr. induction H1; [contradiction|].
        destruct Hin1 as [<-|Hin1]; [congruence|auto].
      + destruct H1 as [-> _]. reflexivity. }
  specialize (Hall _ _ (Permutation_app_tail [joinpath (SOURCE_ROOT env) [".dockerignore"]] Hperm)).
  match goal with
  | |- match ?a with _ => _ end = match ?b with _ => _ end =>
      destruct b as [r2|e2]
  end.
  - destruct Hall as (r1 & -> & Hr). f_equal. now apply sorted_paths_permutation.
  - destruct Hall as [-> ->]. reflexivity.
Qed.

End TrackedFiles.

(** C7: the tracked files of a step are files of the source tree
    (directories are left out), given by their paths relative to the source
    root; the ignore file [.dockerignore] is always among them; they are
    sorted in the order of paths (lexicographic on the parts of a path); and
    the result is the same whatever the order in which the file system lists
    its entries. *)
Theorem tracked_file_paths_files_sorted :
  forall env fs s l,
    NoDup (map fst fs) ->
    tracked_file_paths env fs s = Ok l ->
    (forall p, In p l ->
               exists content, lookup fs (SOURCE_ROOT env ++ p) = Some (File content))
    /\ In [".dockerignore"] l
    /\ Sorted path_le l
    /\ forall fs', Permutation fs fs' -> tracked_file_paths env fs' s = Ok l.
Proof.
  intros env fs s l Hnd Hl.
  destruct (tracked_file_paths_ok env fs s l Hl)
    as (found & content & excluded & Ef & Er & Ee & ->).
  split; [|split; [|split]].
  - intros p Hp.
    apply (Permutation_in _ (Permutation_sym (sorted_paths_perm _))) in Hp.
    apply in_map_iff in Hp. destruct Hp as (q & <- & Hq).
    assert (Hpre : is_prefix (SOURCE_ROOT env) q = true /\
                   exists c, lookup fs q = Some (File c)).
    { apply in_app_iff in Hq. destruct Hq as [Hq|[<-|[]]].
      - apply filter_In in Hq. destruct Hq as [Hq Hd].
        apply filter_In in Hq. destruct Hq as [Hq _].
        destruct (resolve_globs_members _ _ _ _ _ Ef q Hq) as [[]|[Hk Hpre]].
        split; [exact Hpre|].
        destruct (lookup_key _ _ Hk) as [n Hn]. unfold is_dir in Hd. rewrite Hn in Hd.
        destruct n as [c|]; [eauto|discriminate].
      - split; [apply is_prefix_app|].
        unfold read_text, read_bytes in Er.
        destruct (lookup fs (SOURCE_ROOT env ++ [".dockerignore"])) as [[c|]|];
          try discriminate. eauto. }
    destruct Hpre as [Hpre Hc].
    pose proof (relative_to_app _ _ _ (relative_to_prefix _ _ Hpre)) as E.
    now rewrite <- E.
  - apply (Permutation_in _ (sorted_paths_perm _)).
    apply in_map_iff. exists (SOURCE_ROOT env ++ [".dockerignore"]).
    split; [apply skipn_app_exact|]. apply in_app_iff. right. now left.
  - apply sorted_paths_sorted.
  - intros fs' Hp. rewrite (tracked_file_paths_permutation env fs fs' s Hnd Hp). exact Hl.
Qed.

Lemma example_tree_NoDup : NoDup (map fst example_tree).
Proof.
  unfold example_tree, example_tree_with. simpl map.
  repeat constructor; simpl; intuition discriminate.
Qed.

Lemma tracked_file_paths_files_sorted_witness :
  (forall p, In p [[".dockerignore"]; ["steps"; "a.sh"]; ["y"]] ->
             exists content, lookup example_tree (["/"; "src"] ++ p) = Some (File content))
  /\ In [".dockerignore"] [[".dockerignore"]; ["steps"; "a.sh"]; ["y"]]
  /\ Sorted path_le [[".dockerignore"]; ["steps"; "a.sh"]; ["y"]]
  /\ forall fs', Permutation example_tree fs' ->
                 tracked_file_paths (example_env all_succeed) fs' step_T
                 = Ok [[".dockerignore"]; ["steps"; "a.sh"]; ["y"]].
Proof.
  apply (tracked_file_paths_files_sorted (example_env all_succeed) example_tree step_T).
  - exact example_tree_NoDup.
  - vm_compute. reflexivity.
Defined.

(* ------------------------------------------------------------------ *)
(** ** Computations on the build root *)

Lemma mbind_inv :
  forall {A B : Type} (m : M A) (k : A -> M B) w r w',
    mbind m k w = (r, w') ->
    (exists a w1, m w = (Ok a, w1) /\ k a w1 = (r, w'))
    \/ (exists e, m w = (Raise e, w') /\ r = Raise e).
Proof.
  intros A B m k w r w'. unfold mbind.
  destruct (m w) as [[a|e] w1]; intros H.
  - left. eauto.
  - right. inv H. eauto.
Qed.

Lemma mbind_ok :
  forall {A B : Type} (m : M A) (k : A -> M B) w a w1,
    m w = (Ok a, w1) -> mbind m k w = k a w1.
Proof. intros. unfold mbind. now rewrite H. Qed.

Lemma mbind_raise :
  forall {A B : Type} (m : M A) (k : A -> M B) w e w1,
    m w = (Raise e, w1) -> mbind m k w = (Raise e, w1).
Proof. intros. unfold mbind. now rewrite H. Qed.

Lemma has_dir_In :
  forall {B : Type} (dirs : list (string * B)) d,
    has_dir dirs d = true <-> In d (map fst dirs).
Proof.
  intros B dirs d. unfold has_dir. rewrite existsb_exists, in_map_iff. split.
  - intros (e & He & E). apply String.eqb_eq in E. eauto.
  - intros (e & E & He). exists e. split; [exact He|now apply String.eqb_eq].
Qed.

Lemma has_dir_names :
  forall w w', dir_names w' = dir_names w ->
               forall d, has_dir (step_outputs w') d = has_dir (step_outputs w) d.
Proof.
  intros w w' H d. apply eq_true_iff_eq. rewrite !has_dir_In.
  unfold dir_names in H. now rewrite H.
Qed.

Lemma add_file_names :
  forall d file dirs, map fst (add_file d file dirs) = map fst dirs.
Proof.
  intros d file dirs. unfold add_file. rewrite map_map. apply map_ext.
  intros [n fl]. simpl. now destruct (n =? d)%string.
Qed.

Section Keeps.

Variable env : Env.

Lemma keeps_ret : forall {A : Type} (a : A), keeps_dirs (ret a).
Proof. intros A a w r w' H. inv H. auto. Qed.

Lemma keeps_throw : forall {A : Type} e, keeps_dirs (@throw A e).
Proof. intros A e w r w' H. inv H. auto. Qed.

Lemma keeps_lift : forall {A : Type} (x : res A), keeps_dirs (lift x).
Proof. intros A x w r w' H. inv H. auto. Qed.

Lemma keeps_bind :
  forall {A B : Type} (m : M A) (k : A -> M B),
    keeps_dirs m -> (forall a, keeps_dirs (k a)) -> keeps_dirs (mbind m k).
Proof.
  intros A B m k Hm Hk w r w' H.
  destruct (mbind_inv _ _ _ _ _ H) as [(a & w1 & H1 & H2)|(e & H1 & _)].
  - destruct (Hm _ _ _ H1) as [E1 E2]. destruct (Hk a _ _ _ H2) as [E3 E4].
    split; congruence.
  - exact (Hm _ _ _ H1).
Qed.

Lemma keeps_try_finally :
  forall {A : Type} (body : M A) (cleanup : M unit),
    keeps_dirs body -> keeps_dirs cleanup -> keeps_dirs (try_finally body cleanup).
Proof.
  intros A body cleanup Hb Hc w r w' H. unfold try_finally in H.
  destruct (body w) as [rb w1] eqn:E1. destruct (cleanup w1) as [[u|e] w2] eqn:E2; inv H;
    destruct (Hb _ _ _ E1), (Hc _ _ _ E2); split; congruence.
Qed.

Lemma keeps_emit : forall e, keeps_dirs (emit e).
Proof. intros e w r w' H. inv H. auto. Qed.

Lemma keeps_check_process : forall e, keeps_dirs (check_process env e).
Proof.
  intros e w r w' H. unfold check_process in H.
  destruct (process env (trace w) e) as [ok out]. simpl in H.
  destruct ok; inv H; auto.
Qed.

Lemma keeps_run_command : forall argv, keeps_dirs (run_command env argv).
Proof.
  intros argv. apply keeps_bind; [apply keeps_check_process|intros; apply keeps_ret].
Qed.

Lemma keeps_check_call_with_log :
  forall argv vars dir, keeps_dirs (check_call_with_log env argv vars dir).
Proof.
  intros. apply keeps_bind; [apply keeps_check_process|intros; apply keeps_ret].
Qed.

Lemma keeps_check_output_with_log :
  forall argv, keeps_dirs (check_output_with_log env argv).
Proof. intros. apply keeps_check_process. Qed.

Lemma keeps_set_source_roots : forall f, keeps_dirs (set_source_roots f).
Proof. intros f w r w' H. inv H. auto. Qed.

Lemma keeps_add_file :
  forall d file, keeps_dirs (set_step_outputs (add_file d file)).
Proof.
  intros d file w r w' H. inv H. unfold dir_names. simpl.
  now rewrite add_file_names.
Qed.

Lemma keeps_load_image : forall spec, keeps_dirs (load_image env spec).
Proof.
  intros spec. apply keeps_bind; [apply keeps_check_output_with_log|].
  intros out. destruct (negb (strip_is_empty out));
    [apply keeps_ret|apply keeps_run_command].
Qed.

Lemma keeps_save_image : forall spec d file, keeps_dirs (save_image env spec d file).
Proof.
  intros spec d file w r w' H. unfold save_image in H.
  destruct (has_dir (step_outputs w) d).
  - revert H. apply keeps_bind;
      [apply keeps_add_file|intros; apply keeps_check_call_with_log].
  - inv H. auto.
Qed.

Lemma keeps_read_dirs :
  forall {A : Type} (f : world -> A), keeps_dirs (fun w => (Ok (f w), w)).
Proof. intros A f w r w' H. inv H. auto. Qed.

Lemma keeps__check_for_cached_result :
  forall fs s, keeps_dirs (_check_for_cached_result env fs s).
Proof.
  intros fs s. unfold _check_for_cached_result.
  apply keeps_bind; [apply keeps_lift|intros i].
  apply keeps_bind; [apply keeps_read_dirs|intros b].
  destruct (is_script s); [|apply keeps_ret].
  apply keeps_bind; [|intros; apply keeps_ret].
  destruct (b && runs_in_docker s && negb (is_dependency_step s)); [|apply keeps_ret].
  apply keeps_bind; [apply keeps_lift|intros [spec|]];
    [apply keeps_load_image|apply keeps_ret].
Qed.

Lemma keeps__prepare_working_source_root :
  forall fs br s, keeps_dirs (_prepare_working_source_root env fs br s).
Proof.
  intros fs br s. unfold _prepare_working_source_root.
  apply keeps_bind; [apply keeps_lift|intros i].
  apply keeps_bind; [apply keeps_read_dirs|intros b].
  apply keeps_bind.
  { destruct b; [|apply keeps_ret].
    apply keeps_bind; [apply keeps_check_process|intros; apply keeps_set_source_roots]. }
  intros _. apply keeps_bind; [apply keeps_set_source_roots|intros _].
  apply keeps_bind; [apply keeps_lift|intros; apply keeps_set_source_roots].
Qed.

Lemma keeps__run_locally : forall fs br s, keeps_dirs (_run_locally env fs br s).
Proof.
  intros fs br s. unfold _run_locally.
  apply keeps_bind; [apply keeps_lift|intros args].
  apply keeps_bind; [apply keeps_lift|intros i].
  apply keeps_check_call_with_log.
Qed.

Lemma keeps__save_step_docker_container_as_image_if_needed :
  forall fs s, keeps_dirs (_save_step_docker_container_as_image_if_needed env fs s).
Proof.
  intros fs s. unfold _save_step_docker_container_as_image_if_needed.
  destruct (is_dependency_step s); [apply keeps_ret|].
  apply keeps_bind; [apply keeps_lift|intros [spec|]]; [|apply keeps_throw].
  apply keeps_bind; [apply keeps_run_command|intros _].
  apply keeps_bind; [apply keeps_lift|intros i]. apply keeps_save_image.
Qed.

Lemma keeps__run_in_docker : forall fs br s, keeps_dirs (_run_in_docker env fs br s).
Proof.
  intros fs br s. unfold _run_in_docker.
  apply keeps_bind; [apply keeps_lift|intros args].
  apply keeps_bind; [apply keeps_run_command|intros _].
  apply keeps_bind; [apply keeps_lift|intros i].
  apply keeps_bind; [apply keeps_lift|intros image].
  apply keeps_bind; [apply keeps_lift|intros dep_ids].
  apply keeps_try_finally; [|apply keeps_run_command].
  destruct image as [spec|]; [|apply keeps_throw].
  apply keeps_bind; [apply keeps_check_call_with_log|intros _].
  apply keeps__save_step_docker_container_as_image_if_needed.
Qed.

Lemma keeps_run_step_command : forall fs br s, keeps_dirs (run_step_command env fs br s).
Proof.
  intros fs br s. unfold run_step_command.
  destruct (runs_in_docker s && negb (IN_DOCKER env)); [apply keeps__run_in_docker|].
  apply keeps_bind; [apply keeps_emit|intros; apply keeps__run_locally].
Qed.

Lemma keeps__run : forall fs br s, keeps_dirs (_run env fs br s).
Proof.
  intros fs br s. unfold _run. destruct (is_script s); [|apply keeps_ret].
  apply keeps_bind; [apply keeps__prepare_working_source_root|intros _].
  intros w r w' H.
  destruct (run_step_command env fs br s w) as [[[]|e] w1] eqn:E.
  - inv H. exact (keeps_run_step_command _ _ _ _ _ _ E).
  - destruct (keeps_run_step_command _ _ _ _ _ _ E) as [E1 E2].
    assert (K : keeps_dirs (emit (LogError (tracked_files_hint env s)) ;;;
                            i <-- lift (id env fs s) ;;
                            @throw unit (DeploymentStepError (step_failed_message i)))).
    { apply keeps_bind; [apply keeps_emit|intros _].
      apply keeps_bind; [apply keeps_lift|intros; apply keeps_throw]. }
    destruct (K _ _ _ H). split; congruence.
Qed.

End Keeps.

(* ------------------------------------------------------------------ *)
(** ** [run], unfolded once *)

Lemma run_eq :
  forall env fs br s w,
    run env fs br s w
    = (cached <-- _check_for_cached_result env fs s ;;
       if cached then
         i <-- lift (id env fs s) ;;
         emit (LogInfo ("The cache of the deployment step " ++ i
                        ++ " is found, reuse it and skip it."))
       else
         run_upstream env fs br s ;;;
         open_temp_output env fs s ;;;
         call_run env fs br s ;;;
         commit_output env fs s) w.
Proof. intros env fs br [sc tn nm globs nocache sp isdep base deps st ca] w. reflexivity. Qed.

Lemma _check_for_cached_result_spec :
  forall env fs s w b w1,
    _check_for_cached_result env fs s w = (Ok b, w1) ->
    exists i, id env fs s = Ok i /\ b = has_dir (step_outputs w) i.
Proof.
  intros env fs s w b w1 H.
  pose proof (keeps__check_for_cached_result env fs s _ _ _ H) as [Hn _].
  unfold _check_for_cached_result in H.
  apply mbind_inv in H. destruct H as [(i & w0 & Hi & H)|(e & _ & ?)]; [|discriminate].
  unfold lift in Hi. inv Hi. exists i. split; [congruence|].
  apply mbind_inv in H. destruct H as [(x & w2 & Hx & H)|(e & _ & ?)]; [|discriminate].
  inv Hx. destruct (is_script s).
  - apply mbind_inv in H. destruct H as [(u & w3 & _ & H)|(e & _ & ?)]; [|discriminate].
    now inv H.
  - now inv H.
Qed.

(* ------------------------------------------------------------------ *)
(** ** The command line of a step *)

Lemma last_app_nonempty :
  forall {A : Type} (l r : list A) d, r <> [] -> last (l ++ r) d = last r d.
Proof.
  intros A l r d Hr. induction l as [|x l IH]; [reflexivity|].
  simpl. destruct (l ++ r) eqn:E; [|exact IH].
  apply app_eq_nil in E. destruct E. contradiction.
Qed.

Lemma suffix_relative_to :
  forall p base rel,
    relative_to p base = Ok rel -> suffix rel = suffix p \/ suffix rel = EmptyString.
Proof.
  intros p base rel H. apply relative_to_app in H. subst p.
  destruct rel as [|x rel]; [now right|left].
  unfold suffix, path_name. rewrite last_app_nonempty by discriminate. reflexivity.
Qed.

Lemma _get_command_line_args_unknown_suffix :
  forall env fs br s,
    known_suffix (suffix (_script_path s)) = false ->
    exists e, _get_command_line_args env fs br s = Raise e.
Proof.
  intros env fs br s Hs. unfold _get_command_line_args.
  match goal with |- context [mapM ?f ?l] => destruct (mapM f l) as [outs|e] end; [|eauto].
  destruct (relative_to (_script_path s) (SOURCE_ROOT env)) as [rel|e] eqn:Er; [|eauto].
  assert (Hk : known_suffix (suffix rel) = false).
  { destruct (suffix_relative_to _ _ _ Er) as [->| ->]; [exact Hs|reflexivity]. }
  unfold known_suffix in Hk. apply orb_false_iff in Hk. destruct Hk as [Hk H3].
  apply orb_false_iff in Hk. destruct Hk as [H1 H2]. rewrite H1, H2, H3. eauto.
Qed.

Lemma _get_command_line_args_unbound :
  forall env fs br s rel,
    known_suffix (suffix (_script_path s)) = false ->
    relative_to (_script_path s) (SOURCE_ROOT env) = Ok rel ->
    Forall (fun d => exists j, id env fs d = Ok j) (_dependency_steps s) ->
    _get_command_line_args env fs br s = Raise (UnboundLocalError "full_command_args").
Proof.
  intros env fs br s rel Hs Er Hd. unfold _get_command_line_args.
  match goal with
  | |- context [mapM ?f ?l] =>
      assert (Hm : exists outs, mapM f l = Ok outs)
  end.
  { apply mapM_all_ok. eapply Forall_impl; [|exact Hd].
    intros d (j & ->). destruct (runs_in_docker s); eauto. }
  destruct Hm as (outs & ->). rewrite Er.
  assert (Hk : known_suffix (suffix rel) = false).
  { destruct (suffix_relative_to _ _ _ Er) as [->| ->]; [exact Hs|reflexivity]. }
  unfold known_suffix in Hk. apply orb_false_iff in Hk. destruct Hk as [Hk H3].
  apply orb_false_iff in Hk. destruct Hk as [H1 H2]. now rewrite H1, H2, H3.
Qed.

Lemma processes_app :
  forall t1 t2, processes (t1 ++ t2) = processes t1 ++ processes t2.
Proof. intros. apply filter_app. Qed.

Lemma run_step_command_unknown_suffix :
  forall env fs br s w,
    known_suffix (suffix (_script_path s)) = false ->
    exists e w', run_step_command env fs br s w = (Raise e, w')
                 /\ processes (trace w') = processes (trace w).
Proof.
  intros env fs br s w Hs.
  destruct (_get_command_line_args_unknown_suffix env fs br s Hs) as [e He].
  unfold run_step_command.
  destruct (runs_in_docker s && negb (IN_DOCKER env)).
  - exists e, w. unfold _run_in_docker, mbind, lift. rewrite He. auto.
  - exists e. eexists. unfold _run_locally, mbind, lift, emit. rewrite He. simpl.
    split; [reflexivity|]. simpl. rewrite processes_app. simpl. apply app_nil_r.
Qed.

Lemma _run_unknown_suffix :
  forall env fs br s w,
    is_script s = true ->
    known_suffix (suffix (_script_path s)) = false ->
    exists e w', _run env fs br s w = (Raise e, w').
Proof.
  intros env fs br s w Hsc Hs. unfold _run. rewrite Hsc. unfold mbind at 1.
  destruct (_prepare_working_source_root env fs br s w) as [[[]|e] w1]; [|eauto].
  destruct (run_step_command_unknown_suffix env fs br s w1 Hs) as (e & w2 & -> & _).
  unfold mbind, emit, lift, throw.
  destruct (id env fs s); eauto.
Qed.

(** C10: [_get_command_line_args] gives a command line only for a script
    whose suffix is [.ps1], [.sh] or [.py].  For a step with a script of any
    other suffix it raises, and the error is the unassigned
    [full_command_args] when the script lies below the source root and the
    ids of the dependency steps are computed; the step's command raises
    before any process is started, so [_run] always raises and [run] returns
    normally only on a cache hit. *)
Theorem command_line_needs_known_suffix :
  forall env fs br s,
    is_script s = true ->
    known_suffix (suffix (_script_path s)) = false ->
    (exists e, _get_command_line_args env fs br s = Raise e)
    /\ (forall rel,
          relative_to (_script_path s) (SOURCE_ROOT env) = Ok rel ->
          Forall (fun d => exists j, id env fs d = Ok j) (_dependency_steps s) ->
          _get_command_line_args env fs br s
          = Raise (UnboundLocalError "full_command_args"))
    /\ (forall w, exists e w',
          run_step_command env fs br s w = (Raise e, w')
          /\ processes (trace w') = processes (trace w))
    /\ (forall w, exists e w', _run env fs br s w = (Raise e, w'))
    /\ (forall w w',
          run env fs br s w = (Ok tt, w') ->
          exists i, id env fs s = Ok i /\ has_dir (step_outputs w) i = true).
Proof.
  intros env fs br s Hsc Hs. split; [|split; [|split; [|split]]].
  - now apply _get_command_line_args_unknown_suffix.
  - intros rel Er Hd. now apply (_get_command_line_args_unbound env fs br s rel).
  - intros w. now apply run_step_command_unknown_suffix.
  - intros w. now apply _run_unknown_suffix.
  - intros w w' H. rewrite run_eq in H.
    apply mbind_inv in H. destruct H as [(b & w1 & Hc & H)|(e & _ & ?)]; [|discriminate].
    destruct (_check_for_cached_result_spec _ _ _ _ _ _ Hc) as (i & Hi & Hb).
    exists i. split; [exact Hi|]. destruct b; [now symmetry|]. exfalso.
    apply mbind_inv in H. destruct H as [(u1 & w2 & _ & H)|(e & _ & ?)]; [|discriminate].
    apply mbind_inv in H. destruct H as [(u2 & w3 & _ & H)|(e & _ & ?)]; [|discriminate].
    apply mbind_inv in H. destruct H as [(u3 & w4 & Hr & _)|(e & _ & ?)]; [|discriminate].
    unfold call_run in Hr.
    apply mbind_inv in Hr. destruct Hr as [(j & w5 & _ & Hr)|(e & _ & ?)]; [|discriminate].
    apply mbind_inv in Hr. destruct Hr as [(u4 & w6 & _ & Hr)|(e & _ & ?)]; [|discriminate].
    destruct (_run_unknown_suffix env fs br s w6 Hsc Hs) as (e & w7 & He). congruence.
Qed.

Lemma command_line_needs_known_suffix_witness :
  (exists e, _get_command_line_args (example_env all_succeed) example_tree
               build_root_example step_E = Raise e)
  /\ (forall rel,
        relative_to (_script_path step_E) ["/"; "src"] = Ok rel ->
        Forall (fun d => exists j, id (example_env all_succeed) example_tree d = Ok j)
               (_dependency_steps step_E) ->
        _get_command_line_args (example_env all_succeed) example_tree
          build_root_example step_E
        = Raise (UnboundLocalError "full_command_args"))
  /\ (forall w, exists e w',
        run_step_command (example_env all_succeed) example_tree
          build_root_example step_E w = (Raise e, w')
        /\ processes (trace w') = processes (trace w))
  /\ (forall w, exists e w',
        _run (example_env all_succeed) example_tree build_root_example step_E w
        = (Raise e, w'))
  /\ (forall w w',
        run (example_env all_succeed) example_tree build_root_example step_E w
        = (Ok tt, w') ->
        exists i, id (example_env all_succeed) example_tree step_E = Ok i
                  /\ has_dir (step_outputs w) i = true).
Proof.
  apply (command_line_needs_known_suffix (example_env all_succeed) example_tree
           build_root_example step_E); reflexivity.
Defined.

(* ------------------------------------------------------------------ *)
(** ** A cache hit of a containerized step *)

Lemma _check_for_cached_result_hit_in_docker :
  forall env fs s i arch w,
    is_script s = true ->
    base_image_architecture s = Some arch ->
    is_dependency_step s = false ->
    id env fs s = Ok i ->
    has_dir (step_outputs w) i = true ->
    _check_for_cached_result env fs s w
    = (load_image env {| image_name := i; architecture := arch |} ;;; ret true) w.
Proof.
  intros env fs s i arch w Hsc Ha Hd Hi Hh.
  unfold _check_for_cached_result, result_image, runs_in_docker.
  rewrite Hsc, Ha, Hd, Hi. unfold mbind at 1, lift at 1.
  unfold mbind at 1. rewrite Hh. simpl andb. cbv iota.
  unfold mbind at 2, lift. reflexivity.
Qed.

(** What [load_image] runs when the image is not present locally. *)
Lemma load_image_absent :
  forall env spec w,
    strip_is_empty
      (snd (process env (trace w) (Call ["docker"; "images"; "-q"; image_name spec] [] None)))
    = true ->
    fst (process env (trace w) (Call ["docker"; "images"; "-q"; image_name spec] [] None))
    = true ->
    exists r w',
      load_image env spec w = (r, w')
      /\ trace w' = trace w ++ [Call ["docker"; "images"; "-q"; image_name spec] [] None;
                                Call ["docker"; "load"; "-i"; image_name spec] [] None].
Proof.
  intros env spec w Hout Hok.
  unfold load_image, check_output_with_log, run_command, mbind, check_process, emit.
  destruct (process env (trace w) (Call ["docker"; "images"; "-q"; image_name spec] [] None))
    as [ok out]. simpl in Hout, Hok. subst ok. rewrite Hout. simpl.
  match goal with
  | |- context [process env ?t ?e] => destruct (process env t e) as [ok2 out2]
  end.
  destruct ok2; simpl; do 2 eexists; (split; [reflexivity|]); simpl;
    now rewrite <- app_assoc.
Qed.

(** C5, on the code: step [I] runs in a container and saves its image into
    its output directory.  Run again, it is a cache hit: no container is
    run, the presence of the image named by the id is asked for, and the
    image is then loaded with [docker load -i <id>], the id standing where
    the tar file is expected; the saved tar file is not named. *)
Lemma cache_hit_loads_image_name :
  exists i w r w',
    id (example_env all_succeed) example_tree step_I = Ok i
    /\ run (example_env all_succeed) example_tree build_root_example step_I empty_world
       = (Ok tt, w)
    /\ step_outputs w = [(i, ["step_info.txt"; (i ++ ".tar")%string])]
    /\ run (example_env all_succeed) example_tree build_root_example step_I w = (r, w')
    /\ run_calls w' = run_calls w
    /\ trace w'
       = trace w
         ++ [Call ["docker"; "images"; "-q"; i] [] None;
             Call ["docker"; "load"; "-i"; i] [] None;
             LogInfo ("The cache of the deployment step " ++ i
                      ++ " is found, reuse it and skip it.")]
    /\ str_path (saved_image_path (example_env all_succeed) build_root_example i)
       = ("/work/build/step_outputs/" ++ i ++ "/" ++ i ++ ".tar")%string
    /\ i <> str_path (saved_image_path (example_env all_succeed) build_root_example i).
Proof.
  do 4 eexists.
  split; [vm_compute; reflexivity|].
  split; [vm_compute; reflexivity|].
  split; [reflexivity|].
  split; [vm_compute; reflexivity|].
  split; [reflexivity|].
  split; [reflexivity|].
  split; [vm_compute; reflexivity|].
  vm_compute. discriminate.
Qed.

(* ------------------------------------------------------------------ *)
(** ** The error of a failed step *)

(** C6, as amended: when the command of a step fails, on the host or in a
    container, [_run] writes to the error log the name of the step's class
    and the step's tracked-file globs (the patterns, not the files that they
    resolve to), and raises a [DeploymentStepError] whose message names the
    id of the step and nothing else. *)
Theorem _run_error_names_step :
  forall env fs br s w w1 e1 w2,
    is_script s = true ->
    _prepare_working_source_root env fs br s w = (Ok tt, w1) ->
    run_step_command env fs br s w1 = (Raise e1, w2) ->
    exists i w3,
      id env fs s = Ok i
      /\ _run env fs br s w
         = (Raise (DeploymentStepError
                     ("Step has failed. Step name: '" ++ i ++ "'.")), w3)
      /\ trace w3
         = trace w2
           ++ [LogError
                 ("'" ++ type_name s ++ "' has failed. "
                  ++ "HINT: Make sure that you have specified all files. "
                  ++ "For now, tracked files are: "
                  ++ repr_list env (map str_path (_tracked_file_globs s)))]
      /\ step_outputs w3 = step_outputs w2.
Proof.
  intros env fs br s w w1 e1 w2 Hsc Hp Hc.
  assert (Hi : exists i, id env fs s = Ok i).
  { unfold _prepare_working_source_root, mbind at 1, lift at 1 in Hp.
    destruct (id env fs s) as [i|e]; [eauto|discriminate]. }
  destruct Hi as [i Hi]. exists i. eexists. split; [exact Hi|].
  unfold _run. rewrite Hsc. unfold mbind at 1. rewrite Hp, Hc.
  unfold mbind, emit, lift, throw. rewrite Hi. simpl.
  split; [reflexivity|]. split; reflexivity.
Qed.

Lemma _run_error_names_step_witness :
  exists i w3,
    id (example_env (fails_on "steps/b.sh")) example_tree step_B = Ok i
    /\ _run (example_env (fails_on "steps/b.sh")) example_tree build_root_example
         step_B empty_world
       = (Raise (DeploymentStepError
                   ("Step has failed. Step name: '" ++ i ++ "'.")), w3)
    /\ trace w3
       = trace (snd (run_step_command (example_env (fails_on "steps/b.sh")) example_tree
                       build_root_example step_B
                       (snd (_prepare_working_source_root
                               (example_env (fails_on "steps/b.sh")) example_tree
                               build_root_example step_B empty_world))))
         ++ [LogError
               ("'" ++ type_name step_B ++ "' has failed. "
                ++ "HINT: Make sure that you have specified all files. "
                ++ "For now, tracked files are: "
                ++ repr_plain (map str_path (_tracked_file_globs step_B)))]
    /\ step_outputs w3
       = step_outputs
           (snd (run_step_command (example_env (fails_on "steps/b.sh")) example_tree
                   build_root_example step_B
                   (snd (_prepare_working_source_root
                           (example_env (fails_on "steps/b.sh")) example_tree
                           build_root_example step_B empty_world)))).
Proof.
  eapply (_run_error_names_step (example_env (fails_on "steps/b.sh")) example_tree
            build_root_example step_B empty_world).
  - reflexivity.
  - vm_compute. reflexivity.
  - vm_compute. reflexivity.
Defined.

(** C6, as stated, fails on step [B] when its script fails: the error that
    [run] raises names the id of the step, and none of the step's tracked
    files. *)
Lemma step_error_lacks_tracked_files :
  exists e w i files,
    run (example_env (fails_on "steps/b.sh")) example_tree build_root_example
      step_B empty_world = (Raise e, w)
    /\ id (example_env (fails_on "steps/b.sh")) example_tree step_B = Ok i
    /\ tracked_file_paths (example_env (fails_on "steps/b.sh")) example_tree step_B
       = Ok files
    /\ ~ error_names_step_and_files e i files.
Proof.
  do 4 eexists.
  split; [vm_compute; reflexivity|].
  split; [vm_compute; reflexivity|].
  split; [vm_compute; reflexivity|].
  intros [_ H]. specialize (H [".dockerignore"] (or_introl eq_refl)).
  vm_compute in H. discriminate H.
Qed.

(* ------------------------------------------------------------------ *)
(** ** The steps that a step is built on *)

Lemma base_step_match :
  forall {A : Type} s (f : BuildStep -> A) (x : A),
    match base_step s with
    | Some (inr b) => f b
    | _ => x
    end
    = match _base_step s with
      | Some b => f b
      | None => x
      end.
Proof. intros A s f x. unfold _base_step. now destruct (base_step s) as [[spec|b]|]. Qed.

Lemma upstream_steps_eq :
  forall s,
    upstream_steps s
    = flat_map all_steps (_dependency_steps s)
      ++ match _base_step s with
         | Some b => all_steps b
         | None => []
         end.
Proof.
  intros [sc tn nm globs nocache sp isdep base deps st ca]. unfold _base_step. simpl.
  destruct base as [[spec|b]|]; reflexivity.
Qed.

Lemma In_upstream_steps :
  forall s u,
    In u (upstream_steps s)
    <-> (exists d, In d (_dependency_steps s) /\ In u (all_steps d))
        \/ (exists b, _base_step s = Some b /\ In u (all_steps b)).
Proof.
  intros s u. rewrite upstream_steps_eq, in_app_iff, in_flat_map.
  destruct (_base_step s) as [b|]; split.
  - intros [H|H]; [now left|right; eauto].
  - intros [H|(b' & E & H)]; [now left|right; now inv E].
  - intros [H|[]]. now left.
  - intros [H|(b' & E & _)]; [now left|discriminate].
Qed.

Lemma step_size_eq :
  forall s,
    step_size s
    = S (list_sum (map step_size (_dependency_steps s))
         + match _base_step s with
           | Some b => step_size b
           | None => 0
           end).
Proof.
  intros [sc tn nm globs nocache sp isdep base deps st ca]. unfold _base_step. simpl.
  destruct base as [[spec|b]|]; reflexivity.
Qed.

Lemma list_sum_In : forall l n, In n l -> n <= list_sum l.
Proof.
  induction l as [|x l IH]; intros n; simpl; [contradiction|].
  intros [->|H]; [lia|]. specialize (IH n H). lia.
Qed.

(** A step is built on smaller steps, so not on itself. *)
Lemma upstream_steps_smaller :
  forall s u, In u (upstream_steps s) -> step_size u < step_size s.
Proof.
  induction s as [s IHd IHb] using BuildStep_induction. intros u Hu.
  rewrite (step_size_eq s).
  apply In_upstream_steps in Hu. destruct Hu as [(d & Hd & Hu)|(b & Hb & Hu)].
  - assert (Hle : step_size d <= list_sum (map step_size (_dependency_steps s)))
      by (apply list_sum_In, in_map, Hd).
    unfold all_steps in Hu. apply in_app_iff in Hu. destruct Hu as [Hu|[<-|[]]]; [|lia].
    rewrite Forall_forall in IHd. specialize (IHd d Hd u Hu). lia.
  - rewrite Hb. unfold all_steps in Hu. apply in_app_iff in Hu.
    destruct Hu as [Hu|[<-|[]]]; [|lia].
    specialize (IHb b Hb u Hu). lia.
Qed.

Lemma not_upstream_of_itself : forall s, ~ In s (upstream_steps s).
Proof. intros s H. apply upstream_steps_smaller in H. lia. Qed.

Lemma all_steps_self : forall s, In s (all_steps s).
Proof. intros s. unfold all_steps. apply in_app_iff. right. now left. Qed.

Lemma all_steps_upstream : forall s u, In u (upstream_steps s) -> In u (all_steps s).
Proof. intros s u H. unfold all_steps. apply in_app_iff. now left. Qed.

(** The steps of a step of the graph are steps of the graph. *)
Lemma all_steps_trans :
  forall s t u, In t (all_steps s) -> In u (all_steps t) -> In u (all_steps s).
Proof.
  induction s as [s IHd IHb] using BuildStep_induction. intros t u Ht Hu.
  unfold all_steps in Ht. apply in_app_iff in Ht. destruct Ht as [Ht|[<-|[]]]; [|exact Hu].
  apply all_steps_upstream. apply In_upstream_steps.
  apply In_upstream_steps in Ht. destruct Ht as [(d & Hd & Ht)|(b & Hb & Ht)].
  - left. exists d. split; [exact Hd|]. rewrite Forall_forall in IHd. eapply IHd; eauto.
  - right. exists b. split; [exact Hb|]. eapply IHb; eauto.
Qed.

(* ------------------------------------------------------------------ *)
(** ** The directories that [run] touches *)

Lemma temp_name_neq : forall i, temp_name i <> i.
Proof.
  intros i H. apply (f_equal String.length) in H. unfold temp_name in H.
  simpl in H. lia.
Qed.

Lemma rmtree_names :
  forall {B : Type} d (dirs : list (string * B)) n,
    In n (map fst (rmtree d dirs)) <-> In n (map fst dirs) /\ n <> d.
Proof.
  intros B d dirs n. unfold rmtree. rewrite !in_map_iff. split.
  - intros (e & <- & He). apply filter_In in He. destruct He as [He Hn].
    split; [eauto|]. intros E. rewrite E, String.eqb_refl in Hn. discriminate.
  - intros [(e & <- & He) Hn]. exists e. split; [reflexivity|].
    apply filter_In. split; [exact He|].
    destruct (String.eqb_spec (fst e) d); [contradiction|reflexivity].
Qed.

Lemma open_temp_output_spec :
  forall env fs s i w r w',
    id env fs s = Ok i ->
    open_temp_output env fs s w = (r, w') ->
    run_calls w' = run_calls w
    /\ (forall d, In d (dir_names w') <-> (In d (dir_names w) /\ d <> temp_name i)
                                          \/ d = temp_name i).
Proof.
  intros env fs s i w r w' Hi H.
  unfold open_temp_output, mbind, lift, set_step_outputs in H. rewrite Hi in H.
  simpl in H. unfold overall_info_str in H.
  assert (Ho : exists info, overall_info env fs s = Ok info).
  { unfold id, overall_info_str in Hi. destruct (overall_info env fs s); [eauto|discriminate]. }
  destruct Ho as [info Ho]. rewrite Ho in H. simpl in H. inv H. simpl.
  split; [reflexivity|]. intros d. unfold dir_names. simpl.
  rewrite add_file_names, map_app, in_app_iff, rmtree_names. simpl. intuition.
Qed.

Lemma call_run_spec :
  forall env fs br s i w r w',
    id env fs s = Ok i ->
    call_run env fs br s w = (r, w') ->
    dir_names w' = dir_names w /\ run_calls w' = run_calls w ++ [i].
Proof.
  intros env fs br s i w r w' Hi H.
  unfold call_run, mbind at 1, lift in H. rewrite Hi in H.
  unfold mbind at 1, note_run_call in H.
  destruct (keeps__run env fs br s _ _ _ H) as [E1 E2]. simpl in E2.
  split; [exact E1|exact E2].
Qed.

Lemma rename_names :
  forall src dst w r w',
    rename src dst w = (r, w') ->
    run_calls w' = run_calls w
    /\ ((has_dir (step_outputs w) dst = true /\ r = Raise (OSError "Directory not empty")
         /\ w' = w)
        \/ (has_dir (step_outputs w) dst = false /\ r = Ok tt
            /\ dir_names w'
               = map (fun n => if (n =? src)%string then dst else n) (dir_names w))).
Proof.
  intros src dst w r w' H. unfold rename in H.
  destruct (has_dir (step_outputs w) dst) eqn:E.
  - inv H. auto.
  - unfold set_step_outputs in H. inv H. simpl. split; [reflexivity|]. right.
    split; [reflexivity|]. split; [reflexivity|]. unfold dir_names. simpl.
    rewrite !map_map. apply map_ext. intros [n fl]. simpl.
    now destruct (n =? src)%string.
Qed.

Lemma commit_output_spec :
  forall env fs s i w r w',
    id env fs s = Ok i ->
    commit_output env fs s w = (r, w') ->
    run_calls w' = run_calls w
    /\ ((has_dir (step_outputs w) i = true /\ (exists e, r = Raise e)
         /\ dir_names w' = dir_names w)
        \/ (has_dir (step_outputs w) i = false /\ r = Ok tt
            /\ dir_names w'
               = map (fun n => if (n =? temp_name i)%string then i else n) (dir_names w))).
Proof.
  intros env fs s i w r w' Hi H.
  unfold commit_output, mbind at 1, lift in H. rewrite Hi in H.
  apply mbind_inv in H. destruct H as [(u & w1 & H1 & H)|(e & H1 & _)].
  - assert (K : dir_names w1 = dir_names w /\ run_calls w1 = run_calls w).
    { destruct (IN_CICD env && NO_CI_CD_CACHE s).
      - exact (keeps_add_file _ _ _ _ _ H1).
      - inv H1. auto. }
    destruct K as [K1 K2].
    destruct (rename_names _ _ _ _ _ H) as [Hr [(Hd & -> & ->)|(Hd & -> & Hn)]].
    + split; [exact K2|]. left. rewrite <- (has_dir_names _ _ K1). eauto.
    + split; [congruence|]. right. rewrite <- (has_dir_names _ _ K1).
      split; [exact Hd|]. split; [reflexivity|]. now rewrite Hn, K1.
  - exfalso. destruct (IN_CICD env && NO_CI_CD_CACHE s); inv H1.
Qed.

Lemma step_dirs_incl :
  forall env fs l l' d, incl l l' -> step_dirs env fs l d -> step_dirs env fs l' d.
Proof. intros env fs l l' d Hi (u & j & Hu & Hj & Hd). exists u, j. auto. Qed.

Lemma forM__cons :
  forall {A : Type} (f : A -> M unit) x l, forM_ f (x :: l) = (f x ;;; forM_ f l).
Proof. reflexivity. Qed.

Lemma run_upstream_eq :
  forall env fs br s,
    run_upstream env fs br s
    = (forM_ (run env fs br) (_dependency_steps s) ;;;
       match _base_step s with
       | Some b => run env fs br b
       | None => ret tt
       end).
Proof. intros. unfold run_upstream. now rewrite base_step_match. Qed.

Section RunDirs.

Variables (env : Env) (fs : tree) (br : path).

Lemma forM_run_dirs :
  forall l, Forall (adds_own_dirs env fs br) l ->
  forall w r w', forM_ (run env fs br) l w = (r, w') ->
    forall d, In d (dir_names w') ->
              In d (dir_names w) \/ step_dirs env fs (flat_map all_steps l) d.
Proof.
  induction 1 as [|t l Ht _ IH]; intros w r w' H d Hd.
  - inv H. now left.
  - rewrite forM__cons in H. apply mbind_inv in H.
    destruct H as [(u & w1 & H1 & H2)|(e & H1 & _)].
    + destruct (IH _ _ _ H2 d Hd) as [Hin|Hs].
      * destruct (Ht _ _ _ H1 d Hin) as [Hin'|Hs]; [now left|right].
        eapply step_dirs_incl; [|exact Hs]. simpl. apply incl_appl, incl_refl.
      * right. eapply step_dirs_incl; [|exact Hs]. simpl. apply incl_appr, incl_refl.
    + destruct (Ht _ _ _ H1 d Hd) as [Hin'|Hs]; [now left|right].
      eapply step_dirs_incl; [|exact Hs]. simpl. apply incl_appl, incl_refl.
Qed.

Lemma run_upstream_dirs :
  forall s,
    Forall (adds_own_dirs env fs br) (_dependency_steps s) ->
    (forall b, _base_step s = Some b -> adds_own_dirs env fs br b) ->
    forall w r w', run_upstream env fs br s w = (r, w') ->
      forall d, In d (dir_names w') ->
                In d (dir_names w) \/ step_dirs env fs (upstream_steps s) d.
Proof.
  intros s Hd Hb w r w' H d Hin. rewrite run_upstream_eq in H.
  rewrite upstream_steps_eq.
  apply mbind_inv in H. destruct H as [(u & w1 & H1 & H2)|(e & H1 & _)].
  - assert (Hin1 : In d (dir_names w1)
                   \/ step_dirs env fs match _base_step s with
                                       | Some b => all_steps b
                                       | None => []
                                       end d).
    { destruct (_base_step s) as [b|].
      - exact (Hb b eq_refl _ _ _ H2 d Hin).
      - inv H2. now left. }
    destruct Hin1 as [Hin1|Hs].
    + destruct (forM_run_dirs _ Hd _ _ _ H1 d Hin1) as [?|Hs]; [now left|right].
      eapply step_dirs_incl; [|exact Hs]. apply incl_appl, incl_refl.
    + right. eapply step_dirs_incl; [|exact Hs]. apply incl_appr, incl_refl.
  - destruct (forM_run_dirs _ Hd _ _ _ H1 d Hin) as [?|Hs]; [now left|right].
    eapply step_dirs_incl; [|exact Hs]. apply incl_appl, incl_refl.
Qed.

Lemma run_dirs : forall s, adds_own_dirs env fs br s.
Proof.
  induction s as [s IHd IHb] using BuildStep_induction.
  intros w r w' H d Hin. rewrite run_eq in H.
  apply mbind_inv in H. destruct H as [(b & w1 & Hc & H)|(e & Hc & _)].
  2: { destruct (keeps__check_for_cached_result env fs s _ _ _ Hc) as [E _].
       left. now rewrite <- E. }
  destruct (keeps__check_for_cached_result env fs s _ _ _ Hc) as [E1 _].
  destruct (_check_for_cached_result_spec _ _ _ _ _ _ Hc) as (i & Hi & _).
  rewrite <- E1. destruct b.
  - left. assert (K : keeps_dirs (i0 <-- lift (id env fs s) ;;
                     emit (LogInfo ("The cache of the deployment step " ++ i0
                                    ++ " is found, reuse it and skip it.")))).
    { apply keeps_bind; [apply keeps_lift|intros; apply keeps_emit]. }
    destruct (K _ _ _ H) as [E _]. now rewrite <- E.
  - assert (Hown : forall x, x = i \/ x = temp_name i -> step_dirs env fs (all_steps s) x).
    { intros x Hx. exists s, i. split; [apply all_steps_self|]. auto. }
    assert (Hup : forall w0 x, In x (dir_names w0) ->
                    (forall y, In y (dir_names w0) ->
                               In y (dir_names w1) \/ step_dirs env fs (upstream_steps s) y) ->
                    In x (dir_names w1) \/ step_dirs env fs (all_steps s) x).
    { intros w0 x Hx Hall. destruct (Hall x Hx) as [?|Hs]; [now left|right].
      eapply step_dirs_incl; [|exact Hs]. intros y. apply all_steps_upstream. }
    apply mbind_inv in H. destruct H as [(u1 & w2 & Hu & H)|(e & Hu & _)].
    2: { eapply Hup; [exact Hin|]. apply (run_upstream_dirs s IHd IHb _ _ _ Hu). }
    pose proof (run_upstream_dirs s IHd IHb _ _ _ Hu) as Hw2.
    apply mbind_inv in H. destruct H as [(u2 & w3 & Ho & H)|(e & Ho & _)].
    2: { destruct (open_temp_output_spec _ _ _ _ _ _ _ Hi Ho) as [_ Hn].
         apply Hn in Hin. destruct Hin as [[Hin _]| ->]; [|right; apply Hown; auto].
         eapply Hup; eauto. }
    destruct (open_temp_output_spec _ _ _ _ _ _ _ Hi Ho) as [_ Hn3].
    assert (Hw3 : forall x, In x (dir_names w3) ->
                    In x (dir_names w1) \/ step_dirs env fs (all_steps s) x).
    { intros x Hx. apply Hn3 in Hx. destruct Hx as [[Hx _]| ->]; [|right; apply Hown; auto].
      eapply Hup; eauto. }
    apply mbind_inv in H. destruct H as [(u3 & w4 & Hr & H)|(e & Hr & _)].
    2: { destruct (call_run_spec _ _ _ _ _ _ _ _ Hi Hr) as [E _]. rewrite E in Hin. auto. }
    destruct (call_run_spec _ _ _ _ _ _ _ _ Hi Hr) as [E4 _].
    destruct (commit_output_spec _ _ _ _ _ _ _ Hi H) as [_ [(_ & _ & E)|(_ & _ & E)]].
    + rewrite E, E4 in Hin. auto.
    + rewrite E, E4 in Hin. apply in_map_iff in Hin. destruct Hin as (n & Hn & Hin).
      destruct (n =? temp_name i)%string; subst; [right; apply Hown; auto|auto].
Qed.

End RunDirs.

(** C3: take a step that is not cached, and let [run] get as far as
    calling [_run].  Whatever [_run] does, the output directory of the step
    does not exist when [_run] comes back.  If [_run] raises, [run] raises
    the same error and leaves the build root as [_run] left it, so without
    the output directory.  If [_run] returns, [run] returns after renaming
    the temporary output directory to the output directory, which then
    exists, and no other directory appears or disappears.  The steps that
    the step is built on are assumed to use directories of other names. *)
Theorem run_commits_by_rename_only :
  forall env fs br s i w w1 w2 r w3,
    id env fs s = Ok i ->
    _check_for_cached_result env fs s w = (Ok false, w1) ->
    (run_upstream env fs br s ;;; open_temp_output env fs s) w1 = (Ok tt, w2) ->
    call_run env fs br s w2 = (r, w3) ->
    (forall d, step_dirs env fs (upstream_steps s) d -> d <> i) ->
    has_dir (step_outputs w3) i = false
    /\ match r with
       | Raise e => run env fs br s w = (Raise e, w3)
       | Ok _ =>
           exists w4,
             run env fs br s w = (Ok tt, w4)
             /\ has_dir (step_outputs w4) i = true
             /\ has_dir (step_outputs w4) (temp_name i) = false
             /\ forall d, d <> i -> d <> temp_name i ->
                          has_dir (step_outputs w4) d = has_dir (step_outputs w3) d
       end.
Proof.
  intros env fs br s i w w1 w2 r w3 Hi Hc Hu Hr Hfresh.
  destruct (keeps__check_for_cached_result env fs s _ _ _ Hc) as [E1 _].
  destruct (_check_for_cached_result_spec _ _ _ _ _ _ Hc) as (i' & Hi' & Hb).
  assert (i' = i) by congruence. subst i'.
  apply mbind_inv in Hu. destruct Hu as [(u & wu & Hup & Ho)|(e & _ & ?)]; [|discriminate].
  destruct u.
  destruct (open_temp_output_spec _ _ _ _ _ _ _ Hi Ho) as [_ Hn2].
  destruct (call_run_spec _ _ _ _ _ _ _ _ Hi Hr) as [E3 _].
  assert (Habs : ~ In i (dir_names w3)).
  { rewrite E3. intros Hin. apply Hn2 in Hin.
    destruct Hin as [[Hin _]|Hin]; [|symmetry in Hin; now apply temp_name_neq in Hin].
    destruct (run_upstream_dirs env fs br s
                (proj2 (Forall_forall _ _) (fun t _ => run_dirs env fs br t))
                (fun b _ => run_dirs env fs br b) _ _ _ Hup i Hin) as [Hin1|Hs].
    - rewrite E1 in Hin1. apply (has_dir_In (step_outputs w)) in Hin1. congruence.
    - now apply (Hfresh i Hs). }
  assert (Hd3 : has_dir (step_outputs w3) i = false).
  { destruct (has_dir (step_outputs w3) i) eqn:E; [|reflexivity].
    apply has_dir_In in E. contradiction. }
  split; [exact Hd3|].
  assert (Hrun : run env fs br s w
                 = (call_run env fs br s ;;; commit_output env fs s) w2).
  { rewrite run_eq. rewrite (mbind_ok _ _ _ _ _ Hc).
    rewrite (mbind_ok _ _ _ _ _ Hup). now rewrite (mbind_ok _ _ _ _ _ Ho). }
  rewrite Hrun. destruct r as [[]|e].
  - rewrite (mbind_ok _ _ _ _ _ Hr).
    destruct (commit_output env fs s w3) as [rc w4] eqn:Ec.
    destruct (commit_output_spec _ _ _ _ _ _ _ Hi Ec)
      as [_ [(Hd & _)|(_ & -> & En)]]; [congruence|].
    exists w4. split; [reflexivity|].
    assert (Hin4 : forall d, In d (dir_names w4)
                     <-> (d = i /\ In (temp_name i) (dir_names w3))
                         \/ (d <> temp_name i /\ In d (dir_names w3))).
    { intros d. rewrite En, in_map_iff. split.
      - intros (n & Hn & Hin). destruct (String.eqb_spec n (temp_name i)); subst; auto.
      - intros [[-> Hin]|[Hne Hin]].
        + exists (temp_name i). now rewrite String.eqb_refl.
        + exists d. destruct (String.eqb_spec d (temp_name i)); [contradiction|auto]. }
    split; [|split].
    + apply has_dir_In. apply Hin4. left. split; [reflexivity|].
      rewrite E3. apply Hn2. now right.
    + destruct (has_dir (step_outputs w4) (temp_name i)) eqn:E; [|reflexivity].
      apply has_dir_In, Hin4 in E. destruct E as [[E _]|[E _]]; [|contradiction].
      now apply temp_name_neq in E.
    + intros d Hne Hnt. apply eq_true_iff_eq. rewrite !has_dir_In.
      fold (dir_names w4) (dir_names w3). rewrite Hin4. tauto.
  - now rewrite (mbind_raise _ _ _ _ _ Hr).
Qed.

Lemma run_commits_by_rename_only_witness :
  exists i e w3,
    id (example_env (fails_on "steps/b.sh")) example_tree step_B = Ok i
    /\ run (example_env (fails_on "steps/b.sh")) example_tree build_root_example
         step_B empty_world = (Raise e, w3)
    /\ has_dir (step_outputs w3) i = false.
Proof.
  assert (H : forall i w1 w2 r w3,
             id (example_env (fails_on "steps/b.sh")) example_tree step_B = Ok i ->
             _check_for_cached_result (example_env (fails_on "steps/b.sh")) example_tree
               step_B empty_world = (Ok false, w1) ->
             (run_upstream (example_env (fails_on "steps/b.sh")) example_tree
                build_root_example step_B ;;;
              open_temp_output (example_env (fails_on "steps/b.sh")) example_tree step_B) w1
             = (Ok tt, w2) ->
             call_run (example_env (fails_on "steps/b.sh")) example_tree
               build_root_example step_B w2 = (r, w3) ->
             (forall e, r = Raise e ->
               run (example_env (fails_on "steps/b.sh")) example_tree build_root_example
                 step_B empty_world = (Raise e, w3)
               /\ has_dir (step_outputs w3) i = false)).
  { intros i w1 w2 r w3 Hi Hc Hu Hr e ->.
    destruct (run_commits_by_rename_only _ _ _ _ _ _ _ _ _ _ Hi Hc Hu Hr) as [Hd Hrun].
    - intros d (u & j & [<-|[]] & Hj & Hd). vm_compute in Hj, Hi.
      inv Hj. inv Hi. destruct Hd as [->| ->]; discriminate.
    - auto. }
  do 3 eexists. split; [vm_compute; reflexivity|].
  eapply H; vm_compute; reflexivity.
Defined.

(* ------------------------------------------------------------------ *)
(** ** Each step is run once *)

Lemma NoDup_snoc :
  forall {A : Type} (l : list A) x, NoDup l -> ~ In x l -> NoDup (l ++ [x]).
Proof.
  intros A l x Hn Hx. apply (Permutation_NoDup (Permutation_cons_append l x)).
  now constructor.
Qed.

Section Once.

Variables (env : Env) (fs : tree) (br : path) (U : list BuildStep).

Hypothesis U_free : collision_free env fs U.

Lemma graph_ids_incl :
  forall l l' j, incl l l' -> graph_ids env fs l j -> graph_ids env fs l' j.
Proof. intros l l' j Hi (u & Hu & Hj). exists u. auto. Qed.

Lemma run_post_ret :
  forall frame w, runs_once env fs U w -> run_post env fs U frame [] w (Ok tt) w.
Proof.
  intros frame w Hw. split; [apply (once_nodup _ _ _ _ Hw)|]. split; [auto|].
  intros _. split; [exact Hw|]. split; [apply incl_refl|].
  intros Ha. split; [exact Ha|]. intros t [].
Qed.

Lemma run_post_weaken :
  forall f f' done w r w',
    incl f f' -> run_post env fs U f done w r w' -> run_post env fs U f' done w r w'.
Proof.
  intros f f' done w r w' Hi (Hn & Hf & Hok). split; [exact Hn|]. split; [|exact Hok].
  intros j Hj. destruct (Hf j Hj) as [?|Hg]; [now left|right].
  eapply graph_ids_incl; eauto.
Qed.

Lemma run_post_seq :
  forall f1 d1 f2 d2 w w1 r w',
    run_post env fs U f1 d1 w (Ok tt) w1 ->
    run_post env fs U f2 d2 w1 r w' ->
    run_post env fs U (f1 ++ f2) (d1 ++ d2) w r w'.
Proof.
  intros f1 d1 f2 d2 w w1 r w' (_ & Hf1 & Hok1) (Hn & Hf2 & Hok2).
  destruct (Hok1 eq_refl) as (Hw1 & Hi1 & Ha1).
  split; [exact Hn|]. split.
  - intros j Hj. destruct (Hf2 j Hj) as [Hj1|Hg].
    + destruct (Hf1 j Hj1) as [?|Hg]; [now left|right].
      eapply graph_ids_incl; [|exact Hg]. apply incl_appl, incl_refl.
    + right. eapply graph_ids_incl; [|exact Hg]. apply incl_appr, incl_refl.
  - intros Hr. destruct (Hok2 Hr) as (Hw' & Hi2 & Ha2).
    split; [exact Hw'|]. split; [eapply incl_tran; eauto|].
    intros Ha. destruct (Ha1 Ha) as [Ha' Hd1]. destruct (Ha2 Ha') as [Ha'' Hd2].
    split; [exact Ha''|]. intros t Ht. apply in_app_iff in Ht. destruct Ht as [Ht|Ht].
    + destruct (Hd1 t Ht) as (k & Hk & Hin). exists k. split; [exact Hk|]. now apply Hi2.
    + now apply Hd2.
Qed.

Lemma run_post_raise :
  forall f1 d1 d w w1 e,
    run_post env fs U f1 d1 w (Raise e) w1 -> run_post env fs U f1 d w (Raise e) w1.
Proof.
  intros f1 d1 d w w1 e (Hn & Hf & _). split; [exact Hn|]. split; [exact Hf|].
  intros H. discriminate H.
Qed.

Lemma forM_runs_once :
  forall l,
    Forall (runs_once_from env fs br U) l ->
    (forall d, In d l -> incl (all_steps d) U) ->
    forall w r w',
      runs_once env fs U w -> forM_ (run env fs br) l w = (r, w') ->
      run_post env fs U (flat_map all_steps l) l w r w'.
Proof.
  induction 1 as [|d l Hd _ IH]; intros Hin w r w' Hw H.
  - inv H. now apply run_post_ret.
  - rewrite forM__cons in H. apply mbind_inv in H.
    assert (Hpd : forall r1 w1, run env fs br d w = (r1, w1) ->
                    run_post env fs U (all_steps d) [d] w r1 w1).
    { intros r1 w1 H1. apply Hd; auto. apply Hin. now left. }
    destruct H as [([] & w1 & H1 & H2)|(e & H1 & ->)].
    + specialize (Hpd _ _ H1).
      assert (Hw1 : runs_once env fs U w1) by (destruct Hpd as (_ & _ & Hok); now apply Hok).
      apply (run_post_seq _ [d] _ l _ _ _ _ Hpd).
      apply IH; auto. intros d' Hd'. apply Hin. now right.
    + eapply run_post_weaken; [|eapply run_post_raise; apply Hpd; exact H1].
      simpl. apply incl_appl, incl_refl.
Qed.

Lemma run_upstream_once :
  forall s,
    Forall (runs_once_from env fs br U) (_dependency_steps s) ->
    (forall b, _base_step s = Some b -> runs_once_from env fs br U b) ->
    incl (all_steps s) U ->
    forall w r w',
      runs_once env fs U w -> run_upstream env fs br s w = (r, w') ->
      run_post env fs U (upstream_steps s)
        (_dependency_steps s ++ match _base_step s with Some b => [b] | None => [] end)
        w r w'.
Proof.
  intros s Hd Hb Hs w r w' Hw H. rewrite run_upstream_eq in H.
  rewrite upstream_steps_eq.
  assert (Hind : forall d, In d (_dependency_steps s) -> incl (all_steps d) U).
  { intros d Hin u Hu. apply Hs, all_steps_upstream, In_upstream_steps. left. eauto. }
  apply mbind_inv in H. destruct H as [([] & w1 & H1 & H2)|(e & H1 & ->)].
  - pose proof (forM_runs_once _ Hd Hind _ _ _ Hw H1) as P1.
    assert (Hw1 : runs_once env fs U w1) by (destruct P1 as (_ & _ & Hok); now apply Hok).
    apply (run_post_seq _ _ _ _ _ _ _ _ P1).
    destruct (_base_step s) as [b|] eqn:Eb.
    + apply (Hb b eq_refl); auto.
      intros u Hu. apply Hs, all_steps_upstream, In_upstream_steps. right. eauto.
    + inv H2. now apply run_post_ret.
  - eapply run_post_weaken; [|eapply run_post_raise;
                               exact (forM_runs_once _ Hd Hind _ _ _ Hw H1)].
    apply incl_appl, incl_refl.
Qed.

Lemma runs_once_step : forall s, runs_once_from env fs br U s.
Proof.
  induction s as [s IHd IHb] using BuildStep_induction.
  intros Hs w r w' Hw H. rewrite run_eq in H.
  assert (HsU : In s U) by apply Hs, all_steps_self.
  apply mbind_inv in H. destruct H as [(b & w1 & Hc & H)|(e & Hc & ->)].
  2: { destruct (keeps__check_for_cached_result env fs s _ _ _ Hc) as [_ E].
       split; [rewrite E; apply (once_nodup _ _ _ _ Hw)|]. split; [rewrite E; auto|].
       intros H. discriminate H. }
  destruct (keeps__check_for_cached_result env fs s _ _ _ Hc) as [En1 Er1].
  destruct (_check_for_cached_result_spec _ _ _ _ _ _ Hc) as (i & Hi & Hb).
  assert (Hw1 : runs_once env fs U w1).
  { destruct Hw as [N C I]. constructor; rewrite ?Er1; auto.
    unfold dir_names in *. intros j Hj. rewrite En1. auto. }
  assert (Hall1 : all_run env fs U w -> all_run env fs U w1).
  { intros [Mk Cl]. constructor.
    - intros d Hd. rewrite Er1. apply Mk. now rewrite <- En1.
    - intros t j u Ht Hj Hin Hu. rewrite Er1 in Hin.
      destruct (Cl t j u Ht Hj Hin Hu) as (k & Hk & Hk'). exists k. now rewrite Er1. }
  destruct b.
  - (* the step is cached *)
    assert (K : keeps_dirs (i0 <-- lift (id env fs s) ;;
                     emit (LogInfo ("The cache of the deployment step " ++ i0
                                    ++ " is found, reuse it and skip it.")))).
    { apply keeps_bind; [apply keeps_lift|intros; apply keeps_emit]. }
    destruct (K _ _ _ H) as [En Er].
    assert (Hw' : runs_once env fs U w').
    { destruct Hw1 as [N C I]. constructor; rewrite ?Er; auto.
      intros j Hj. rewrite En. auto. }
    split; [apply (once_nodup _ _ _ _ Hw')|]. split; [rewrite Er, Er1; auto|].
    intros _. split; [exact Hw'|]. split; [rewrite Er, Er1; apply incl_refl|].
    intros Ha. destruct (Hall1 Ha) as [Mk Cl]. split.
    + constructor.
      * intros d Hd. rewrite Er. apply Mk. now rewrite <- En.
      * intros t j u Ht Hj Hin Hu. rewrite Er in Hin.
        destruct (Cl t j u Ht Hj Hin Hu) as (k & Hk & Hk'). exists k. now rewrite Er.
    + intros t [<-|[]]. exists i. split; [exact Hi|]. rewrite Er. apply Mk.
      symmetry in Hb. apply has_dir_In in Hb. fold (dir_names w) in Hb. now rewrite En1.
  - (* the step is not cached *)
    assert (Hni : ~ In i (dir_names w1)).
    { rewrite En1. intros Hin. apply (has_dir_In (step_outputs w)) in Hin. congruence. }
    apply mbind_inv in H.
    pose proof (run_upstream_once s IHd IHb Hs w1) as Pu.
    assert (Hframe1 : forall r2 w2,
               run_post env fs U (upstream_steps s)
                 (_dependency_steps s ++ match _base_step s with Some b => [b] | None => [] end)
                 w1 r2 w2 ->
               forall j, In j (run_calls w2) ->
                         In j (run_calls w) \/ graph_ids env fs (all_steps s) j).
    { intros r2 w2 (_ & Hf & _) j Hj. destruct (Hf j Hj) as [Hj1|Hg].
      - left. now rewrite <- Er1.
      - right. eapply graph_ids_incl; [|exact Hg]. intros x. apply all_steps_upstream. }
    destruct H as [([] & wu & Hu & H)|(e & Hu & ->)].
    2: { specialize (Pu _ _ Hw1 Hu). split; [exact (proj1 Pu)|].
         split; [now apply (Hframe1 _ _ Pu)|].
         intros H. discriminate H. }
    specialize (Pu _ _ Hw1 Hu). pose proof (Hframe1 _ _ Pu) as Hfu.
    destruct Pu as (_ & Hfu0 & Hoku). destruct (Hoku eq_refl) as (Hwu & Hiu & Hau).
    assert (Hnew : ~ In i (run_calls wu)).
    { intros Hin. destruct (Hfu0 i Hin) as [Hin1|(u & Hu1 & Hu2)].
      - apply Hni. now apply (once_committed _ _ _ _ Hw1).
      - assert (Hus : In u U) by now apply Hs, all_steps_upstream.
        destruct (U_free u s i i Hus HsU Hu2 Hi) as [Heq _].
        rewrite (Heq eq_refl) in Hu1. now apply not_upstream_of_itself in Hu1. }
    assert (Htemp : forall j, In j (run_calls wu) -> j <> temp_name i).
    { intros j Hj ->. destruct (once_ids _ _ _ _ Hwu _ Hj) as (t & Ht & Htj).
      now destruct (U_free s t i (temp_name i) HsU Ht Hi Htj) as [_ Hne]. }
    assert (Hgi : graph_ids env fs (all_steps s) i) by (exists s; split; [apply all_steps_self|exact Hi]).
    apply mbind_inv in H. destruct H as [([] & w2 & Ho & H)|(e & Ho & ->)].
    2: { destruct (open_temp_output_spec _ _ _ _ _ _ _ Hi Ho) as [E _].
         split; [rewrite E; apply (once_nodup _ _ _ _ Hwu)|].
         split; [rewrite E; exact Hfu|]. intros H. discriminate H. }
    destruct (open_temp_output_spec _ _ _ _ _ _ _ Hi Ho) as [Er2 En2].
    apply mbind_inv in H.
    assert (Hnd3 : NoDup (run_calls wu ++ [i]))
      by (apply NoDup_snoc; [apply (once_nodup _ _ _ _ Hwu)|exact Hnew]).
    assert (Hf3 : forall j, In j (run_calls wu ++ [i]) ->
                    In j (run_calls w) \/ graph_ids env fs (all_steps s) j).
    { intros j Hj. apply in_app_iff in Hj. destruct Hj as [Hj|[<-|[]]]; auto. }
    destruct H as [([] & w3 & Hr & H)|(e & Hr & ->)].
    2: { destruct (call_run_spec _ _ _ _ _ _ _ _ Hi Hr) as [_ E]. rewrite Er2 in E.
         split; [now rewrite E|]. split; [now rewrite E|]. intros H. discriminate H. }
    destruct (call_run_spec _ _ _ _ _ _ _ _ Hi Hr) as [En3 Er3]. rewrite Er2 in Er3.
    destruct (commit_output_spec _ _ _ _ _ _ _ Hi H) as [Er4 Hcm]. rewrite Er3 in Er4.
    split; [now rewrite Er4|]. split; [now rewrite Er4|].
    intros ->. destruct Hcm as [(_ & (e & He) & _)|(_ & _ & En4)]; [discriminate He|].
    assert (Hin4 : forall d, In d (dir_names w') <-> d = i \/ (In d (dir_names wu) /\ d <> temp_name i)).
    { intros d. rewrite En4, in_map_iff. split.
      - intros (n & Hn & Hin). rewrite En3 in Hin. apply En2 in Hin.
        destruct (String.eqb_spec n (temp_name i)); subst; [now left|].
        destruct Hin as [?|?]; [now right|contradiction].
      - intros [->|[Hin Hne]].
        + exists (temp_name i). rewrite String.eqb_refl. split; [reflexivity|].
          rewrite En3. apply En2. now right.
        + exists d. destruct (String.eqb_spec d (temp_name i)); [contradiction|].
          split; [reflexivity|]. rewrite En3. apply En2. now left. }
    assert (Hw' : runs_once env fs U w').
    { constructor; rewrite Er4.
      - exact Hnd3.
      - intros j Hj. apply Hin4. apply in_app_iff in Hj. destruct Hj as [Hj|[<-|[]]]; [|now left].
        right. split; [now apply (once_committed _ _ _ _ Hwu)|now apply Htemp].
      - intros j Hj. apply in_app_iff in Hj. destruct Hj as [Hj|[<-|[]]].
        + now apply (once_ids _ _ _ _ Hwu).
        + exists s. auto. }
    split; [exact Hw'|]. split.
    { rewrite Er4. intros j Hj. apply in_app_iff. left. apply Hiu. now rewrite Er1. }
    intros Ha. destruct (Hau (Hall1 Ha)) as [[Mk Cl] Hdone]. split.
    + constructor; rewrite Er4.
      * intros d Hd. apply Hin4 in Hd. apply in_app_iff.
        destruct Hd as [->|[Hd _]]; [right; now left|left; now apply Mk].
      * clear Hu. intros t j u Ht Hj Hin Hu. apply in_app_iff in Hin.
        destruct Hin as [Hin|[<-|[]]].
        -- destruct (Cl t j u Ht Hj Hin Hu) as (k & Hk & Hk'). exists k.
           split; [exact Hk|]. apply in_app_iff. now left.
        -- destruct (U_free t s i i Ht HsU Hj Hi) as [Heq _]. rewrite (Heq eq_refl) in Hu.
           unfold all_steps in Hu. apply in_app_iff in Hu.
           destruct Hu as [Hu|[<-|[]]]; [|exists i; split; [exact Hi|apply in_app_iff; right; now left]].
           apply In_upstream_steps in Hu.
           assert (Hd : exists d, In d (_dependency_steps s ++ match _base_step s with Some b => [b] | None => [] end)
                                  /\ In u (all_steps d)).
           { destruct Hu as [(d & Hd & Hu)|(b & Hb' & Hu)].
             - exists d. split; [apply in_app_iff; now left|exact Hu].
             - exists b. split; [apply in_app_iff; right; rewrite Hb'; now left|exact Hu]. }
           destruct Hd as (d & Hd & Hud). destruct (Hdone d Hd) as (k & Hk & Hkin).
           assert (HdU : In d U).
           { apply Hs, all_steps_upstream, In_upstream_steps.
             apply in_app_iff in Hd. destruct Hd as [Hd|Hd].
             - left. exists d. split; [exact Hd|apply all_steps_self].
             - right. destruct (_base_step s) as [b|]; [|contradiction].
               destruct Hd as [<-|[]]. exists b. split; [reflexivity|apply all_steps_self]. }
           destruct (Cl d k u HdU Hk Hkin Hud) as (k' & Hk' & Hk'in). exists k'.
           split; [exact Hk'|]. apply in_app_iff. now left.
    + intros t [<-|[]]. exists i. split; [exact Hi|]. rewrite Er4. apply in_app_iff. right. now left.
Qed.

End Once.

Lemma run_cached_skips :
  forall env fs br t j w0,
    id env fs t = Ok j -> has_dir (step_outputs w0) j = true ->
    run_calls (snd (run env fs br t w0)) = run_calls w0.
Proof.
  intros env fs br t j w0 Hj Hd. rewrite run_eq.
  destruct (_check_for_cached_result env fs t w0) as [c w1] eqn:Hc.
  destruct (keeps__check_for_cached_result env fs t _ _ _ Hc) as [_ E1].
  unfold mbind at 1. rewrite Hc. destruct c as [b|e]; [|exact E1].
  destruct (_check_for_cached_result_spec _ _ _ _ _ _ Hc) as (i & Hi & Hb).
  assert (i = j) by congruence. subst i. rewrite Hd in Hb. subst b.
  rewrite Hj. simpl. exact E1.
Qed.

(** C4. Under the freedom from collisions of the identities of the graph,
    a run that starts before any [_run] was invoked invokes [_run] at most
    once for an identity, whether it succeeds or fails; a successful run
    in a build root without output directories invokes it exactly once for
    each step of the graph, however many paths reach the step, and has
    committed its output directory; and a step whose output directory is
    committed is skipped without a call of [_run]. *)
Theorem each_step_runs_once :
  forall env fs br s w r w',
    collision_free env fs (all_steps s) ->
    run_calls w = [] ->
    run env fs br s w = (r, w') ->
    NoDup (run_calls w')
    /\ (r = Ok tt -> step_outputs w = [] ->
        forall t, In t (all_steps s) ->
          exists j, id env fs t = Ok j
            /\ count_occ string_dec (run_calls w') j = 1
            /\ has_dir (step_outputs w') j = true)
    /\ (forall t j w0,
          id env fs t = Ok j -> has_dir (step_outputs w0) j = true ->
          run_calls (snd (run env fs br t w0)) = run_calls w0).
Proof.
  intros env fs br s w r w' Hfree Hw0 H.
  assert (Hw : runs_once env fs (all_steps s) w).
  { constructor; rewrite Hw0; [constructor|intros j []|intros j []]. }
  destruct (runs_once_step env fs br (all_steps s) Hfree s (incl_refl _) w r w' Hw H)
    as (Hn & _ & Hok).
  split; [exact Hn|]. split; [|apply run_cached_skips].
  intros Hr Hout t Ht. destruct (Hok Hr) as (Hw' & _ & Ha).
  assert (Hall : all_run env fs (all_steps s) w).
  { constructor.
    - unfold dir_names. rewrite Hout. intros d [].
    - rewrite Hw0. intros ? ? ? ? ? []. }
  destruct (Ha Hall) as [[_ Cl] Hdone].
  destruct (Hdone s (or_introl eq_refl)) as (i & Hi & Hin).
  destruct (Cl s i t (all_steps_self s) Hi Hin Ht) as (j & Hj & Hjin).
  exists j. split; [exact Hj|]. split.
  - now apply NoDup_count_occ'.
  - apply has_dir_In. now apply (once_committed _ _ _ _ Hw').
Qed.

Lemma each_step_runs_once_witness :
  exists w',
    run (example_env all_succeed) example_tree build_root_example step_D empty_world
    = (Ok tt, w')
    /\ mapM (id (example_env all_succeed) example_tree) [step_A; step_B; step_D]
       = Ok (run_calls w')
    /\ forall t, In t [step_A; step_B; step_A; step_D] ->
         exists j, id (example_env all_succeed) example_tree t = Ok j
           /\ count_occ string_dec (run_calls w') j = 1
           /\ has_dir (step_outputs w') j = true.
Proof.
  assert (HA : id (example_env all_succeed) example_tree step_A
               = Ok "a__4228249396c694bcf704f1a1228b344ab014aa6846d0d9730e837dea0a24c350")
    by (vm_compute; reflexivity).
  assert (HB : id (example_env all_succeed) example_tree step_B
               = Ok "b__8fe5e3f51121216106456102ffc5bf16561fd3ac453fc0b0ead35290159a2487")
    by (vm_compute; reflexivity).
  assert (HD : id (example_env all_succeed) example_tree step_D
               = Ok "d__5f31d92b164560e9c4cee86f5c0b8cc169d5df399446a54575ea8ad8f5f7f95d")
    by (vm_compute; reflexivity).
  assert (H : exists w',
             run (example_env all_succeed) example_tree build_root_example step_D
               empty_world = (Ok tt, w')
             /\ mapM (id (example_env all_succeed) example_tree) [step_A; step_B; step_D]
                = Ok (run_calls w')).
  { eexists; split; vm_compute; reflexivity. }
  destruct H as (w' & H & Hm). exists w'. split; [exact H|]. split; [exact Hm|].
  assert (Hf : collision_free (example_env all_succeed) example_tree (all_steps step_D)).
  { change (all_steps step_D) with [step_A; step_B; step_A; step_D].
    unfold collision_free. revert HA HB HD.
    generalize (id (example_env all_succeed) example_tree) as f.
    intros f HA HB HD t u j k Ht Hu Hj Hk.
    destruct Ht as [<-|[<-|[<-|[<-|[]]]]]; destruct Hu as [<-|[<-|[<-|[<-|[]]]]];
      rewrite ?HA, ?HB, ?HD in Hj; rewrite ?HA, ?HB, ?HD in Hk; inv Hj; inv Hk;
      (split; [intros E; first [reflexivity|discriminate E]
              |unfold temp_name; simpl; intros E; discriminate E]). }
  exact (proj1 (proj2 (each_step_runs_once _ _ _ step_D empty_world _ _ Hf eq_refl H))
           eq_refl eq_refl).
Defined.

(* ------------------------------------------------------------------ *)
(** ** The serialization can be read back *)

Lemma decode_encode : forall s, decode (encode s) = Ok s.
Proof.
  induction s as [|c s IH]; [reflexivity|].
  change (encode (String c s)) with (encode_char c ++ encode s).
  destruct c as [[] [] [] [] [] [] [] []]; simpl; rewrite IH; reflexivity.
Qed.

Lemma encode_inj : forall s t, encode s = encode t -> s = t.
Proof.
  intros s t H. apply (f_equal decode) in H. rewrite !decode_encode in H. now inv H.
Qed.

Lemma string_app_inv_head :
  forall a x y : string, (a ++ x = a ++ y)%string -> x = y.
Proof. induction a as [|c a IH]; simpl; intros x y H; [exact H|]. inv H. auto. Qed.

Lemma unescape_escape_char :
  forall c x, unescape_char (escape_char c ++ x) = Some (c, x).
Proof. intros c x. destruct c as [[] [] [] [] [] [] [] []]; reflexivity. Qed.

Lemma escape_inj :
  forall s t r r',
    (escape s ++ dquote ++ r = escape t ++ dquote ++ r')%string -> s = t /\ r = r'.
Proof.
  induction s as [|c s IH]; intros [|d t] r r' H; simpl in H.
  - inv H. auto.
  - rewrite string_app_assoc in H. apply (f_equal unescape_char) in H.
    rewrite unescape_escape_char in H. discriminate H.
  - rewrite string_app_assoc in H. apply (f_equal unescape_char) in H.
    rewrite unescape_escape_char in H. discriminate H.
  - rewrite !string_app_assoc in H. pose proof (f_equal unescape_char H) as E.
    rewrite !unescape_escape_char in E. injection E as -> E.
    destruct (IH _ _ _ E) as [-> ->]. auto.
Qed.

Lemma json_string_inj :
  forall s t r r',
    (json_string s ++ r = json_string t ++ r')%string -> s = t /\ r = r'.
Proof.
  intros s t r r' H. unfold json_string in H. rewrite !string_app_assoc in H.
  apply string_app_inv_head in H. now apply escape_inj.
Qed.

Lemma json_induction :
  forall P : json -> Prop,
    P JNull ->
    (forall s, P (JStr s)) ->
    (forall items, Forall P items -> P (JList items)) ->
    (forall items, Forall (fun kv => P (snd kv)) items -> P (JDict items)) ->
    forall v, P v.
Proof.
  intros P Hn Hs Hl Hd.
  fix IH 1. intros [|s|items|items].
  - exact Hn.
  - apply Hs.
  - apply Hl. induction items as [|x items IHi]; constructor; [apply IH|exact IHi].
  - apply Hd. induction items as [|[k x] items IHi]; constructor; [apply IH|exact IHi].
Qed.

Lemma insert_map :
  forall {A B : Type} (f : A -> B) (leb : A -> A -> bool) (leb' : B -> B -> bool),
    (forall x y, leb' (f x) (f y) = leb x y) ->
    forall x l, insert leb' (f x) (map f l) = map f (insert leb x l).
Proof.
  intros A B f leb leb' H x l. induction l as [|y l IH]; simpl; [reflexivity|].
  rewrite H. destruct (leb x y); simpl; [reflexivity|]. now rewrite IH.
Qed.

Lemma sorted_by_map :
  forall {A B : Type} (f : A -> B) (leb : A -> A -> bool) (leb' : B -> B -> bool),
    (forall x y, leb' (f x) (f y) = leb x y) ->
    forall l, sorted_by leb' (map f l) = map f (sorted_by leb l).
Proof.
  intros A B f leb leb' H l. induction l as [|x l IH]; simpl; [reflexivity|].
  rewrite IH. now apply insert_map.
Qed.

Lemma sorted_by_values :
  forall {A B : Type} (f : A -> B) (l : list (string * A)),
    sorted_by key_leb (map (fun kv => let '(k, x) := kv in (k, f x)) l)
    = map (fun kv => let '(k, x) := kv in (k, f x)) (sorted_by key_leb l).
Proof. intros A B f l. apply sorted_by_map. now intros [k x] [k' x']. Qed.

Lemma sorted_by_nil :
  forall {A : Type} (leb : A -> A -> bool) l, sorted_by leb l = [] -> l = [].
Proof.
  intros A leb l H. apply Permutation_nil. rewrite <- H. apply Permutation_sym, sorted_by_perm.
Qed.

Lemma lines_cons2 :
  forall level x y rest,
    lines level (x :: y :: rest)
    = (x ++ "," ++ indent level ++ lines level (y :: rest))%string.
Proof. reflexivity. Qed.

(** The items of a container are read back one by one: each is followed by
    a comma or, for the last one, by the line break before the closing
    bracket. *)
Lemma lines_inj :
  forall {A : Type} (f : A -> string) (R : A -> A -> Prop) level xs,
    Forall (fun x => forall y r r', (f x ++ r = f y ++ r')%string -> R x y /\ r = r') xs ->
    forall ys t t',
      xs <> [] -> ys <> [] ->
      (lines level (map f xs) ++ String "010" t
       = lines level (map f ys) ++ String "010" t')%string ->
      Forall2 R xs ys /\ t = t'.
Proof.
  intros A f R level xs H. induction H as [|x xs Hx _ IH]; intros ys t t' Hxs Hys E;
    [congruence|].
  destruct ys as [|y ys]; [congruence|].
  destruct xs as [|x2 xs]; destruct ys as [|y2 ys]; cbn [map] in E;
    rewrite ?lines_cons2, ?string_app_assoc in E; cbn [lines] in E.
  - destruct (Hx _ _ _ E) as [HR Ht]. inv Ht. split; [repeat constructor; exact HR|reflexivity].
  - destruct (Hx _ _ _ E) as [_ Ht]. discriminate Ht.
  - destruct (Hx _ _ _ E) as [_ Ht]. discriminate Ht.
  - destruct (Hx _ _ _ E) as [HR Ht].
    apply string_app_inv_head in Ht. apply string_app_inv_head in Ht.
    destruct (IH (y2 :: ys) t t') as [HF Ht']; try congruence.
    + cbn [map]. exact Ht.
    + split; [constructor; assumption|exact Ht'].
Qed.

Lemma indent_eq : forall level, indent level = String "010" (spaces (4 * level)).
Proof. reflexivity. Qed.

Lemma dumps_at_list :
  forall level x items,
    dumps_at level (JList (x :: items))
    = ("[" ++ indent (S level) ++ lines (S level) (map (dumps_at (S level)) (x :: items))
           ++ indent level ++ "]")%string.
Proof. reflexivity. Qed.

Lemma dumps_at_dict :
  forall level kv items,
    dumps_at level (JDict (kv :: items))
    = ("{" ++ indent (S level)
           ++ lines (S level)
                (map (fun kv => (json_string (fst kv) ++ ": " ++ dumps_at (S level) (snd kv))%string)
                     (sorted_by key_leb (kv :: items)))
           ++ indent level ++ "}")%string.
Proof.
  intros level kv items.
  change (dumps_at level (JDict (kv :: items)))
    with ("{" ++ indent (S level)
           ++ lines (S level)
                (map (fun kv => (json_string (fst kv) ++ ": " ++ snd kv)%string)
                     (sorted_by key_leb
                        (map (fun kv => let '(k, x) := kv in (k, dumps_at (S level) x))
                             (kv :: items))))
           ++ indent level ++ "}")%string.
  rewrite sorted_by_values, map_map. do 3 f_equal. f_equal.
  apply map_ext. now intros [k x].
Qed.

Lemma Forall2_map_eq :
  forall {A B : Type} (f : A -> B) xs ys,
    Forall2 (fun x y => f x = f y) xs ys -> map f xs = map f ys.
Proof. induction 1; simpl; congruence. Qed.

Lemma canon_dict :
  forall items,
    canon (JDict items)
    = JDict (map (fun kv => (fst kv, canon (snd kv))) (sorted_by key_leb items)).
Proof.
  intros items.
  change (canon (JDict items))
    with (JDict (sorted_by key_leb
                   (map (fun kv => let '(k, x) := kv in (k, canon x)) items))).
  rewrite sorted_by_values. f_equal. apply map_ext. now intros [k x].
Qed.

Lemma Forall2_items_eq :
  forall (xs ys : list (string * json)),
    Forall2 (fun x y => fst x = fst y /\ canon (snd x) = canon (snd y)) xs ys ->
    map (fun kv => (fst kv, canon (snd kv))) xs
    = map (fun kv => (fst kv, canon (snd kv))) ys.
Proof. induction 1 as [|x y xs ys [H1 H2] _ IH]; simpl; congruence. Qed.

(** A serialization is followed by anything: the value, up to the order of
    the items of dictionaries, and what follows are read back. *)
Lemma dumps_at_inj :
  forall a level b r r',
    (dumps_at level a ++ r = dumps_at level b ++ r')%string ->
    canon a = canon b /\ r = r'.
Proof.
  induction a as [|s|items IH|items IH] using json_induction; intros level b r r' H.
  - destruct b as [|t|[|y ys]|[|y ys]];
      rewrite ?dumps_at_list, ?dumps_at_dict in H; try discriminate H.
    simpl in H. inv H. auto.
  - destruct b as [|t|[|y ys]|[|y ys]];
      rewrite ?dumps_at_list, ?dumps_at_dict in H; try discriminate H.
    change (json_string s ++ r = json_string t ++ r')%string in H.
    destruct (json_string_inj _ _ _ _ H) as [-> ->]. auto.
  - destruct items as [|x xs]; destruct b as [|t|[|y ys]|[|y ys]];
      rewrite ?dumps_at_list, ?dumps_at_dict in H; try discriminate H.
    + simpl in H. inv H. auto.
    + rewrite !string_app_assoc in H. do 2 apply string_app_inv_head in H.
      rewrite !indent_eq in H. cbn [append] in H.
      assert (HF : Forall (fun x => forall y r r',
                     (dumps_at (S level) x ++ r = dumps_at (S level) y ++ r')%string ->
                     canon x = canon y /\ r = r') (x :: xs)).
      { eapply Forall_impl; [|exact IH]. intros a Ha. apply Ha. }
      destruct (lines_inj (dumps_at (S level)) (fun x y => canon x = canon y) (S level)
                  (x :: xs) HF (y :: ys) _ _ ltac:(discriminate) ltac:(discriminate) H)
        as [HF2 Ht].
      apply string_app_inv_head in Ht. injection Ht as Ht. split; [|exact Ht].
      cbn [canon]. f_equal. now apply Forall2_map_eq.
  - destruct items as [|x xs]; destruct b as [|t|[|y ys]|[|y ys]];
      rewrite ?dumps_at_list, ?dumps_at_dict in H; try discriminate H.
    + simpl in H. inv H. auto.
    + rewrite !string_app_assoc in H. do 2 apply string_app_inv_head in H.
      rewrite !indent_eq in H. cbn [append] in H.
      assert (HF : Forall (fun x => forall y r r',
                     ((json_string (fst x) ++ ": " ++ dumps_at (S level) (snd x)) ++ r
                      = (json_string (fst y) ++ ": " ++ dumps_at (S level) (snd y)) ++ r')%string ->
                     (fst x = fst y /\ canon (snd x) = canon (snd y)) /\ r = r')
                  (sorted_by key_leb (x :: xs))).
      { eapply Permutation_Forall; [apply sorted_by_perm|].
        eapply Forall_impl; [|exact IH]. intros a Ha b q q' E.
        rewrite !string_app_assoc in E. apply json_string_inj in E. destruct E as [Ek E].
        apply string_app_inv_head in E. apply Ha in E. tauto. }
      destruct (lines_inj _ _ (S level) _ HF (sorted_by key_leb (y :: ys)) _ _
                  ltac:(intros E; apply sorted_by_nil in E; discriminate E)
                  ltac:(intros E; apply sorted_by_nil in E; discriminate E) H)
        as [HF2 Ht].
      apply string_app_inv_head in Ht. injection Ht as Ht. split; [|exact Ht].
      rewrite !canon_dict. f_equal. now apply Forall2_items_eq.
Qed.

Lemma dumps_inj : forall a b, dumps a = dumps b -> canon a = canon b.
Proof.
  intros a b H. unfold dumps in H.
  apply (dumps_at_inj a 0 b EmptyString EmptyString). now rewrite H.
Qed.

(* ------------------------------------------------------------------ *)
(** ** A change of a tracked file *)

Lemma app_inv_same_length :
  forall {A : Type} (a b x y : list A),
    List.length a = List.length b -> a ++ x = b ++ y -> a = b.
Proof.
  induction a as [|h a IH]; intros [|k b] x y Hl H; try discriminate Hl; [reflexivity|].
  simpl in H. injection H as -> H. f_equal. eapply IH; [|exact H]. simpl in Hl. lia.
Qed.

Section ChangedFile.

Variables (env : Env) (fs fs' : tree) (p : path) (c c' : list byte).

Hypothesis read_p : read_bytes fs (joinpath (SOURCE_ROOT env) p) = Ok c.
Hypothesis read_p' : read_bytes fs' (joinpath (SOURCE_ROOT env) p) = Ok c'.

Lemma chunks_lengths :
  forall files chunks chunks',
    (forall q, In q files -> q <> p ->
       read_bytes fs' (joinpath (SOURCE_ROOT env) q)
       = read_bytes fs (joinpath (SOURCE_ROOT env) q)) ->
    mapM (fun q => match read_bytes fs (joinpath (SOURCE_ROOT env) q) with
                   | Ok content => Ok (encode (str_path q) ++ content)
                   | Raise e => Raise e
                   end) files = Ok chunks ->
    mapM (fun q => match read_bytes fs' (joinpath (SOURCE_ROOT env) q) with
                   | Ok content => Ok (encode (str_path q) ++ content)
                   | Raise e => Raise e
                   end) files = Ok chunks' ->
    List.length (List.concat chunks) + count_occ path_eq_dec files p * List.length c'
    = List.length (List.concat chunks') + count_occ path_eq_dec files p * List.length c.
Proof.
  induction files as [|q files IH]; intros chunks chunks' Hs H H'.
  - inv H. inv H'. reflexivity.
  - rewrite mapM_cons in H, H'.
    assert (Hs' : forall q0, In q0 files -> q0 <> p ->
              read_bytes fs' (joinpath (SOURCE_ROOT env) q0)
              = read_bytes fs (joinpath (SOURCE_ROOT env) q0))
      by (intros q0 Hq; apply Hs; now right).
    destruct (path_eq_dec q p) as [->|Hne].
    + rewrite read_p in H. rewrite read_p' in H'.
      match type of H with context [mapM ?f files] =>
        destruct (mapM f files) as [rest|] eqn:E; [|discriminate H] end.
      match type of H' with context [mapM ?f files] =>
        destruct (mapM f files) as [rest'|] eqn:E'; [|discriminate H'] end.
      inv H. inv H'. specialize (IH _ _ Hs' eq_refl eq_refl).
      simpl. destruct (path_eq_dec p p) as [_|N]; [|congruence].
      rewrite !length_app. simpl. lia.
    + rewrite (Hs q (or_introl eq_refl) Hne) in H'.
      destruct (read_bytes fs (joinpath (SOURCE_ROOT env) q)) as [content|]; [|discriminate H].
      match type of H with context [mapM ?f files] =>
        destruct (mapM f files) as [rest|] eqn:E; [|discriminate H] end.
      match type of H' with context [mapM ?f files] =>
        destruct (mapM f files) as [rest'|] eqn:E'; [|discriminate H'] end.
      inv H. inv H'. specialize (IH _ _ Hs' eq_refl eq_refl).
      simpl. destruct (path_eq_dec q p) as [N|_]; [congruence|].
      rewrite !length_app. lia.
Qed.

Lemma chunks_same_length :
  forall files chunks chunks',
    (forall q, In q files -> q <> p ->
       read_bytes fs' (joinpath (SOURCE_ROOT env) q)
       = read_bytes fs (joinpath (SOURCE_ROOT env) q)) ->
    mapM (fun q => match read_bytes fs (joinpath (SOURCE_ROOT env) q) with
                   | Ok content => Ok (encode (str_path q) ++ content)
                   | Raise e => Raise e
                   end) files = Ok chunks ->
    mapM (fun q => match read_bytes fs' (joinpath (SOURCE_ROOT env) q) with
                   | Ok content => Ok (encode (str_path q) ++ content)
                   | Raise e => Raise e
                   end) files = Ok chunks' ->
    In p files ->
    List.length c = List.length c' ->
    List.concat chunks = List.concat chunks' ->
    c = c'.
Proof.
  induction files as [|q files IH]; intros chunks chunks' Hs H H' Hin Hl Hc; [destruct Hin|].
  rewrite mapM_cons in H, H'.
  assert (Hs' : forall q0, In q0 files -> q0 <> p ->
            read_bytes fs' (joinpath (SOURCE_ROOT env) q0)
            = read_bytes fs (joinpath (SOURCE_ROOT env) q0))
    by (intros q0 Hq; apply Hs; now right).
  destruct (path_eq_dec q p) as [->|Hne].
  - rewrite read_p in H. rewrite read_p' in H'.
    match type of H with context [mapM ?f files] =>
      destruct (mapM f files) as [rest|] eqn:E; [|discriminate H] end.
    match type of H' with context [mapM ?f files] =>
      destruct (mapM f files) as [rest'|] eqn:E'; [|discriminate H'] end.
    inv H. inv H'. simpl in Hc. rewrite <- !app_assoc in Hc.
    apply app_inv_head in Hc. eapply app_inv_same_length; eassumption.
  - rewrite (Hs q (or_introl eq_refl) Hne) in H'.
    destruct (read_bytes fs (joinpath (SOURCE_ROOT env) q)) as [content|]; [|discriminate H].
    match type of H with context [mapM ?f files] =>
      destruct (mapM f files) as [rest|] eqn:E; [|discriminate H] end.
    match type of H' with context [mapM ?f files] =>
      destruct (mapM f files) as [rest'|] eqn:E'; [|discriminate H'] end.
    inv H. inv H'. simpl in Hc. apply app_inv_head in Hc.
    destruct Hin as [->|Hin]; [congruence|].
    exact (IH _ _ Hs' eq_refl eq_refl Hin Hl Hc).
Qed.

(** The bytes fed to the hash differ when one file, read several times or
    once, has other bytes. *)
Lemma files_stream_differs :
  forall files h h',
    (forall q, In q files -> q <> p ->
       read_bytes fs' (joinpath (SOURCE_ROOT env) q)
       = read_bytes fs (joinpath (SOURCE_ROOT env) q)) ->
    In p files -> c <> c' ->
    files_stream env fs files = Ok h -> files_stream env fs' files = Ok h' ->
    h <> h'.
Proof.
  intros files h h' Hs Hin Hne H H' E. subst h'.
  unfold files_stream in H, H'. rewrite sorted_paths_idempotent in H, H'.
  rewrite update_with_files_chunks in H, H'.
  match type of H with context [mapM ?f ?l] =>
    destruct (mapM f l) as [chunks|] eqn:Ec; [|discriminate H] end.
  match type of H' with context [mapM ?f ?l] =>
    destruct (mapM f l) as [chunks'|] eqn:Ec'; [|discriminate H'] end.
  inv H. unfold SHA256.new in H'. simpl in H'. injection H' as H'.
  assert (Hs' : forall q, In q (sorted_paths files) -> q <> p ->
            read_bytes fs' (joinpath (SOURCE_ROOT env) q)
            = read_bytes fs (joinpath (SOURCE_ROOT env) q)).
  { intros q Hq. apply Hs.
    eapply Permutation_in; [apply Permutation_sym, sorted_paths_perm|exact Hq]. }
  assert (Hin' : In p (sorted_paths files))
    by (eapply Permutation_in; [apply sorted_paths_perm|exact Hin]).
  pose proof (chunks_lengths _ _ _ Hs' Ec Ec') as Hlen.
  rewrite H' in Hlen.
  assert (Hk : count_occ path_eq_dec (sorted_paths files) p > 0)
    by now apply count_occ_In.
  apply Hne. eapply chunks_same_length; try eassumption; [nia|now symmetry].
Qed.

End ChangedFile.

Lemma calculate_files_checksum_stream :
  forall env fs files,
    calculate_files_checksum env fs files
    = match files_stream env fs files with
      | Ok h => Ok (SHA256.hexdigest_of h)
      | Raise e => Raise e
      end.
Proof. reflexivity. Qed.

Lemma mapM_ok_In :
  forall {A B : Type} (f : A -> res B) l ys a,
    mapM f l = Ok ys -> In a l -> exists y, f a = Ok y.
Proof.
  intros A B f l. induction l as [|x l IH]; intros ys a H Hin; [destruct Hin|].
  rewrite mapM_cons in H. destruct (f x) as [y|] eqn:E; [|discriminate H].
  destruct Hin as [<-|Hin]; [eauto|].
  destruct (mapM f l) as [rest|]; [|discriminate H]. eapply IH; eauto.
Qed.

Lemma mapM_pointwise :
  forall {A B C : Type} (f f' : A -> res B) (g : B -> C) l ys ys',
    mapM f l = Ok ys -> mapM f' l = Ok ys' -> map g ys = map g ys' ->
    forall a, In a l -> exists y y', f a = Ok y /\ f' a = Ok y' /\ g y = g y'.
Proof.
  intros A B C f f' g l. induction l as [|x l IH]; intros ys ys' H H' Hg a Hin;
    [destruct Hin|].
  rewrite mapM_cons in H, H'.
  destruct (f x) as [y|] eqn:E; [|discriminate H].
  destruct (f' x) as [y'|] eqn:E'; [|discriminate H'].
  destruct (mapM f l) as [rest|]; [|discriminate H].
  destruct (mapM f' l) as [rest'|]; [|discriminate H'].
  inv H. inv H'. simpl in Hg. injection Hg as Hy Hrest.
  destruct Hin as [<-|Hin]; [eauto|]. eapply IH; eauto.
Qed.

(** The fields of a fingerprint that are read back from its serialization. *)
Lemma canon_info_fields :
  forall n u c d b a o n' u' c' d' b' a' o',
    canon (JDict ([("name", n); ("used_files", u); ("files_checksum", c);
                   ("dependency_steps", d); ("base_step", b);
                   ("additional_settings", a)]
                  ++ match o with Some x => [("docker_image", x)] | None => [] end))
    = canon (JDict ([("name", n'); ("used_files", u'); ("files_checksum", c');
                     ("dependency_steps", d'); ("base_step", b');
                     ("additional_settings", a')]
                    ++ match o' with Some x => [("docker_image", x)] | None => [] end)) ->
    canon c = canon c' /\ canon d = canon d' /\ canon b = canon b'.
Proof.
  intros n u c d b a o n' u' c' d' b' a' o' H.
  destruct o, o'; cbn in H; inv H; auto.
Qed.

Lemma overall_info_shape :
  forall env fs s info,
    overall_info env fs s = Ok info ->
    exists paths checksum deps base n u a o,
      tracked_file_paths env fs s = Ok paths
      /\ calculate_files_checksum env fs paths = Ok checksum
      /\ mapM (overall_info env fs) (_dependency_steps s) = Ok deps
      /\ match _base_step s with
         | Some b => overall_info env fs b = Ok base
         | None => base = JNull
         end
      /\ info = JDict ([("name", n); ("used_files", u); ("files_checksum", JStr checksum);
                        ("dependency_steps", JList deps); ("base_step", base);
                        ("additional_settings", a)]
                       ++ match o with Some x => [("docker_image", x)] | None => [] end).
Proof.
  intros env fs s info H. rewrite overall_info_eq in H.
  destruct (tracked_file_paths env fs s) as [paths|] eqn:Et; [|discriminate H].
  destruct (calculate_files_checksum env fs paths) as [checksum|] eqn:Ec; [|discriminate H].
  destruct (mapM (overall_info env fs) (_dependency_steps s)) as [deps|] eqn:Ed;
    [|discriminate H].
  destruct (_base_step s) as [b|].
  - destruct (overall_info env fs b) as [base|] eqn:Eb; [|discriminate H]. inv H.
    exists paths, checksum, deps, base. do 3 eexists.
    exists (option_map as_dict (base_docker_image_with s (id_of (name b) (dumps base)))).
    do 4 (split; [first [assumption|reflexivity]|]).
    destruct (base_docker_image_with s (id_of (name b) (dumps base))); reflexivity.
  - inv H. exists paths, checksum, deps, JNull. do 3 eexists.
    exists (option_map as_dict (base_docker_image_with s EmptyString)).
    do 4 (split; [first [assumption|reflexivity]|]).
    destruct (base_docker_image_with s EmptyString); reflexivity.
Qed.

Section Propagation.

Variables (env : Env) (fs fs' : tree).

(** Two fingerprints of a step with the same serialization: the
    fingerprints of the steps it is built on have the same serialization. *)
Lemma canon_info_upstream :
  forall s info info',
    overall_info env fs s = Ok info -> overall_info env fs' s = Ok info' ->
    canon info = canon info' ->
    forall u, In u (upstream_steps s) ->
      exists iu iu',
        overall_info env fs u = Ok iu /\ overall_info env fs' u = Ok iu'
        /\ canon iu = canon iu'.
Proof.
  induction s as [s IHd IHb] using BuildStep_induction.
  intros info info' H H' Hc u Hu.
  destruct (overall_info_shape _ _ _ _ H)
    as (paths & ck & deps & base & n & us & a & o & _ & _ & Hd & Hb & ->).
  destruct (overall_info_shape _ _ _ _ H')
    as (paths' & ck' & deps' & base' & n' & us' & a' & o' & _ & _ & Hd' & Hb' & ->).
  apply canon_info_fields in Hc. destruct Hc as (_ & Hcd & Hcb).
  cbn [canon] in Hcd. injection Hcd as Hcd.
  apply In_upstream_steps in Hu. destruct Hu as [(d & Hin & Hu)|(b & Eb & Hu)].
  - destruct (mapM_pointwise _ _ canon _ _ _ Hd Hd' Hcd d Hin) as (y & y' & Hy & Hy' & Hyc).
    unfold all_steps in Hu. apply in_app_iff in Hu. destruct Hu as [Hu|[<-|[]]]; [|eauto].
    rewrite Forall_forall in IHd. exact (IHd d Hin y y' Hy Hy' Hyc u Hu).
  - rewrite Eb in Hb, Hb'.
    unfold all_steps in Hu. apply in_app_iff in Hu. destruct Hu as [Hu|[<-|[]]]; [|eauto].
    exact (IHb b Eb base base' Hb Hb' Hcb u Hu).
Qed.

(** Steps whose tracked inputs are the same, as are those of the steps they
    are built on, have the same fingerprint. *)
Lemma overall_info_unchanged :
  forall s,
    (forall u, In u (all_steps s) -> unchanged_inputs env fs fs' u) ->
    overall_info env fs' s = overall_info env fs s.
Proof.
  induction s as [s IHd IHb] using BuildStep_induction. intros Hs.
  apply overall_info_same_inputs.
  destruct (Hs s (all_steps_self s)) as [Ht Hr].
  split; [exact Ht|]. split; [exact Hr|]. split.
  - apply mapM_ext_in. intros d Hd. rewrite Forall_forall in IHd. apply IHd; [exact Hd|].
    intros u Hu. apply Hs, all_steps_upstream, In_upstream_steps. left. eauto.
  - intros b Eb. apply IHb; [exact Eb|].
    intros u Hu. apply Hs, all_steps_upstream, In_upstream_steps. right. eauto.
Qed.

End Propagation.

Lemma files_stream_reads :
  forall env fs files h p,
    files_stream env fs files = Ok h -> In p files ->
    exists c, read_bytes fs (joinpath (SOURCE_ROOT env) p) = Ok c.
Proof.
  intros env fs files h p H Hin. unfold files_stream in H.
  rewrite sorted_paths_idempotent, update_with_files_chunks in H.
  match type of H with context [mapM ?f ?l] =>
    destruct (mapM f l) as [chunks|] eqn:Ec; [|discriminate H] end.
  assert (Hin' : In p (sorted_paths files))
    by (eapply Permutation_in; [apply sorted_paths_perm|exact Hin]).
  destruct (mapM_ok_In _ _ _ _ Ec Hin') as [y Hy]. simpl in Hy.
  destruct (read_bytes fs (joinpath (SOURCE_ROOT env) p)) as [c|]; [eauto|discriminate Hy].
Qed.

(** C9, as amended.  A step [A] that [B] is built on, as a dependency step
    or as the base step, directly or through other steps, tracks the same
    paths in two source trees, and one tracked file differs in its bytes
    while the other tracked files of [A] do not.  As long as
    SHA-256 tells apart the two byte streams of the tracked files of [A] and
    the two serializations of the fingerprint of [B], the checksum of the
    files of [A], the fingerprint of [A] and the identity of [B] are not
    the same in the two trees, whatever the tracked files of [B] are.  The
    identity of a step [C] is the same in the two trees when its tracked
    inputs and those of the steps it is built on are. *)
Theorem upstream_change_changes_id :
  forall env fs fs' A B C paths p,
    In A (upstream_steps B) ->
    changed_file env fs fs' A paths p ->
    (forall h h',
        files_stream env fs paths = Ok h -> files_stream env fs' paths = Ok h' ->
        sha256_distinguishes h h') ->
    (forall t t',
        overall_info_str env fs B = Ok t -> overall_info_str env fs' B = Ok t' ->
        sha256_distinguishes (encode t) (encode t')) ->
    (forall u, In u (all_steps C) -> unchanged_inputs env fs fs' u) ->
    (forall c, calculate_files_checksum env fs paths = Ok c ->
               calculate_files_checksum env fs' paths <> Ok c)
    /\ (forall a, overall_info env fs A = Ok a -> overall_info env fs' A <> Ok a)
    /\ (forall i, id env fs B = Ok i -> id env fs' B <> Ok i)
    /\ id env fs' C = id env fs C.
Proof.
  intros env fs fs' A B C paths p HAB [Hp Hp' Hin Hbytes Honly] Hsha HshaB HC.
  assert (Hck : forall c, calculate_files_checksum env fs paths = Ok c ->
                          calculate_files_checksum env fs' paths <> Ok c).
  { intros ck H H'. rewrite calculate_files_checksum_stream in H, H'.
    destruct (files_stream env fs paths) as [h|] eqn:Eh; [|discriminate H].
    destruct (files_stream env fs' paths) as [h'|] eqn:Eh'; [|discriminate H'].
    destruct (files_stream_reads _ _ _ _ p Eh Hin) as [c Hc].
    destruct (files_stream_reads _ _ _ _ p Eh' Hin) as [c' Hc'].
    assert (Hne : c <> c') by (intros ->; apply Hbytes; congruence).
    apply (Hsha h h' eq_refl eq_refl); [|congruence].
    exact (files_stream_differs env fs fs' p c c' Hc Hc' paths h h' Honly Hin Hne Eh Eh'). }
  assert (Hcanon : forall a a', overall_info env fs A = Ok a ->
                                overall_info env fs' A = Ok a' -> canon a <> canon a').
  { intros a a' H H' Hc.
    destruct (overall_info_shape _ _ _ _ H)
      as (ps & ck & deps & base & n & us & st & o & Et & Ec & _ & _ & ->).
    destruct (overall_info_shape _ _ _ _ H')
      as (ps' & ck' & deps' & base' & n' & us' & st' & o' & Et' & Ec' & _ & _ & ->).
    apply canon_info_fields in Hc. destruct Hc as (Hc & _ & _). cbn [canon] in Hc.
    injection Hc as <-.
    assert (ps = paths) by congruence. assert (ps' = paths) by congruence. subst ps ps'.
    exact (Hck ck Ec Ec'). }
  split; [exact Hck|]. split; [|split].
  - intros a H H'. now apply (Hcanon a a H H').
  - intros i H H'. unfold id in H, H'.
    destruct (overall_info_str env fs B) as [t|] eqn:Et; [|discriminate H].
    destruct (overall_info_str env fs' B) as [t'|] eqn:Et'; [|discriminate H'].
    inv H. injection H' as H'. rewrite !id_of_eq in H'.
    do 2 apply string_app_inv_head in H'.
    apply (HshaB t t' eq_refl eq_refl); [|congruence].
    intros He. apply encode_inj in He. subst t'.
    unfold overall_info_str in Et, Et'.
    destruct (overall_info env fs B) as [b|] eqn:Eb; [|discriminate Et].
    destruct (overall_info env fs' B) as [b'|] eqn:Eb'; [|discriminate Et'].
    inv Et. injection Et' as Et'. apply dumps_inj in Et'.
    destruct (canon_info_upstream env fs fs' B b b' Eb Eb' (eq_sym Et') A HAB)
      as (a & a' & Ha & Ha' & Hc).
    exact (Hcanon a a' Ha Ha' Hc).
  - unfold id, overall_info_str. now rewrite (overall_info_unchanged env fs fs' C HC).
Qed.

Lemma upstream_change_changes_id_witness :
  exists i i' j,
    id (example_env all_succeed) example_tree step_B = Ok i
    /\ id (example_env all_succeed) (example_tree_with "one") step_B = Ok i'
    /\ i <> i'
    /\ id (example_env all_succeed) example_tree step_C = Ok j
    /\ id (example_env all_succeed) (example_tree_with "one") step_C = Ok j.
Proof.
  destruct (upstream_change_changes_id (example_env all_succeed) example_tree
              (example_tree_with "one") step_A step_B step_C
              [[".dockerignore"]; ["steps"; "a.sh"]; ["x"]] ["x"])
    as (_ & _ & HB & HC).
  - simpl. now left.
  - constructor.
    + vm_compute. reflexivity.
    + vm_compute. reflexivity.
    + simpl. tauto.
    + vm_compute. intros H. discriminate H.
    + intros q [<-|[<-|[<-|[]]]] Hne; try (vm_compute; reflexivity). congruence.
  - intros h h' H H' _. vm_compute in H, H'. inv H. inv H'.
    vm_compute. intros H. discriminate H.
  - intros t t' H H' _. vm_compute in H, H'. inv H. inv H'.
    vm_compute. intros H. discriminate H.
  - intros u [<-|[]]. split; [vm_compute; reflexivity|].
    intros paths p H Hin. vm_compute in H. inv H.
    destruct Hin as [<-|[<-|[<-|[]]]]; vm_compute; reflexivity.
  - destruct (id (example_env all_succeed) example_tree step_B) as [i|] eqn:Ei;
      [|vm_compute in Ei; discriminate Ei].
    destruct (id (example_env all_succeed) (example_tree_with "one") step_B) as [i'|] eqn:Ei';
      [|vm_compute in Ei'; discriminate Ei'].
    destruct (id (example_env all_succeed) example_tree step_C) as [j|] eqn:Ej;
      [|vm_compute in Ej; discriminate Ej].
    exists i, i', j. split; [reflexivity|]. split; [reflexivity|].
    split; [intros ->; now apply (HB i')|]. split; [reflexivity|exact HC].
Defined.

(** C9, as stated, fails for a sibling step that tracks the changed file.
    Every step tracks [.dockerignore]: when its content changes, and the
    paths that the steps track stay the same, the id of [B], which depends
    on [A], changes, and so does the id of [C], which does not depend on
    [A] and whose other tracked files [z] and [steps/c.py] are untouched. *)
Lemma sibling_id_changes_with_dockerignore :
  exists paths i i' j j',
    changed_file (example_env all_succeed) example_tree example_tree_ignoring_tmp
      step_A paths [".dockerignore"]
    /\ In step_A (upstream_steps step_B)
    /\ ~ In step_A (all_steps step_C)
    /\ tracked_file_paths (example_env all_succeed) example_tree_ignoring_tmp step_C
       = tracked_file_paths (example_env all_succeed) example_tree step_C
    /\ (forall p, In p [["z"]; ["steps"; "c.py"]] ->
          read_bytes example_tree_ignoring_tmp (joinpath ["/"; "src"] p)
          = read_bytes example_tree (joinpath ["/"; "src"] p))
    /\ id (example_env all_succeed) example_tree step_B = Ok i
    /\ id (example_env all_succeed) example_tree_ignoring_tmp step_B = Ok i'
    /\ i <> i'
    /\ id (example_env all_succeed) example_tree step_C = Ok j
    /\ id (example_env all_succeed) example_tree_ignoring_tmp step_C = Ok j'
    /\ j <> j'.
Proof.
  exists [[".dockerignore"]; ["steps"; "a.sh"]; ["x"]].
  do 4 eexists.
  split.
  { constructor.
    - vm_compute. reflexivity.
    - vm_compute. reflexivity.
    - simpl. tauto.
    - vm_compute. intros H. discriminate H.
    - intros q [<-|[<-|[<-|[]]]] Hne; try (vm_compute; reflexivity). congruence. }
  split; [simpl; now left|].
  split; [intros [H|[]]; apply (f_equal name) in H; discriminate H|].
  split; [vm_compute; reflexivity|].
  split; [intros p [<-|[<-|[]]]; vm_compute; reflexivity|].
  split; [vm_compute; reflexivity|].
  split; [vm_compute; reflexivity|].
  split; [intros H; discriminate H|].
  split; [vm_compute; reflexivity|].
  split; [vm_compute; reflexivity|].
  intros H. discriminate H.
Qed.


(* ================================================================== *)
(** * Further properties of the engine *)

(* ------------------------------------------------------------------ *)
(** ** The checksum of a list of files *)

(** X1. [calculate_files_checksum] sorts the list it is given: the checksum
    (or the error) is the same for every order in which the same paths are
    listed. *)
Theorem calculate_files_checksum_any_order :
  forall env fs files files',
    Permutation files files' ->
    calculate_files_checksum env fs files' = calculate_files_checksum env fs files.
Proof.
  intros env fs files files' H. unfold calculate_files_checksum.
  now rewrite (sorted_paths_permutation files files' H).
Qed.

Lemma calculate_files_checksum_any_order_witness :
  calculate_files_checksum (example_env all_succeed) example_tree [["y"]; ["x"]; ["z"]]
  = calculate_files_checksum (example_env all_succeed) example_tree [["x"]; ["z"]; ["y"]].
Proof.
  apply calculate_files_checksum_any_order.
  apply perm_trans with [["x"]; ["y"]; ["z"]].
  - apply perm_skip, perm_swap.
  - apply perm_swap.
Defined.

Lemma mapM_raise_In :
  forall {A B : Type} (f : A -> res B) l a e,
    In a l -> f a = Raise e -> exists e', mapM f l = Raise e'.
Proof.
  intros A B f l a e. induction l as [|x l IH]; intros Hin Ha; [destruct Hin|].
  rewrite mapM_cons. destruct Hin as [->|Hin].
  - rewrite Ha. eauto.
  - destruct (f x); [|eauto]. destruct (IH Hin Ha) as [e' ->]. eauto.
Qed.

(** X2. When one of the listed paths is not a file of the source tree
    (nothing is there, or a directory), [calculate_files_checksum] raises:
    no checksum of the other files is returned. *)
Theorem calculate_files_checksum_unreadable :
  forall env fs files p,
    In p files ->
    (forall content, lookup fs (joinpath (SOURCE_ROOT env) p) <> Some (File content)) ->
    exists e, calculate_files_checksum env fs files = Raise e.
Proof.
  intros env fs files p Hin Hp. rewrite calculate_files_checksum_chunks.
  unfold files_checksum_spec.
  assert (Hin' : In p (sorted_paths files))
    by (eapply Permutation_in; [apply sorted_paths_perm|exact Hin]).
  assert (He : exists e, read_bytes fs (joinpath (SOURCE_ROOT env) p) = Raise e).
  { unfold read_bytes. destruct (lookup fs (joinpath (SOURCE_ROOT env) p)) as [[c|]|];
      [now destruct (Hp c)|eauto|eauto]. }
  destruct He as [e He].
  match goal with |- context [mapM ?f ?l] =>
    destruct (mapM_raise_In f l p e Hin') as [e' ->] end.
  - now rewrite He.
  - eauto.
Qed.

Lemma calculate_files_checksum_unreadable_witness :
  exists e,
    calculate_files_checksum (example_env all_succeed) example_tree [["x"]; ["steps"]]
    = Raise e.
Proof.
  apply (calculate_files_checksum_unreadable _ _ _ ["steps"]).
  - simpl. tauto.
  - intros content H. vm_compute in H. discriminate H.
Defined.


(* ------------------------------------------------------------------ *)
(** ** The tracked files and the ignore file *)

(** X3. Without a file [.dockerignore] at the source root (nothing there,
    or a directory), no step has tracked files, a fingerprint or an id:
    all three raise, whatever the step tracks, and [run] raises the error of
    [id] before it starts a process or touches the build root. *)
Theorem no_dockerignore_no_id :
  forall env fs s,
    (forall content,
        lookup fs (SOURCE_ROOT env ++ [".dockerignore"]) <> Some (File content)) ->
    (exists e, tracked_file_paths env fs s = Raise e)
    /\ (exists e, overall_info env fs s = Raise e)
    /\ exists e, id env fs s = Raise e
         /\ forall br w, run env fs br s w = (Raise e, w).
Proof.
  intros env fs s H.
  assert (Ht : exists e, tracked_file_paths env fs s = Raise e).
  { unfold tracked_file_paths.
    destruct (resolve_globs env fs (_tracked_file_globs s) []) as [found|e]; [|eauto].
    change (joinpath (SOURCE_ROOT env) [".dockerignore"])
      with (SOURCE_ROOT env ++ [".dockerignore"]).
    unfold read_text, read_bytes.
    destruct (lookup fs (SOURCE_ROOT env ++ [".dockerignore"])) as [[c|]|];
      [now destruct (H c)|eauto|eauto]. }
  assert (Ho : exists e, overall_info env fs s = Raise e).
  { destruct Ht as [e Ht]. rewrite overall_info_eq, Ht. eauto. }
  split; [exact Ht|]. split; [exact Ho|].
  destruct Ho as [e Ho]. exists e.
  assert (Hi : id env fs s = Raise e) by (unfold id, overall_info_str; now rewrite Ho).
  split; [exact Hi|].
  intros br w. rewrite run_eq. unfold _check_for_cached_result.
  unfold mbind at 1. unfold mbind at 1. unfold lift at 1. now rewrite Hi.
Qed.

Lemma no_dockerignore_no_id_witness :
  exists e,
    id (example_env all_succeed) [(["/"; "src"; "x"], File (encode "1"))] step_A = Raise e
    /\ forall br w,
         run (example_env all_succeed) [(["/"; "src"; "x"], File (encode "1"))] br step_A w
         = (Raise e, w).
Proof.
  apply (no_dockerignore_no_id (example_env all_succeed)
           [(["/"; "src"; "x"], File (encode "1"))] step_A).
  intros content H. vm_compute in H. discriminate H.
Defined.

Lemma exclude_lines_In :
  forall env ls found excluded,
    exclude_lines env ls found = Ok excluded ->
    forall x,
      In x excluded
      <-> In x found
          /\ exists line pattern,
               In line ls /\ line <> EmptyString
               /\ dockerignore_pattern line = Ok pattern
               /\ path_match env x pattern = true.
Proof.
  intros env ls found. induction ls as [|line ls IH]; intros excluded H x; simpl in H.
  - inv H. split; [intros []|]. intros (_ & l & p & [] & _).
  - destruct (String.eqb_spec line EmptyString) as [->|Hne].
    + rewrite (IH _ H x). split.
      * intros (Hf & l & p & Hl & R). split; [exact Hf|]. exists l, p. split; [now right|exact R].
      * intros (Hf & l & p & [<-|Hl] & Hn & R); [congruence|].
        split; [exact Hf|]. exists l, p. auto.
    + destruct (dockerignore_pattern line) as [pattern|] eqn:Ep; [|discriminate H].
      destruct (exclude_lines env ls found) as [more|]; [|discriminate H].
      inv H. rewrite in_app_iff, filter_In, (IH _ eq_refl x). split.
      * intros [[Hf Hm]|(Hf & l & p & Hl & R)].
        -- split; [exact Hf|]. exists line, pattern. repeat split; auto. now left.
        -- split; [exact Hf|]. exists l, p. split; [now right|exact R].
      * intros (Hf & l & p & [<-|Hl] & Hn & Hp & Hm).
        -- left. split; [exact Hf|]. congruence.
        -- right. split; [exact Hf|]. exists l, p. auto.
Qed.

(** X4. A tracked file is the ignore file itself, or it is a path that no
    non-empty line of [.dockerignore] matches and that does not lie in a
    directory, found by the globs of the step, that such a line matches. *)
Theorem tracked_files_are_not_ignored :
  forall env fs s l found content,
    tracked_file_paths env fs s = Ok l ->
    resolve_globs env fs (_tracked_file_globs s) [] = Ok found ->
    read_text fs (SOURCE_ROOT env ++ [".dockerignore"]) = Ok content ->
    forall p, In p l ->
      p = [".dockerignore"]
      \/ (In (SOURCE_ROOT env ++ p) found
          /\ forall line pattern,
               In line (splitlines content) -> line <> EmptyString ->
               dockerignore_pattern line = Ok pattern ->
               path_match env (SOURCE_ROOT env ++ p) pattern = false
               /\ forall d,
                    In d found -> is_dir fs d = true ->
                    path_match env d pattern = true ->
                    ~ In (SOURCE_ROOT env ++ p) (glob env fs d "**/*")).
Proof.
  intros env fs s l found content Hl Hf Hc p Hp.
  destruct (tracked_file_paths_ok env fs s l Hl)
    as (found' & content' & excluded & Ef & Er & Ee & ->).
  assert (found' = found) by congruence. assert (content' = content) by congruence.
  subst found' content'.
  apply (Permutation_in _ (Permutation_sym (sorted_paths_perm _))) in Hp.
  apply in_map_iff in Hp. destruct Hp as (q & <- & Hq).
  apply in_app_iff in Hq. destruct Hq as [Hq|[<-|[]]].
  2: { left. apply skipn_app_exact. }
  right. apply filter_In in Hq. destruct Hq as [Hq _].
  apply filter_In in Hq. destruct Hq as [Hq Hx].
  assert (Hpre : is_prefix (SOURCE_ROOT env) q = true).
  { destruct (resolve_globs_members _ _ _ _ _ Ef q Hq) as [[]|[_ Hpre]]. exact Hpre. }
  pose proof (relative_to_app _ _ _ (relative_to_prefix _ _ Hpre)) as E.
  rewrite <- E. split; [exact Hq|].
  apply negb_true_iff in Hx.
  assert (Hnot : ~ In q (exclude_children env fs excluded)).
  { intros Hin. apply mem_path_In in Hin. congruence. }
  intros line pattern Hline Hne Hpat. split.
  - destruct (path_match env q pattern) eqn:Em; [|reflexivity]. exfalso.
    apply Hnot, exclude_children_In. left.
    apply (exclude_lines_In _ _ _ _ Ee). split; [exact Hq|]. exists line, pattern. auto.
  - intros d Hd Hdir Hm Hg. apply Hnot, exclude_children_In. right.
    exists d. split; [|split; assumption].
    apply (exclude_lines_In _ _ _ _ Ee). split; [exact Hd|]. exists line, pattern. auto.
Qed.

Lemma tracked_files_are_not_ignored_witness :
  tracked_file_paths (example_env all_succeed) example_tree step_T
  = Ok [[".dockerignore"]; ["steps"; "a.sh"]; ["y"]]
  /\ forall p,
    In p [[".dockerignore"]; ["steps"; "a.sh"]; ["y"]] ->
    p = [".dockerignore"]
    \/ (In (["/"; "src"] ++ p)
          [["/"; "src"; "steps"]; ["/"; "src"; "build"; "x"]; ["/"; "src"; "build"];
           ["/"; "src"; "y"]; ["/"; "src"; "steps"; "a.sh"]]
        /\ forall line pattern,
             In line (splitlines ("build" ++ newline)) -> line <> EmptyString ->
             dockerignore_pattern line = Ok pattern ->
             literal_match (["/"; "src"] ++ p) pattern = false
             /\ forall d,
                  In d [["/"; "src"; "steps"]; ["/"; "src"; "build"; "x"];
                        ["/"; "src"; "build"]; ["/"; "src"; "y"];
                        ["/"; "src"; "steps"; "a.sh"]] ->
                  is_dir example_tree d = true ->
                  literal_match d pattern = true ->
                  ~ In (["/"; "src"] ++ p)
                       (glob (example_env all_succeed) example_tree d "**/*")).
Proof.
  split; [vm_compute; reflexivity|].
  apply (tracked_files_are_not_ignored (example_env all_succeed) example_tree step_T).
  - vm_compute. reflexivity.
  - vm_compute. reflexivity.
  - vm_compute. reflexivity.
Defined.


(* ------------------------------------------------------------------ *)
(** ** The shape of an id *)

(** X5. The fingerprint and the id of a step are made of its name, its
    tracked-file globs and script, its base, its dependency steps and its
    settings.  The class of the step, and whether it is a dependency step,
    is cacheable or asks for no cache in CI/CD, have no part in them: two
    steps that differ in these only have the same id, hence the same output
    directory. *)
Theorem id_ignores_flags :
  forall env fs s t,
    is_script s = is_script t ->
    name s = name t ->
    TRACKED_FILE_GLOBS s = TRACKED_FILE_GLOBS t ->
    _script_path s = _script_path t ->
    base_step s = base_step t ->
    _dependency_steps s = _dependency_steps t ->
    _additional_settings s = _additional_settings t ->
    overall_info env fs s = overall_info env fs t
    /\ id env fs s = id env fs t.
Proof.
  intros env fs s t H1 H2 H3 H4 H5 H6 H7.
  assert (Ho : overall_info env fs s = overall_info env fs t).
  { rewrite (overall_info_eq env fs s), (overall_info_eq env fs t).
    unfold tracked_file_paths, _tracked_file_globs, _base_step, base_docker_image_with.
    rewrite H1, H2, H3, H4, H5, H6, H7. reflexivity. }
  split; [exact Ho|]. unfold id, overall_info_str. now rewrite Ho, H2.
Qed.

Lemma id_ignores_flags_witness :
  id (example_env all_succeed) example_tree step_A
  = id (example_env all_succeed) example_tree step_A_flagged.
Proof.
  apply (id_ignores_flags (example_env all_succeed) example_tree step_A step_A_flagged);
    reflexivity.
Defined.

Lemma hex_of_length : forall digits n, String.length (hex_of digits n) = digits.
Proof.
  induction digits as [|d IH]; intros n; simpl; [reflexivity|].
  rewrite string_app_length, IH. simpl. lia.
Qed.

Lemma str_join_hex_length :
  forall l, String.length (str_join EmptyString (map (hex_of 8) l)) = 8 * List.length l.
Proof.
  induction l as [|x l IH]; [reflexivity|].
  destruct l as [|y l].
  - change (String.length (hex_of 8 x) = 8). apply hex_of_length.
  - change (String.length (hex_of 8 x ++ EmptyString
                           ++ str_join EmptyString (map (hex_of 8) (y :: l)))%string
            = 8 * List.length (x :: y :: l)).
    rewrite !string_app_length, hex_of_length, IH. simpl. lia.
Qed.

Lemma hexdigest_of_length : forall msg, String.length (SHA256.hexdigest_of msg) = 64.
Proof.
  intros msg. unfold SHA256.hexdigest_of, SHA256.digest_words.
  destruct (SHA256.blocks _ _ _) as [[[[[[[a b] c] d] e] f] g] h].
  now rewrite str_join_hex_length.
Qed.

Lemma lower_char_idempotent : forall c, lower_char (lower_char c) = lower_char c.
Proof. intros c. destruct c as [[] [] [] [] [] [] [] []]; reflexivity. Qed.

Lemma lower_idempotent : forall s, lower (lower s) = lower s.
Proof.
  induction s as [|c s IH]; simpl; [reflexivity|]. now rewrite lower_char_idempotent, IH.
Qed.

Lemma lower_length : forall s, String.length (lower s) = String.length s.
Proof. induction s as [|c s IH]; simpl; [reflexivity|]. now rewrite IH. Qed.

Lemma string_app_inv_same_length :
  forall a b x y : string,
    (a ++ x = b ++ y)%string -> String.length x = String.length y -> a = b /\ x = y.
Proof.
  induction a as [|c a IH]; intros [|d b] x y H Hl; simpl in H.
  - auto.
  - subst x. simpl in Hl. rewrite string_app_length in Hl. lia.
  - subst y. simpl in Hl. rewrite string_app_length in Hl. lia.
  - injection H as -> H. destruct (IH _ _ _ H Hl) as [-> ->]. auto.
Qed.

(** X6. An id is in lower case and is 66 characters longer than the name of
    the step: the name, two underscores and the 64 hexadecimal digits of
    the digest.  The lower-cased name is read back from it: steps with the
    same id have the same name, up to the case of letters. *)
Theorem id_shape :
  forall env fs s i,
    id env fs s = Ok i ->
    String.length i = String.length (name s) + 66
    /\ lower i = i
    /\ forall t, id env fs t = Ok i -> lower (name t) = lower (name s).
Proof.
  intros env fs s i H. unfold id in H.
  destruct (overall_info_str env fs s) as [str|] eqn:Es; [|discriminate H].
  injection H as <-. split; [|split].
  - rewrite id_of_eq, !string_app_length, lower_length, hexdigest_of_length. simpl. lia.
  - now rewrite id_of_eq, !lower_app, lower_idempotent, lower_hexdigest.
  - intros t H. unfold id in H.
    destruct (overall_info_str env fs t) as [str'|]; [|discriminate H].
    injection H as H1. rewrite !id_of_eq in H1.
    rewrite <- !(string_app_assoc _ "__") in H1.
    apply string_app_inv_same_length in H1; [|now rewrite !hexdigest_of_length].
    destruct H1 as [Hn _].
    apply (string_app_inv_same_length _ _ "__" "__" Hn eq_refl).
Qed.

Lemma id_shape_witness :
  exists i,
    id (example_env all_succeed) example_tree step_A = Ok i
    /\ String.length i = 67
    /\ lower i = i.
Proof.
  eexists. split; [vm_compute; reflexivity|].
  match goal with |- String.length ?i = _ /\ _ =>
    destruct (id_shape (example_env all_succeed) example_tree step_A i) as (Hl & Hc & _)
  end.
  - vm_compute. reflexivity.
  - split; [exact Hl|exact Hc].
Defined.


(* ------------------------------------------------------------------ *)
(** ** The environment of a command run on the host *)

Lemma env_get_app :
  forall a b n,
    env_get (a ++ b) n
    = match env_get b n with
      | Some v => Some v
      | None => env_get a n
      end.
Proof.
  induction a as [|[k v] a IH]; intros b n; simpl.
  - now destruct (env_get b n).
  - rewrite IH. destruct (env_get b n); reflexivity.
Qed.

Lemma env_get_settings_none :
  forall settings n,
    (forall v, ~ In (n, Some v) settings) -> env_get (settings_env settings) n = None.
Proof.
  induction settings as [|[k [v|]] settings IH]; intros n H; simpl.
  - reflexivity.
  - rewrite IH by (intros v' Hin; apply (H v'); now right).
    destruct (String.eqb_spec k n) as [->|]; [|reflexivity].
    exfalso. apply (H v). now left.
  - apply IH. intros v' Hin. apply (H v'). now right.
Qed.

Lemma env_get_settings_some :
  forall settings n v,
    NoDup (map fst settings) -> In (n, Some v) settings ->
    env_get (settings_env settings) n = Some v.
Proof.
  induction settings as [|[k o] settings IH]; intros n v Hnd Hin; [destruct Hin|].
  simpl in Hnd. inv Hnd. destruct Hin as [E|Hin].
  - inv E. simpl. rewrite env_get_settings_none.
    + now rewrite String.eqb_refl.
    + intros v' Hin. apply H1. apply in_map_iff. now exists (n, Some v').
  - destruct o as [v0|]; simpl; rewrite (IH n v H2 Hin); reflexivity.
Qed.

Lemma env_get_one :
  forall k v n, env_get [(k, v)] n = if (n =? k)%string then Some v else None.
Proof. intros k v n. simpl. now rewrite String.eqb_sym. Qed.

Lemma local_env_get :
  forall settings out src (cicd : bool) n,
    env_get ([("STEP_OUTPUT_PATH", out)] ++ settings_env settings
             ++ [("SOURCE_ROOT", src)] ++ (if cicd then [("IN_CICD", "1")] else [])) n
    = if cicd && (n =? "IN_CICD")%string then Some "1"
      else if (n =? "SOURCE_ROOT")%string then Some src
      else match env_get (settings_env settings) n with
           | Some v => Some v
           | None => if (n =? "STEP_OUTPUT_PATH")%string then Some out else None
           end.
Proof.
  intros settings out src cicd n. rewrite !env_get_app, !env_get_one.
  assert (E : env_get (if cicd then [("IN_CICD", "1")] else []) n
              = if cicd && (n =? "IN_CICD")%string then Some "1" else None).
  { destruct cicd; [apply env_get_one|reflexivity]. }
  rewrite E. destruct (cicd && (n =? "IN_CICD")%string); [reflexivity|].
  destruct (n =? "SOURCE_ROOT")%string; reflexivity.
Qed.

(** X7. The command of a step run on the host gets the working directory
    and the variable [SOURCE_ROOT] of the isolated source root, also when a
    setting has that name.  A setting with a value is passed as a variable
    of its name, a setting named [STEP_OUTPUT_PATH] thus replacing the path
    of the output directory; a setting without a value is not passed. *)
Theorem _run_locally_environment :
  forall env fs br s cmd i w,
    _get_command_line_args env fs br s = Ok cmd ->
    id env fs s = Ok i ->
    exists vars r w',
      _run_locally env fs br s w = (r, w')
      /\ trace w' = trace w ++ [Call cmd vars (Some (str_path (_source_root env br i)))]
      /\ env_get vars "SOURCE_ROOT" = Some (str_path (_source_root env br i))
      /\ (IN_CICD env = true -> env_get vars "IN_CICD" = Some "1")
      /\ (forall n v,
            NoDup (map fst (_additional_settings s)) ->
            In (n, Some v) (_additional_settings s) ->
            n <> "SOURCE_ROOT" -> (IN_CICD env = true -> n <> "IN_CICD") ->
            env_get vars n = Some v)
      /\ (forall n,
            (forall v, ~ In (n, Some v) (_additional_settings s)) ->
            n <> "SOURCE_ROOT" -> n <> "IN_CICD" ->
            env_get vars n
            = if (n =? "STEP_OUTPUT_PATH")%string
              then Some (str_path (_temp_output_directory env br i))
              else None).
Proof.
  intros env fs br s cmd i w Hc Hi.
  unfold _run_locally. unfold mbind at 1, lift at 1. rewrite Hc.
  unfold mbind at 1, lift at 1. rewrite Hi.
  unfold check_call_with_log, mbind, check_process, emit.
  match goal with |- context [process env ?t ?e] => destruct (process env t e) as [ok out] end.
  match goal with |- context [Call cmd ?v _] => exists v end.
  assert (Hrest :
    env_get ([("STEP_OUTPUT_PATH", str_path (_temp_output_directory env br i))]
             ++ settings_env (_additional_settings s)
             ++ [("SOURCE_ROOT", str_path (_source_root env br i))]
             ++ (if IN_CICD env then [("IN_CICD", "1")] else [])) "SOURCE_ROOT"
    = Some (str_path (_source_root env br i))
    /\ (IN_CICD env = true ->
        env_get ([("STEP_OUTPUT_PATH", str_path (_temp_output_directory env br i))]
                 ++ settings_env (_additional_settings s)
                 ++ [("SOURCE_ROOT", str_path (_source_root env br i))]
                 ++ (if IN_CICD env then [("IN_CICD", "1")] else [])) "IN_CICD"
        = Some "1")
    /\ (forall n v,
          NoDup (map fst (_additional_settings s)) ->
          In (n, Some v) (_additional_settings s) ->
          n <> "SOURCE_ROOT" -> (IN_CICD env = true -> n <> "IN_CICD") ->
          env_get ([("STEP_OUTPUT_PATH", str_path (_temp_output_directory env br i))]
                   ++ settings_env (_additional_settings s)
                   ++ [("SOURCE_ROOT", str_path (_source_root env br i))]
                   ++ (if IN_CICD env then [("IN_CICD", "1")] else [])) n
          = Some v)
    /\ (forall n,
          (forall v, ~ In (n, Some v) (_additional_settings s)) ->
          n <> "SOURCE_ROOT" -> n <> "IN_CICD" ->
          env_get ([("STEP_OUTPUT_PATH", str_path (_temp_output_directory env br i))]
                   ++ settings_env (_additional_settings s)
                   ++ [("SOURCE_ROOT", str_path (_source_root env br i))]
                   ++ (if IN_CICD env then [("IN_CICD", "1")] else [])) n
          = if (n =? "STEP_OUTPUT_PATH")%string
            then Some (str_path (_temp_output_directory env br i))
            else None)).
  { split; [|split; [|split]].
    - rewrite local_env_get. destruct (IN_CICD env); reflexivity.
    - intros Hcicd. rewrite local_env_get, Hcicd. reflexivity.
    - intros n v Hnd Hin Hn1 Hn2. rewrite local_env_get.
      apply String.eqb_neq in Hn1. rewrite Hn1.
      rewrite (env_get_settings_some _ _ _ Hnd Hin).
      destruct (IN_CICD env); [|reflexivity].
      specialize (Hn2 eq_refl). apply String.eqb_neq in Hn2. now rewrite Hn2.
    - intros n Hnone Hn1 Hn2. rewrite local_env_get.
      apply String.eqb_neq in Hn1, Hn2. rewrite Hn1, Hn2, andb_false_r.
      now rewrite (env_get_settings_none _ _ Hnone). }
  destruct ok; do 2 eexists; (split; [reflexivity|]); (split; [reflexivity|]); exact Hrest.
Qed.

Lemma _run_locally_environment_witness :
  exists cmd i vars r w',
    id (example_env all_succeed) example_tree step_S = Ok i
    /\ _run_locally (example_env all_succeed) example_tree build_root_example step_S
         empty_world = (r, w')
    /\ trace w'
       = [Call cmd vars
            (Some (str_path (_source_root (example_env all_succeed) build_root_example i)))]
    /\ env_get vars "SOURCE_ROOT"
       = Some (str_path (_source_root (example_env all_succeed) build_root_example i))
    /\ env_get vars "MODE" = Some "fast"
    /\ env_get vars "STEP_OUTPUT_PATH" = Some "/mine"
    /\ env_get vars "EXTRA" = None.
Proof.
  destruct (_get_command_line_args (example_env all_succeed) example_tree
              build_root_example step_S) as [cmd|] eqn:Hc;
    [|vm_compute in Hc; discriminate Hc].
  destruct (id (example_env all_succeed) example_tree step_S) as [i|] eqn:Hi;
    [|vm_compute in Hi; discriminate Hi].
  destruct (_run_locally_environment (example_env all_succeed) example_tree
              build_root_example step_S cmd i empty_world Hc Hi)
    as (vars & r & w' & Hr & Ht & Hs & _ & Hsome & Hnone).
  exists cmd, i, vars, r, w'.
  split; [reflexivity|]. split; [exact Hr|]. split; [exact Ht|]. split; [exact Hs|].
  assert (Hnd : NoDup (map fst (_additional_settings step_S))).
  { simpl. repeat constructor; simpl; intuition discriminate. }
  split; [|split].
  - apply Hsome; [exact Hnd|simpl; tauto|discriminate|discriminate].
  - apply Hsome; [exact Hnd|simpl; tauto|discriminate|discriminate].
  - rewrite Hnone; [reflexivity| |discriminate|discriminate].
    intros v [H|[H|[H|[H|[]]]]]; discriminate H.
Defined.


(* ------------------------------------------------------------------ *)
(** ** A step run in a container *)

Lemma id_of_overall_info :
  forall env fs s info, overall_info env fs s = Ok info ->
                        id env fs s = Ok (id_of (name s) (dumps info)).
Proof. intros env fs s info H. unfold id, overall_info_str. now rewrite H. Qed.

Lemma id_ok_overall_info :
  forall env fs s i, id env fs s = Ok i -> exists info, overall_info env fs s = Ok info.
Proof.
  intros env fs s i H. unfold id, overall_info_str in H.
  destruct (overall_info env fs s) as [info|]; [eauto|discriminate H].
Qed.

Lemma dependency_ids_ok :
  forall env fs s i,
    id env fs s = Ok i -> exists ids, mapM (id env fs) (_dependency_steps s) = Ok ids.
Proof.
  intros env fs s i H. destruct (id_ok_overall_info _ _ _ _ H) as [info Ho].
  destruct (overall_info_shape _ _ _ _ Ho) as (_ & _ & deps & _ & _ & _ & _ & _ & _ & _ & Hd & _).
  apply mapM_all_ok. apply Forall_forall. intros d Hin.
  destruct (mapM_ok_In _ _ _ _ Hd Hin) as [y Hy].
  eexists. apply id_of_overall_info. exact Hy.
Qed.

Lemma base_step_id_ok :
  forall env fs s i b,
    id env fs s = Ok i -> _base_step s = Some b -> exists bi, id env fs b = Ok bi.
Proof.
  intros env fs s i b H Hb. destruct (id_ok_overall_info _ _ _ _ H) as [info Ho].
  destruct (overall_info_shape _ _ _ _ Ho) as (_ & _ & _ & base & _ & _ & _ & _ & _ & _ & _ & Hbase & _).
  rewrite Hb in Hbase. eexists. apply id_of_overall_info. exact Hbase.
Qed.

Lemma docker_base_image_some :
  forall env fs s i arch,
    base_image_architecture s = Some arch -> id env fs s = Ok i ->
    exists img, docker_base_image env fs s = Ok (Some img) /\ architecture img = arch.
Proof.
  intros env fs s i arch Ha Hi. unfold docker_base_image.
  destruct (_base_step s) as [b|] eqn:Eb.
  - destruct (base_step_id_ok _ _ _ _ _ Hi Eb) as [bi Hbi].
    unfold _base_step in Eb. destruct s as [sc tn nm globs nocache sp isdep base deps st ca].
    simpl in *. destruct sc; [|discriminate Ha].
    destruct base as [[spec|b']|]; try discriminate Eb. inv Eb.
    destruct (is_script b); [|discriminate Ha].
    unfold result_image. rewrite Ha, Hbi. eauto.
  - unfold base_docker_image. rewrite Eb. unfold base_docker_image_with.
    unfold _base_step in Eb. destruct s as [sc tn nm globs nocache sp isdep base deps st ca].
    simpl in *. destruct sc; [|discriminate Ha].
    destruct base as [[spec|b']|]; try discriminate.
    inv Ha. eauto.
Qed.

Lemma mbind_ext :
  forall {A B : Type} (m : M A) (k1 k2 : A -> M B) w,
    (forall a w1, k1 a w1 = k2 a w1) -> mbind m k1 w = mbind m k2 w.
Proof.
  intros A B m k1 k2 w H. unfold mbind. destruct (m w) as [[a|e] w1]; [apply H|reflexivity].
Qed.

(** [_run_in_docker], once the command line, the id, the base image and the
    ids of the dependency steps are computed. *)
Lemma _run_in_docker_eq :
  forall env fs br s cmd i img ids w,
    _get_command_line_args env fs br s = Ok cmd ->
    id env fs s = Ok i ->
    docker_base_image env fs s = Ok (Some img) ->
    mapM (id env fs) (_dependency_steps s) = Ok ids ->
    _run_in_docker env fs br s w
    = (run_command env ["docker"; "rm"; "-f"; container_name] ;;;
       try_finally
         (check_call_with_log env (docker_run_argv env br s i img ids cmd) [] None ;;;
          _save_step_docker_container_as_image_if_needed env fs s)
         (run_command env ["docker"; "rm"; "-f"; container_name])) w.
Proof.
  intros env fs br s cmd i img ids w Hc Hi Himg Hids.
  unfold _run_in_docker. unfold mbind at 1, lift at 1. rewrite Hc.
  apply mbind_ext. intros _ w1.
  unfold mbind at 1, lift at 1. rewrite Hi.
  unfold docker_base_image in Himg.
  unfold mbind at 1, lift at 1. rewrite Himg.
  unfold mbind at 1, lift at 1. rewrite Hids.
  reflexivity.
Qed.


Lemma check_process_spec :
  forall env e w,
    exists w',
      trace w' = trace w ++ [e]
      /\ step_outputs w' = step_outputs w
      /\ source_roots w' = source_roots w
      /\ run_calls w' = run_calls w
      /\ check_process env e w
         = (if fst (process env (trace w) e)
            then Ok (snd (process env (trace w) e))
            else Raise (CalledProcessError (argv_of e)), w').
Proof.
  intros env e w. unfold check_process, emit.
  destruct (process env (trace w) e) as [ok out]. simpl.
  exists {| step_outputs := step_outputs w; source_roots := source_roots w;
            trace := trace w ++ [e]; run_calls := run_calls w |}.
  repeat split. now destruct ok.
Qed.

Lemma run_command_spec :
  forall env argv w,
    exists w',
      trace w' = trace w ++ [Call argv [] None]
      /\ step_outputs w' = step_outputs w
      /\ run_command env argv w
         = (if fst (process env (trace w) (Call argv [] None))
            then Ok tt else Raise (CalledProcessError argv), w').
Proof.
  intros env argv w. unfold run_command, mbind.
  destruct (check_process_spec env (Call argv [] None) w) as (w' & Ht & Ho & _ & _ & ->).
  exists w'. repeat split; try assumption.
  now destruct (fst (process env (trace w) (Call argv [] None))).
Qed.

Lemma check_call_with_log_spec :
  forall env argv vars dir w,
    exists w',
      trace w' = trace w ++ [Call argv vars dir]
      /\ step_outputs w' = step_outputs w
      /\ check_call_with_log env argv vars dir w
         = (if fst (process env (trace w) (Call argv vars dir))
            then Ok tt else Raise (CalledProcessError argv), w').
Proof.
  intros env argv vars dir w. unfold check_call_with_log, mbind.
  destruct (check_process_spec env (Call argv vars dir) w) as (w' & Ht & Ho & _ & _ & ->).
  exists w'. repeat split; try assumption.
  now destruct (fst (process env (trace w) (Call argv vars dir))).
Qed.

(** What [_save_step_docker_container_as_image_if_needed] does to the
    trace and to the output directories. *)
Lemma _save_step_docker_container_as_image_if_needed_spec :
  forall env fs s i w r w',
    id env fs s = Ok i ->
    _save_step_docker_container_as_image_if_needed env fs s w = (r, w') ->
    (exists rest, trace w' = trace w ++ rest)
    /\ (step_outputs w' = step_outputs w
        \/ step_outputs w' = add_file (temp_name i) (i ++ ".tar") (step_outputs w))
    /\ (r = Ok tt ->
        step_outputs w'
        = if is_dependency_step s then step_outputs w
          else add_file (temp_name i) (i ++ ".tar") (step_outputs w)).
Proof.
  intros env fs s i w r w' Hi H. unfold _save_step_docker_container_as_image_if_needed in H.
  destruct (is_dependency_step s).
  { inv H. split; [exists []; now rewrite app_nil_r|]. auto. }
  unfold mbind at 1, lift at 1 in H.
  destruct (result_image env fs s) as [[spec|]|e].
  2: { inv H. split; [exists []; now rewrite app_nil_r|].
       split; [now left|]. intros H. discriminate H. }
  2: { inv H. split; [exists []; now rewrite app_nil_r|].
       split; [now left|]. intros H. discriminate H. }
  unfold mbind at 1 in H.
  destruct (run_command_spec env ["docker"; "commit"; container_name; image_name spec] w)
    as (w1 & Ht1 & Ho1 & E1).
  rewrite E1 in H.
  destruct (fst (process env (trace w) _)).
  2: { inv H. split; [eexists; exact Ht1|]. split; [now left|]. intros H. discriminate H. }
  unfold mbind at 1, lift at 1 in H. rewrite Hi in H.
  unfold save_image in H.
  destruct (has_dir (step_outputs w1) (temp_name i)).
  2: { inv H. split; [eexists; exact Ht1|]. split; [left; exact Ho1|].
       intros H. discriminate H. }
  unfold mbind at 1, set_step_outputs in H.
  match type of H with
  | check_call_with_log env ?a ?v ?d ?w2 = _ =>
      destruct (check_call_with_log_spec env a v d w2) as (w3 & Ht3 & Ho3 & E3)
  end.
  rewrite E3 in H. simpl in Ht3, Ho3.
  assert (Hout : step_outputs w' = add_file (temp_name i) (i ++ ".tar") (step_outputs w)).
  { destruct (fst (process env _ _)); inv H; rewrite Ho3; now rewrite Ho1. }
  assert (Htr : exists rest, trace w' = trace w ++ rest).
  { destruct (fst (process env _ _)); inv H; rewrite Ht3, Ht1, <- app_assoc; eauto. }
  split; [exact Htr|]. split; [now right|]. intros _. exact Hout.
Qed.

(** The events of [_run_in_docker]. *)
Lemma _run_in_docker_trace :
  forall env fs br s cmd i w,
    runs_in_docker s = true ->
    _get_command_line_args env fs br s = Ok cmd ->
    id env fs s = Ok i ->
    fst (process env (trace w) remove_container) = true ->
    exists img ids r w' rest,
      docker_base_image env fs s = Ok (Some img)
      /\ mapM (id env fs) (_dependency_steps s) = Ok ids
      /\ _run_in_docker env fs br s w = (r, w')
      /\ trace w'
         = trace w
           ++ [remove_container; Call (docker_run_argv env br s i img ids cmd) [] None]
           ++ rest ++ [remove_container]
      /\ (fst (process env (trace w ++ [remove_container])
                 (Call (docker_run_argv env br s i img ids cmd) [] None)) = false ->
          rest = [] /\ exists e, r = Raise e).
Proof.
  intros env fs br s cmd i w Hd Hc Hi Hfirst.
  unfold runs_in_docker in Hd.
  destruct (base_image_architecture s) as [arch|] eqn:Ea; [|discriminate Hd].
  destruct (docker_base_image_some env fs s i arch Ea Hi) as (img & Himg & _).
  destruct (dependency_ids_ok env fs s i Hi) as [ids Hids].
  exists img, ids.
  rewrite (_run_in_docker_eq env fs br s cmd i img ids w Hc Hi Himg Hids).
  unfold mbind at 1.
  destruct (run_command_spec env ["docker"; "rm"; "-f"; container_name] w)
    as (w1 & Ht1 & _ & E1).
  fold remove_container in Ht1, E1. rewrite E1, Hfirst.
  unfold try_finally, mbind at 1.
  destruct (check_call_with_log_spec env (docker_run_argv env br s i img ids cmd) [] None w1)
    as (w2 & Ht2 & _ & E2).
  rewrite E2, Ht1.
  destruct (fst (process env (trace w ++ [remove_container])
                   (Call (docker_run_argv env br s i img ids cmd) [] None))).
  - destruct (_save_step_docker_container_as_image_if_needed env fs s w2) as [r3 w3] eqn:E3.
    destruct (_save_step_docker_container_as_image_if_needed_spec _ _ _ _ _ _ _ Hi E3)
      as ((rest & Ht3) & _).
    destruct (run_command_spec env ["docker"; "rm"; "-f"; container_name] w3)
      as (w4 & Ht4 & _ & E4).
    fold remove_container in Ht4, E4. rewrite E4.
    assert (Htr : trace w4
                  = trace w
                    ++ [remove_container;
                        Call (docker_run_argv env br s i img ids cmd) [] None]
                    ++ rest ++ [remove_container]).
    { rewrite Ht4, Ht3, Ht2, Ht1. rewrite <- !app_assoc. reflexivity. }
    destruct (fst (process env (trace w3) remove_container)); do 3 eexists;
      (split; [exact Himg|]); (split; [exact Hids|]); (split; [reflexivity|]);
      (split; [exact Htr|]); intros H; discriminate H.
  - destruct (run_command_spec env ["docker"; "rm"; "-f"; container_name] w2)
      as (w4 & Ht4 & _ & E4).
    fold remove_container in Ht4, E4. rewrite E4.
    assert (Htr : trace w4
                  = trace w
                    ++ [remove_container;
                        Call (docker_run_argv env br s i img ids cmd) [] None]
                    ++ [] ++ [remove_container]).
    { rewrite Ht4, Ht2, Ht1. rewrite <- !app_assoc. reflexivity. }
    destruct (fst (process env (trace w2) remove_container)); do 2 eexists; exists [];
      (split; [exact Himg|]); (split; [exact Hids|]); (split; [reflexivity|]);
      (split; [exact Htr|]); intros _; (split; [reflexivity|]); eauto.
Qed.


Lemma mapM_In :
  forall {A B : Type} (f : A -> res B) l ys a,
    mapM f l = Ok ys -> In a l -> exists y, f a = Ok y /\ In y ys.
Proof.
  intros A B f l. induction l as [|x l IH]; intros ys a H Hin; [destruct Hin|].
  rewrite mapM_cons in H. destruct (f x) as [y|] eqn:E; [|discriminate H].
  destruct (mapM f l) as [rest|]; [|discriminate H]. inv H.
  destruct Hin as [<-|Hin].
  - exists y. split; [exact E|now left].
  - destruct (IH rest a eq_refl Hin) as (y' & Hy & Hin'). exists y'. split; [exact Hy|now right].
Qed.

Lemma flat_map_In_split :
  forall {A B : Type} (f : A -> list B) l x,
    In x l -> exists pre post, flat_map f l = pre ++ f x ++ post.
Proof.
  intros A B f l x Hin. apply in_split in Hin. destruct Hin as (l1 & l2 & ->).
  exists (flat_map f l1), (flat_map f l2). rewrite flat_map_app. reflexivity.
Qed.

Lemma app_split_4 :
  forall {A : Type} (l1 l2 l3 pre x post l4 l5 l6 : list A),
    l1 ++ l2 ++ l3 ++ ((pre ++ x ++ post) ++ l4) ++ l5 ++ l6
    = (l1 ++ l2 ++ l3 ++ pre) ++ x ++ (post ++ l4 ++ l5 ++ l6).
Proof. intros. now rewrite <- !app_assoc. Qed.

Lemma app_split_2 :
  forall {A : Type} (l1 l2 pre x post l3 : list A),
    l1 ++ (l2 ++ pre ++ x ++ post) ++ l3 = (l1 ++ l2 ++ pre) ++ x ++ (post ++ l3).
Proof. intros. now rewrite <- !app_assoc. Qed.

Lemma app_split_end :
  forall {A : Type} (l1 l2 l3 l4 l5 l6 : list A),
    l1 ++ l2 ++ l3 ++ l4 ++ l5 ++ l6 = (l1 ++ l2 ++ l3 ++ l4 ++ l5) ++ l6.
Proof. intros. now rewrite <- !app_assoc. Qed.

(** X8. A step run in a container: the container of the fixed name is
    removed first, then [docker run -i --name <name> ...] is started, and
    the container is removed again at the end, whether the run and the
    saving of the image succeed or fail.  When [docker run] fails, nothing
    is started but the final removal, and [_run_in_docker] raises. *)
Theorem _run_in_docker_removes_container :
  forall env fs br s cmd i w,
    runs_in_docker s = true ->
    _get_command_line_args env fs br s = Ok cmd ->
    id env fs s = Ok i ->
    fst (process env (trace w) remove_container) = true ->
    exists r w' argv rest,
      _run_in_docker env fs br s w = (r, w')
      /\ trace w'
         = trace w ++ [remove_container; Call argv [] None] ++ rest ++ [remove_container]
      /\ firstn 5 argv = ["docker"; "run"; "-i"; "--name"; container_name]
      /\ (fst (process env (trace w ++ [remove_container]) (Call argv [] None)) = false ->
          rest = [] /\ exists e, r = Raise e).
Proof.
  intros env fs br s cmd i w Hd Hc Hi Hfirst.
  destruct (_run_in_docker_trace env fs br s cmd i w Hd Hc Hi Hfirst)
    as (img & ids & r & w' & rest & _ & _ & Hr & Ht & Hfail).
  exists r, w', (docker_run_argv env br s i img ids cmd), rest.
  split; [exact Hr|]. split; [exact Ht|]. split; [reflexivity|exact Hfail].
Qed.

Lemma _run_in_docker_removes_container_witness :
  exists r w' argv rest,
    _run_in_docker (example_env (fails_on "run")) example_tree build_root_example step_J
      empty_world = (r, w')
    /\ trace w' = [remove_container; Call argv [] None] ++ rest ++ [remove_container]
    /\ firstn 5 argv = ["docker"; "run"; "-i"; "--name"; container_name]
    /\ rest = []
    /\ exists e, r = Raise e.
Proof.
  destruct (_get_command_line_args (example_env (fails_on "run")) example_tree
              build_root_example step_J) as [cmd|] eqn:Hc;
    [|vm_compute in Hc; discriminate Hc].
  destruct (id (example_env (fails_on "run")) example_tree step_J) as [i|] eqn:Hi;
    [|vm_compute in Hi; discriminate Hi].
  destruct (_run_in_docker_removes_container (example_env (fails_on "run")) example_tree
              build_root_example step_J cmd i empty_world eq_refl Hc Hi eq_refl)
    as (r & w' & argv & rest & Hr & Ht & Hh & Hfail).
  exists r, w', argv, rest.
  split; [exact Hr|]. split; [exact Ht|]. split; [exact Hh|].
  apply Hfail. destruct argv as [|a0 [|a1 argv]]; try discriminate Hh.
  injection Hh as -> -> _. reflexivity.
Defined.

(** X9. A step run in a container: every setting is passed to [docker run]
    as an option [-e NAME=VALUE]; for a setting without a value the text is
    [NAME=None] (on the host such a setting is not passed at all). *)
Theorem _run_in_docker_passes_settings :
  forall env fs br s cmd i w,
    runs_in_docker s = true ->
    _get_command_line_args env fs br s = Ok cmd ->
    id env fs s = Ok i ->
    fst (process env (trace w) remove_container) = true ->
    exists r w' argv,
      _run_in_docker env fs br s w = (r, w')
      /\ In (Call argv [] None) (trace w')
      /\ firstn 2 argv = ["docker"; "run"]
      /\ forall n o,
           In (n, o) (_additional_settings s) ->
           exists pre post,
             argv = pre ++ ["-e"; (n ++ "=" ++
                                   match o with Some v => v | None => "None" end)%string]
                        ++ post.
Proof.
  intros env fs br s cmd i w Hd Hc Hi Hfirst.
  destruct (_run_in_docker_trace env fs br s cmd i w Hd Hc Hi Hfirst)
    as (img & ids & r & w' & rest & _ & _ & Hr & Ht & _).
  exists r, w', (docker_run_argv env br s i img ids cmd).
  split; [exact Hr|]. split; [|split; [reflexivity|]].
  - rewrite Ht. apply in_app_iff. right. right. now left.
  - intros n o Hin.
    destruct (flat_map_In_split
                (fun kv : string * option string =>
                   ["-e"; (fst kv ++ "=" ++
                           match snd kv with Some v => v | None => "None" end)%string])
                _ _ Hin) as (pre & post & E).
    cbv beta in E. cbn [fst snd] in E.
    unfold docker_run_argv, docker_env_options. rewrite E.
    do 2 eexists. apply app_split_4.
Qed.

Lemma _run_in_docker_passes_settings_witness :
  exists r w' argv,
    _run_in_docker (example_env all_succeed) example_tree build_root_example step_J
      empty_world = (r, w')
    /\ In (Call argv [] None) (trace w')
    /\ firstn 2 argv = ["docker"; "run"]
    /\ (exists pre post, argv = pre ++ ["-e"; "MODE=fast"] ++ post)
    /\ (exists pre post, argv = pre ++ ["-e"; "EXTRA=None"] ++ post).
Proof.
  destruct (_get_command_line_args (example_env all_succeed) example_tree
              build_root_example step_J) as [cmd|] eqn:Hc;
    [|vm_compute in Hc; discriminate Hc].
  destruct (id (example_env all_succeed) example_tree step_J) as [i|] eqn:Hi;
    [|vm_compute in Hi; discriminate Hi].
  destruct (_run_in_docker_passes_settings (example_env all_succeed) example_tree
              build_root_example step_J cmd i empty_world eq_refl Hc Hi eq_refl)
    as (r & w' & argv & Hr & Ht & Hh & Hs).
  exists r, w', argv.
  split; [exact Hr|]. split; [exact Ht|]. split; [exact Hh|]. split.
  - apply (Hs "MODE" (Some "fast")). simpl. tauto.
  - apply (Hs "EXTRA" None). simpl. tauto.
Defined.

Lemma _get_command_line_args_in_docker :
  forall env fs br s cmd,
    runs_in_docker s = true ->
    _get_command_line_args env fs br s = Ok cmd ->
    forall d di,
      In d (_dependency_steps s) -> id env fs d = Ok di ->
      In (str_path (_in_docker_dependency_outputs_path ++ [di])) cmd.
Proof.
  intros env fs br s cmd Hd H d di Hin Hdi. unfold _get_command_line_args in H.
  rewrite Hd in H.
  match type of H with context [mapM ?f ?l] =>
    destruct (mapM f l) as [outs|] eqn:Eo; [|discriminate H];
    destruct (mapM_In f l outs d Eo Hin) as (y & Hy & Hyin)
  end.
  cbv beta in Hy. rewrite Hdi in Hy. injection Hy as <-.
  destruct (relative_to (_script_path s) (SOURCE_ROOT env)) as [rel|]; [|discriminate H].
  destruct (suffix rel =? ".ps1")%string;
    [|destruct (suffix rel =? ".sh")%string;
      [|destruct (suffix rel =? ".py")%string; [|discriminate H]]];
    injection H as <-; right; right; exact Hyin.
Qed.

(** X10. A step run in a container: the command line of the step ends the
    [docker run] command, and every path of a dependency step that it names
    ([/tmp/step/dependencies/<id>]) is mounted, with an option [-v], from
    the output directory of that dependency step in the build root. *)
Theorem _run_in_docker_mounts_dependencies :
  forall env fs br s cmd i w,
    runs_in_docker s = true ->
    _get_command_line_args env fs br s = Ok cmd ->
    id env fs s = Ok i ->
    fst (process env (trace w) remove_container) = true ->
    exists r w' argv,
      _run_in_docker env fs br s w = (r, w')
      /\ In (Call argv [] None) (trace w')
      /\ (exists pre, argv = pre ++ cmd)
      /\ forall d di,
           In d (_dependency_steps s) -> id env fs d = Ok di ->
           In (str_path (_in_docker_dependency_outputs_path ++ [di])) cmd
           /\ exists pre post,
                argv = pre
                       ++ ["-v";
                           (str_path (output_directory env br di) ++ ":"
                            ++ str_path (_in_docker_dependency_outputs_path ++ [di])%list)%string]
                       ++ post.
Proof.
  intros env fs br s cmd i w Hd Hc Hi Hfirst.
  destruct (_run_in_docker_trace env fs br s cmd i w Hd Hc Hi Hfirst)
    as (img & ids & r & w' & rest & _ & Hids & Hr & Ht & _).
  exists r, w', (docker_run_argv env br s i img ids cmd).
  split; [exact Hr|]. split; [|split].
  - rewrite Ht. apply in_app_iff. right. right. now left.
  - unfold docker_run_argv. eexists. apply app_split_end.
  - intros d di Hin Hdi. split.
    + exact (_get_command_line_args_in_docker env fs br s cmd Hd Hc d di Hin Hdi).
    + destruct (mapM_In _ _ _ _ Hids Hin) as (y & Hy & Hyin).
      assert (y = di) by congruence. subst y.
      destruct (flat_map_In_split
                  (fun di0 : string =>
                     ["-v"; (str_path (output_directory env br di0) ++ ":"
                             ++ str_path (_in_docker_dependency_outputs_path ++ [di0])%list)%string])
                  _ _ Hyin) as (pre & post & E).
      cbv beta in E. unfold docker_run_argv, docker_volumes. rewrite E.
      do 2 eexists. apply app_split_2.
Qed.

Lemma _run_in_docker_mounts_dependencies_witness :
  exists r w' argv cmd di,
    _run_in_docker (example_env all_succeed) example_tree build_root_example step_J
      empty_world = (r, w')
    /\ id (example_env all_succeed) example_tree step_A = Ok di
    /\ In (Call argv [] None) (trace w')
    /\ (exists pre, argv = pre ++ cmd)
    /\ In (str_path (_in_docker_dependency_outputs_path ++ [di])) cmd
    /\ exists pre post,
         argv = pre
                ++ ["-v";
                    (str_path (output_directory (example_env all_succeed)
                                 build_root_example di)
                     ++ ":" ++ str_path (_in_docker_dependency_outputs_path ++ [di])%list)%string]
                ++ post.
Proof.
  destruct (_get_command_line_args (example_env all_succeed) example_tree
              build_root_example step_J) as [cmd|] eqn:Hc;
    [|vm_compute in Hc; discriminate Hc].
  destruct (id (example_env all_succeed) example_tree step_J) as [i|] eqn:Hi;
    [|vm_compute in Hi; discriminate Hi].
  destruct (id (example_env all_succeed) example_tree step_A) as [di|] eqn:Hdi;
    [|vm_compute in Hdi; discriminate Hdi].
  destruct (_run_in_docker_mounts_dependencies (example_env all_succeed) example_tree
              build_root_example step_J cmd i empty_world eq_refl Hc Hi eq_refl)
    as (r & w' & argv & Hr & Ht & Hp & Hm).
  exists r, w', argv, cmd, di.
  split; [exact Hr|]. split; [reflexivity|]. split; [exact Ht|]. split; [exact Hp|].
  apply (Hm step_A di); [simpl; tauto|exact Hdi].
Defined.


(* ------------------------------------------------------------------ *)
(** ** The files of the output directory of a step *)

Section KeepsOutputs.

Variable env : Env.

Lemma keeps_outputs_ret : forall {A : Type} (a : A), keeps_outputs (ret a).
Proof. intros A a w r w' H. now inv H. Qed.

Lemma keeps_outputs_throw : forall {A : Type} e, keeps_outputs (@throw A e).
Proof. intros A e w r w' H. now inv H. Qed.

Lemma keeps_outputs_lift : forall {A : Type} (x : res A), keeps_outputs (lift x).
Proof. intros A x w r w' H. now inv H. Qed.

Lemma keeps_outputs_bind :
  forall {A B : Type} (m : M A) (k : A -> M B),
    keeps_outputs m -> (forall a, keeps_outputs (k a)) -> keeps_outputs (mbind m k).
Proof.
  intros A B m k Hm Hk w r w' H. apply mbind_inv in H.
  destruct H as [(a & w1 & H1 & H2)|(e & H1 & _)].
  - rewrite (Hk a _ _ _ H2). exact (Hm _ _ _ H1).
  - exact (Hm _ _ _ H1).
Qed.

Lemma keeps_outputs_try_finally :
  forall {A : Type} (body : M A) (cleanup : M unit),
    keeps_outputs body -> keeps_outputs cleanup -> keeps_outputs (try_finally body cleanup).
Proof.
  intros A body cleanup Hb Hc w r w' H. unfold try_finally in H.
  destruct (body w) as [rb w1] eqn:E1. destruct (cleanup w1) as [[u|e] w2] eqn:E2; inv H;
    rewrite (Hc _ _ _ E2); exact (Hb _ _ _ E1).
Qed.

Lemma try_finally_inv :
  forall {A : Type} (body : M A) (cleanup : M unit) w r w',
    try_finally body cleanup w = (r, w') ->
    exists rb w1 rc,
      body w = (rb, w1) /\ cleanup w1 = (rc, w')
      /\ r = match rc with Ok _ => rb | Raise e => Raise e end.
Proof.
  intros A body cleanup w r w' H. unfold try_finally in H.
  destruct (body w) as [rb w1]. destruct (cleanup w1) as [[u|e] w2] eqn:E2;
    injection H as <- <-; exists rb, w1; eexists; repeat split; try eassumption; reflexivity.
Qed.

Lemma keeps_outputs_emit : forall e, keeps_outputs (emit e).
Proof. intros e w r w' H. now inv H. Qed.

Lemma keeps_outputs_check_process : forall e, keeps_outputs (check_process env e).
Proof.
  intros e w r w' H. destruct (check_process_spec env e w) as (w1 & _ & Ho & _ & _ & E).
  rewrite E in H. now inv H.
Qed.

Lemma keeps_outputs_run_command : forall argv, keeps_outputs (run_command env argv).
Proof.
  intros argv. apply keeps_outputs_bind; [apply keeps_outputs_check_process|].
  intros _. apply keeps_outputs_ret.
Qed.

Lemma keeps_outputs_check_call_with_log :
  forall argv vars dir, keeps_outputs (check_call_with_log env argv vars dir).
Proof.
  intros argv vars dir. apply keeps_outputs_bind; [apply keeps_outputs_check_process|].
  intros _. apply keeps_outputs_ret.
Qed.

Lemma keeps_outputs_set_source_roots : forall f, keeps_outputs (set_source_roots f).
Proof. intros f w r w' H. now inv H. Qed.

Lemma keeps_outputs_note_run_call : forall i, keeps_outputs (note_run_call i).
Proof. intros i w r w' H. now inv H. Qed.

Lemma keeps_outputs_read :
  forall {A : Type} (f : world -> A), keeps_outputs (fun w => (Ok (f w), w)).
Proof. intros A f w r w' H. now inv H. Qed.

Lemma keeps_outputs_load_image : forall spec, keeps_outputs (load_image env spec).
Proof.
  intros spec. unfold load_image.
  apply keeps_outputs_bind; [apply keeps_outputs_check_process|intros output].
  destruct (negb (strip_is_empty output)); [apply keeps_outputs_ret|].
  apply keeps_outputs_run_command.
Qed.

Lemma keeps_outputs__check_for_cached_result :
  forall fs s, keeps_outputs (_check_for_cached_result env fs s).
Proof.
  intros fs s. unfold _check_for_cached_result.
  apply keeps_outputs_bind; [apply keeps_outputs_lift|intros i].
  apply keeps_outputs_bind; [apply keeps_outputs_read|intros ex].
  destruct (is_script s); [|apply keeps_outputs_ret].
  apply keeps_outputs_bind; [|intros _; apply keeps_outputs_ret].
  destruct (ex && runs_in_docker s && negb (is_dependency_step s));
    [|apply keeps_outputs_ret].
  apply keeps_outputs_bind; [apply keeps_outputs_lift|intros [spec|]];
    [apply keeps_outputs_load_image|apply keeps_outputs_ret].
Qed.

Lemma keeps_outputs__prepare_working_source_root :
  forall fs br s, keeps_outputs (_prepare_working_source_root env fs br s).
Proof.
  intros fs br s. unfold _prepare_working_source_root.
  apply keeps_outputs_bind; [apply keeps_outputs_lift|intros i].
  apply keeps_outputs_bind; [apply keeps_outputs_read|intros is_there].
  apply keeps_outputs_bind.
  { destruct is_there; [|apply keeps_outputs_ret].
    apply keeps_outputs_bind; [apply keeps_outputs_check_process|intros _].
    apply keeps_outputs_set_source_roots. }
  intros _. apply keeps_outputs_bind; [apply keeps_outputs_set_source_roots|intros _].
  apply keeps_outputs_bind; [apply keeps_outputs_lift|intros files].
  apply keeps_outputs_set_source_roots.
Qed.

Lemma keeps_outputs__run_locally :
  forall fs br s, keeps_outputs (_run_locally env fs br s).
Proof.
  intros fs br s. unfold _run_locally.
  apply keeps_outputs_bind; [apply keeps_outputs_lift|intros args].
  apply keeps_outputs_bind; [apply keeps_outputs_lift|intros i].
  apply keeps_outputs_check_call_with_log.
Qed.

(** What [_run_in_docker] does to the output directories. *)
Lemma _run_in_docker_outputs :
  forall fs br s i w r w',
    id env fs s = Ok i ->
    _run_in_docker env fs br s w = (r, w') ->
    (step_outputs w' = step_outputs w
     \/ step_outputs w' = add_file (temp_name i) (i ++ ".tar") (step_outputs w))
    /\ (r = Ok tt ->
        step_outputs w'
        = if is_dependency_step s then step_outputs w
          else add_file (temp_name i) (i ++ ".tar") (step_outputs w)).
Proof.
  intros fs br s i w r w' Hi H. unfold _run_in_docker in H.
  apply mbind_inv in H. destruct H as [(cmd & w0 & H0 & H)|(e & H0 & ->)].
  2: { rewrite (keeps_outputs_lift _ _ _ _ H0). split; [now left|discriminate]. }
  rewrite <- (keeps_outputs_lift _ _ _ _ H0).
  apply mbind_inv in H. destruct H as [(u & w1 & H1 & H)|(e & H1 & ->)].
  2: { rewrite (keeps_outputs_run_command _ _ _ _ H1). split; [now left|discriminate]. }
  rewrite <- (keeps_outputs_run_command _ _ _ _ H1).
  apply mbind_inv in H. destruct H as [(i' & w2 & H2 & H)|(e & H2 & ->)].
  2: { rewrite (keeps_outputs_lift _ _ _ _ H2). split; [now left|discriminate]. }
  rewrite <- (keeps_outputs_lift _ _ _ _ H2).
  apply mbind_inv in H. destruct H as [(img & w3 & H3 & H)|(e & H3 & ->)].
  2: { rewrite (keeps_outputs_lift _ _ _ _ H3). split; [now left|discriminate]. }
  rewrite <- (keeps_outputs_lift _ _ _ _ H3).
  apply mbind_inv in H. destruct H as [(ids & w4 & H4 & H)|(e & H4 & ->)].
  2: { rewrite (keeps_outputs_lift _ _ _ _ H4). split; [now left|discriminate]. }
  rewrite <- (keeps_outputs_lift _ _ _ _ H4).
  apply try_finally_inv in H. destruct H as (rb & w5 & rc & Eb & Ec & Hr).
  rewrite (keeps_outputs_run_command _ _ _ _ Ec).
  assert (Hbody :
    (step_outputs w5 = step_outputs w4
     \/ step_outputs w5 = add_file (temp_name i) (i ++ ".tar") (step_outputs w4))
    /\ (rb = Ok tt ->
        step_outputs w5
        = if is_dependency_step s then step_outputs w4
          else add_file (temp_name i) (i ++ ".tar") (step_outputs w4))).
  { destruct img as [img|].
    2: { inv Eb. split; [now left|discriminate]. }
    apply mbind_inv in Eb. destruct Eb as [(u5 & w7 & H7 & H8)|(e & H7 & ->)].
    2: { rewrite (keeps_outputs_check_call_with_log _ _ _ _ _ _ H7).
         split; [now left|discriminate]. }
    rewrite <- (keeps_outputs_check_call_with_log _ _ _ _ _ _ H7).
    destruct (_save_step_docker_container_as_image_if_needed_spec _ _ _ _ _ _ _ Hi H8)
      as (_ & Ha & Hb).
    split; assumption. }
  destruct Hbody as [Ha Hb]. split; [exact Ha|].
  intros ->. destruct rc as [uc|ec]; [|discriminate Hr]. apply Hb. now symmetry.
Qed.

(** What [_run] does to the output directories. *)
Lemma _run_outputs :
  forall fs br s i w r w',
    id env fs s = Ok i ->
    _run env fs br s w = (r, w') ->
    (step_outputs w' = step_outputs w
     \/ step_outputs w' = add_file (temp_name i) (i ++ ".tar") (step_outputs w))
    /\ (r = Ok tt ->
        step_outputs w'
        = if image_saved env s
          then add_file (temp_name i) (i ++ ".tar") (step_outputs w)
          else step_outputs w).
Proof.
  intros fs br s i w r w' Hi H. unfold _run in H. unfold image_saved.
  destruct (is_script s); [|inv H; split; [now left|reflexivity]].
  apply mbind_inv in H. destruct H as [(u & w0 & H0 & H)|(e & H0 & ->)].
  2: { rewrite (keeps_outputs__prepare_working_source_root _ _ _ _ _ _ H0).
       split; [now left|discriminate]. }
  rewrite <- (keeps_outputs__prepare_working_source_root _ _ _ _ _ _ H0).
  destruct (run_step_command env fs br s w0) as [rs w1] eqn:Es.
  assert (Hcmd :
    (step_outputs w1 = step_outputs w0
     \/ step_outputs w1 = add_file (temp_name i) (i ++ ".tar") (step_outputs w0))
    /\ (rs = Ok tt ->
        step_outputs w1
        = if true && runs_in_docker s && negb (IN_DOCKER env) && negb (is_dependency_step s)
          then add_file (temp_name i) (i ++ ".tar") (step_outputs w0)
          else step_outputs w0)).
  { unfold run_step_command in Es. simpl andb.
    destruct (runs_in_docker s && negb (IN_DOCKER env)).
    - destruct (_run_in_docker_outputs _ _ _ _ _ _ _ Hi Es) as [Ha Hb].
      split; [exact Ha|]. intros E. rewrite (Hb E).
      now destruct (is_dependency_step s).
    - assert (K : keeps_outputs (emit (LogInfo "555555") ;;; _run_locally env fs br s)).
      { apply keeps_outputs_bind; [apply keeps_outputs_emit|intros _].
        apply keeps_outputs__run_locally. }
      rewrite (K _ _ _ Es). split; [now left|reflexivity]. }
  destruct Hcmd as [Ha Hb].
  destruct rs as [[]|e].
  - inv H. split; [exact Ha|]. intros _. now apply Hb.
  - assert (K : @keeps_outputs unit
                  (emit (LogError (tracked_files_hint env s)) ;;;
                   i0 <-- lift (id env fs s) ;;
                   throw (DeploymentStepError (step_failed_message i0)))).
    { apply keeps_outputs_bind; [apply keeps_outputs_emit|intros _].
      apply keeps_outputs_bind; [apply keeps_outputs_lift|intros i0].
      apply (@keeps_outputs_throw unit). }
    rewrite (K _ _ _ H). split; [exact Ha|]. intros ->.
    exfalso. unfold mbind, emit, lift, throw in H. rewrite Hi in H. discriminate H.
Qed.

End KeepsOutputs.


Lemma files_of_app :
  forall a b d, files_of (a ++ b) d = files_of a d ++ files_of b d.
Proof. intros a b d. unfold files_of. now rewrite filter_app, map_app. Qed.

Lemma files_of_rmtree :
  forall dirs d n,
    files_of (rmtree d dirs) n = if (n =? d)%string then [] else files_of dirs n.
Proof.
  intros dirs d n. unfold files_of, rmtree.
  induction dirs as [|[k fl] dirs IH]; simpl; [now destruct (n =? d)%string|].
  destruct (String.eqb_spec k d) as [E|Hkd]; [subst k|]; simpl.
  - rewrite IH. destruct (String.eqb_spec n d) as [E|Hnd]; [reflexivity|].
    destruct (String.eqb_spec d n); [congruence|reflexivity].
  - destruct (String.eqb_spec k n) as [E|Hkn]; [subst k|]; simpl; rewrite IH.
    + destruct (String.eqb_spec n d); [congruence|reflexivity].
    + reflexivity.
Qed.

Lemma files_of_add_file :
  forall dirs d f n,
    files_of (add_file d f dirs) n
    = if (n =? d)%string then map (fun fl => fl ++ [f]) (files_of dirs n)
      else files_of dirs n.
Proof.
  intros dirs d f n. unfold files_of, add_file.
  induction dirs as [|[k fl] dirs IH]; simpl; [now destruct (n =? d)%string|].
  destruct (String.eqb_spec k d) as [E|Hkd]; [subst k|]; simpl.
  - destruct (String.eqb_spec d n) as [E|Hdn]; [subst n|]; simpl; rewrite IH.
    + now rewrite String.eqb_refl.
    + destruct (String.eqb_spec n d); [congruence|reflexivity].
  - destruct (String.eqb_spec k n) as [E|Hkn]; [subst k|]; simpl; rewrite IH.
    + destruct (String.eqb_spec n d); [congruence|reflexivity].
    + reflexivity.
Qed.

Lemma files_of_absent :
  forall dirs d, has_dir dirs d = false -> files_of dirs d = [].
Proof.
  intros dirs d. unfold files_of, has_dir.
  induction dirs as [|[k fl] dirs IH]; simpl; [reflexivity|].
  destruct (k =? d)%string; simpl; [discriminate|exact IH].
Qed.

Lemma files_of_rename :
  forall dirs src dst,
    src <> dst -> has_dir dirs dst = false ->
    files_of (map (fun e : string * list string =>
                     if (fst e =? src)%string then (dst, snd e) else e) dirs) dst
    = files_of dirs src
    /\ files_of (map (fun e : string * list string =>
                        if (fst e =? src)%string then (dst, snd e) else e) dirs) src
       = [].
Proof.
  intros dirs src dst Hne. unfold files_of, has_dir.
  induction dirs as [|[k fl] dirs IH]; simpl; intros H; [auto|].
  apply orb_false_iff in H. destruct H as [Hk H]. destruct (IH H) as [IH1 IH2].
  destruct (String.eqb_spec k src) as [E|Hks]; [subst k|]; simpl.
  - rewrite String.eqb_refl. simpl. rewrite IH1.
    destruct (String.eqb_spec dst src); [congruence|]. now rewrite IH2.
  - rewrite Hk. apply String.eqb_neq in Hks. rewrite Hks. auto.
Qed.

(** [run], from the creation of the temporary output directory to the
    writing of [step_info.txt]: the directories under the temporary name are
    replaced by one that holds [step_info.txt]. *)
Lemma open_temp_output_outputs :
  forall env fs s i w,
    id env fs s = Ok i ->
    exists w',
      open_temp_output env fs s w = (Ok tt, w')
      /\ step_outputs w'
         = rmtree (temp_name i) (step_outputs w) ++ [(temp_name i, ["step_info.txt"])]
      /\ trace w' = trace w /\ run_calls w' = run_calls w
      /\ source_roots w' = source_roots w.
Proof.
  intros env fs s i w Hi. unfold open_temp_output.
  assert (Hs : exists str, overall_info_str env fs s = Ok str).
  { unfold id in Hi. destruct (overall_info_str env fs s) as [str|]; [eauto|discriminate]. }
  destruct Hs as [str Hs].
  unfold mbind, lift, set_step_outputs. rewrite Hi, Hs. simpl.
  eexists. split; [reflexivity|]. simpl. repeat split.
  unfold add_file. rewrite map_app. simpl. rewrite String.eqb_refl. f_equal.
  unfold rmtree. induction (step_outputs w) as [|[k fl] dirs IH]; simpl; [reflexivity|].
  destruct (String.eqb_spec k (temp_name i)) as [E|Hk]; [subst k|]; simpl; [exact IH|].
  apply String.eqb_neq in Hk. rewrite Hk. now rewrite IH.
Qed.

Lemma has_dir_add_file :
  forall dirs d f n, has_dir (add_file d f dirs) n = has_dir dirs n.
Proof.
  intros dirs d f n. unfold has_dir, add_file.
  induction dirs as [|[k fl] dirs IH]; simpl; [reflexivity|].
  rewrite IH. now destruct (k =? d)%string.
Qed.

(** [run], after [_run] has returned: when the renaming succeeds. *)
Lemma commit_output_outputs :
  forall env fs s i w w',
    id env fs s = Ok i ->
    commit_output env fs s w = (Ok tt, w') ->
    files_in w i = []
    /\ files_in w' i
       = map (fun fl => fl ++ (if IN_CICD env && NO_CI_CD_CACHE s
                               then ["skip_cache_to_cicd"] else []))
             (files_in w (temp_name i))
    /\ files_in w' (temp_name i) = [].
Proof.
  intros env fs s i w w' Hi H. unfold commit_output in H.
  unfold mbind at 1, lift at 1 in H. rewrite Hi in H.
  apply mbind_inv in H. destruct H as [(u & w1 & H1 & H)|(e & _ & ?)]; [|discriminate].
  unfold rename in H. destruct (has_dir (step_outputs w1) i) eqn:Ed; [discriminate H|].
  unfold set_step_outputs in H. inv H. unfold files_in. simpl.
  destruct (files_of_rename (step_outputs w1) (temp_name i) i (temp_name_neq i) Ed)
    as [E1 E2].
  rewrite E1, E2.
  destruct (IN_CICD env && NO_CI_CD_CACHE s).
  - unfold set_step_outputs in H1. inv H1. simpl in *.
    rewrite files_of_add_file, String.eqb_refl.
    split; [|split; reflexivity].
    apply files_of_absent. rewrite <- Ed. symmetry. apply has_dir_add_file.
  - inv H1. split; [now apply files_of_absent|]. split; [|reflexivity].
    rewrite <- (map_id (files_of (step_outputs w1) (temp_name i))) at 1.
    apply map_ext. intros fl. now rewrite app_nil_r.
Qed.

(** X11. The output directory of a step that was run, not found cached:
    it holds [step_info.txt], then the image file [<id>.tar] when the step
    runs in a container on the host and is not a dependency step, then the
    marker [skip_cache_to_cicd] when the build runs in CI/CD and the step
    asks for no cache; and the temporary directory is gone. *)
Theorem run_output_directory_files :
  forall env fs br s i w w',
    id env fs s = Ok i ->
    has_dir (step_outputs w) i = false ->
    run env fs br s w = (Ok tt, w') ->
    files_in w' i
    = [["step_info.txt"]
       ++ (if image_saved env s then [(i ++ ".tar")%string] else [])
       ++ (if IN_CICD env && NO_CI_CD_CACHE s then ["skip_cache_to_cicd"] else [])]
    /\ files_in w' (temp_name i) = [].
Proof.
  intros env fs br s i w w' Hi Hno H. rewrite run_eq in H.
  apply mbind_inv in H. destruct H as [(b & w1 & Hc & H)|(e & _ & ?)]; [|discriminate].
  destruct (_check_for_cached_result_spec _ _ _ _ _ _ Hc) as (i' & Hi' & Hb).
  assert (i' = i) by congruence. subst i'. rewrite Hno in Hb. subst b.
  apply mbind_inv in H. destruct H as [(u2 & w2 & _ & H)|(e & _ & ?)]; [|discriminate].
  apply mbind_inv in H. destruct H as [(u3 & w3 & Ho & H)|(e & _ & ?)]; [|discriminate].
  apply mbind_inv in H. destruct H as [(u4 & w4 & Hr & H)|(e & _ & ?)]; [|discriminate].
  destruct (open_temp_output_outputs env fs s i w2 Hi) as (w3' & Ho' & Hout3 & _).
  assert (w3' = w3) by congruence. subst w3'.
  unfold call_run in Hr. unfold mbind at 1, lift at 1 in Hr. rewrite Hi in Hr.
  apply mbind_inv in Hr. destruct Hr as [(u5 & w5 & Hn & Hr)|(e & _ & ?)]; [|discriminate].
  pose proof (keeps_outputs_note_run_call _ _ _ _ Hn) as Hout5.
  destruct u4. destruct (_run_outputs env fs br s i w5 (Ok tt) w4 Hi Hr) as [_ Hout4].
  specialize (Hout4 eq_refl). rewrite Hout5, Hout3 in Hout4.
  destruct (commit_output_outputs env fs s i w4 w' Hi H) as (_ & E1 & E2).
  split; [|exact E2]. rewrite E1. unfold files_in. rewrite Hout4.
  destruct (image_saved env s).
  - rewrite files_of_add_file, String.eqb_refl, files_of_app, files_of_rmtree,
      String.eqb_refl.
    unfold files_of. simpl. rewrite String.eqb_refl. simpl.
    now destruct (IN_CICD env && NO_CI_CD_CACHE s).
  - rewrite files_of_app, files_of_rmtree, String.eqb_refl.
    unfold files_of. simpl. rewrite String.eqb_refl. simpl.
    now destruct (IN_CICD env && NO_CI_CD_CACHE s).
Qed.


Lemma run_output_directory_files_witness :
  exists i w',
    id (example_env all_succeed) example_tree step_I = Ok i
    /\ run (example_env all_succeed) example_tree build_root_example step_I empty_world
       = (Ok tt, w')
    /\ files_in w' i = [["step_info.txt"; (i ++ ".tar")%string]]
    /\ files_in w' (temp_name i) = [].
Proof.
  assert (H : exists w',
             run (example_env all_succeed) example_tree build_root_example step_I
               empty_world = (Ok tt, w')).
  { eexists. vm_compute. reflexivity. }
  destruct H as [w' H].
  destruct (id (example_env all_succeed) example_tree step_I) as [i|] eqn:Hi;
    [|vm_compute in Hi; discriminate Hi].
  exists i, w'. split; [reflexivity|]. split; [exact H|].
  exact (run_output_directory_files (example_env all_succeed) example_tree
           build_root_example step_I i empty_world w' Hi eq_refl H).
Defined.

(** X12. When the command of a step fails, [run] raises and the temporary
    output directory [~<id>] is left in the build root, with [step_info.txt]
    in it: it is not removed.  The next run of the step starts by replacing
    it by a directory that holds [step_info.txt] only. *)
Theorem failed_run_leaves_temporary_directory :
  forall env fs br s i w w1 w2 e w3,
    id env fs s = Ok i ->
    _check_for_cached_result env fs s w = (Ok false, w1) ->
    (run_upstream env fs br s ;;; open_temp_output env fs s) w1 = (Ok tt, w2) ->
    call_run env fs br s w2 = (Raise e, w3) ->
    run env fs br s w = (Raise e, w3)
    /\ (exists files, files_in w3 (temp_name i) = [files] /\ In "step_info.txt" files)
    /\ forall w5, exists w6,
         open_temp_output env fs s w5 = (Ok tt, w6)
         /\ files_in w6 (temp_name i) = [["step_info.txt"]].
Proof.
  intros env fs br s i w w1 w2 e w3 Hi Hc Hu Hr.
  apply mbind_inv in Hu. destruct Hu as [(u & wu & Hup & Ho)|(e' & _ & ?)]; [|discriminate].
  destruct u.
  assert (Hopen : forall w5, exists w6,
             open_temp_output env fs s w5 = (Ok tt, w6)
             /\ files_in w6 (temp_name i) = [["step_info.txt"]]).
  { intros w5. destruct (open_temp_output_outputs env fs s i w5 Hi) as (w6 & E & Hout & _).
    exists w6. split; [exact E|]. unfold files_in.
    rewrite Hout, files_of_app, files_of_rmtree, String.eqb_refl.
    unfold files_of. simpl. now rewrite String.eqb_refl. }
  split; [|split; [|exact Hopen]].
  - rewrite run_eq. rewrite (mbind_ok _ _ _ _ _ Hc).
    rewrite (mbind_ok _ _ _ _ _ Hup). rewrite (mbind_ok _ _ _ _ _ Ho).
    now rewrite (mbind_raise _ _ _ _ _ Hr).
  - destruct (Hopen wu) as (w2' & E & Hf). assert (w2' = w2) by congruence. subst w2'.
    unfold call_run in Hr. unfold mbind at 1, lift at 1 in Hr. rewrite Hi in Hr.
    apply mbind_inv in Hr. destruct Hr as [(u5 & w5 & Hn & Hr)|(e' & Hn & _)];
      [|discriminate Hn].
    pose proof (keeps_outputs_note_run_call _ _ _ _ Hn) as Hout5.
    destruct (_run_outputs env fs br s i w5 _ w3 Hi Hr) as [[Hout|Hout] _];
      unfold files_in in *; rewrite Hout, ?files_of_add_file, ?String.eqb_refl, Hout5, Hf.
    + exists ["step_info.txt"]. split; [reflexivity|now left].
    + exists ["step_info.txt"; (i ++ ".tar")%string]. split; [reflexivity|now left].
Qed.

Lemma failed_run_leaves_temporary_directory_witness :
  exists i e w3,
    id (example_env (fails_on "steps/a.sh")) example_tree step_A = Ok i
    /\ run (example_env (fails_on "steps/a.sh")) example_tree build_root_example step_A
         empty_world = (Raise e, w3)
    /\ exists files, files_in w3 (temp_name i) = [files] /\ In "step_info.txt" files.
Proof.
  destruct (id (example_env (fails_on "steps/a.sh")) example_tree step_A) as [i|] eqn:Hi;
    [|vm_compute in Hi; discriminate Hi].
  assert (Hc : exists w1,
             _check_for_cached_result (example_env (fails_on "steps/a.sh")) example_tree
               step_A empty_world = (Ok false, w1)).
  { eexists. vm_compute. reflexivity. }
  destruct Hc as [w1 Hc].
  assert (Hu : exists w2,
             (run_upstream (example_env (fails_on "steps/a.sh")) example_tree
                build_root_example step_A ;;;
              open_temp_output (example_env (fails_on "steps/a.sh")) example_tree step_A)
               empty_world = (Ok tt, w2)
             /\ exists e w3,
                  call_run (example_env (fails_on "steps/a.sh")) example_tree
                    build_root_example step_A w2 = (Raise e, w3)).
  { eexists. split; [vm_compute; reflexivity|]. do 2 eexists. vm_compute. reflexivity. }
  destruct Hu as (w2 & Hu & e & w3 & Hr).
  assert (E1 : w1 = empty_world).
  { vm_compute in Hc. now inv Hc. }
  subst w1.
  destruct (failed_run_leaves_temporary_directory _ _ _ _ _ _ _ _ _ _ Hi Hc Hu Hr)
    as (Hrun & Hfiles & _).
  exists i, e, w3. split; [reflexivity|]. split; [exact Hrun|exact Hfiles].
Defined.


(* ------------------------------------------------------------------ *)
(** ** The isolated source root *)

Lemma rmtree_absent :
  forall {B : Type} (dirs : list (string * B)) d,
    has_dir dirs d = false -> rmtree d dirs = dirs.
Proof.
  intros B dirs d. unfold has_dir, rmtree.
  induction dirs as [|[k x] dirs IH]; simpl; [reflexivity|].
  destruct (k =? d)%string; simpl; [discriminate|]. intros H. now rewrite IH.
Qed.

Lemma fill_new_directory :
  forall (dirs : list (string * list path)) i files,
    map (fun e : string * list path =>
           if (fst e =? i)%string then (fst e, snd e ++ files) else e)
        (rmtree i dirs ++ [(i, [])])
    = rmtree i dirs ++ [(i, files)].
Proof.
  intros dirs i files. rewrite map_app. simpl. rewrite String.eqb_refl. f_equal.
  unfold rmtree. induction dirs as [|[k x] dirs IH]; simpl; [reflexivity|].
  destruct (String.eqb_spec k i) as [E|Hk]; simpl; [exact IH|].
  apply String.eqb_neq in Hk. rewrite Hk. now rewrite IH.
Qed.

(** X13. [_prepare_working_source_root] leaves one isolated source root of
    the step, that holds the tracked files of the step and nothing else:
    what a former run left there is removed, after an [ls -al] of the
    directory above it.  When that [ls] fails, an error is raised and the
    former directory stays as it was. *)
Theorem _prepare_working_source_root_copies_tracked_files :
  forall env fs br s i files w,
    id env fs s = Ok i ->
    tracked_file_paths env fs s = Ok files ->
    ((has_dir (source_roots w) i = true ->
      fst (process env (trace w) (list_source_root env br i)) = true) ->
     exists w',
       _prepare_working_source_root env fs br s w = (Ok tt, w')
       /\ source_roots w' = rmtree i (source_roots w) ++ [(i, files)]
       /\ step_outputs w' = step_outputs w
       /\ trace w'
          = trace w ++ (if has_dir (source_roots w) i
                        then [list_source_root env br i] else []))
    /\ (has_dir (source_roots w) i = true ->
        fst (process env (trace w) (list_source_root env br i)) = false ->
        exists e w',
          _prepare_working_source_root env fs br s w = (Raise e, w')
          /\ source_roots w' = source_roots w).
Proof.
  intros env fs br s i files w Hi Hf.
  unfold _prepare_working_source_root, mbind, lift. rewrite Hi. cbv beta iota.
  fold (list_source_root env br i).
  destruct (has_dir (source_roots w) i) eqn:Hd.
  - destruct (check_process_spec env (list_source_root env br i) w)
      as (w1 & Ht1 & Ho1 & Hs1 & _ & E1).
    rewrite E1.
    destruct (fst (process env (trace w) (list_source_root env br i))).
    + split; [|intros _ H; discriminate H]. intros _.
      unfold set_source_roots. rewrite Hf. cbv beta iota.
      eexists. split; [reflexivity|]. cbn [source_roots step_outputs trace].
      rewrite Hs1, Ho1, Ht1. split; [apply fill_new_directory|auto].
    + split; [intros H; specialize (H eq_refl); discriminate H|].
      intros _ _. do 2 eexists. split; [reflexivity|exact Hs1].
  - split; [|intros H; discriminate H]. intros _.
    unfold ret, set_source_roots. rewrite Hf. cbv beta iota.
    eexists. split; [reflexivity|]. cbn [source_roots step_outputs trace].
    rewrite app_nil_r.
    split; [|auto]. rewrite <- (rmtree_absent (source_roots w) i Hd) at 1.
    apply fill_new_directory.
Qed.

Lemma _prepare_working_source_root_copies_tracked_files_witness :
  exists i w',
    id (example_env all_succeed) example_tree step_A = Ok i
    /\ _prepare_working_source_root (example_env all_succeed) example_tree
         build_root_example step_A
         {| step_outputs := []; source_roots := [(i, [["stale"]])];
            trace := []; run_calls := [] |}
       = (Ok tt, w')
    /\ source_roots w' = [(i, [[".dockerignore"]; ["steps"; "a.sh"]; ["x"]])]
    /\ trace w' = [list_source_root (example_env all_succeed) build_root_example i].
Proof.
  destruct (id (example_env all_succeed) example_tree step_A) as [i|] eqn:Hi;
    [|vm_compute in Hi; discriminate Hi].
  assert (Hf : tracked_file_paths (example_env all_succeed) example_tree step_A
               = Ok [[".dockerignore"]; ["steps"; "a.sh"]; ["x"]])
    by (vm_compute; reflexivity).
  destruct (_prepare_working_source_root_copies_tracked_files
              (example_env all_succeed) example_tree build_root_example step_A i _
              {| step_outputs := []; source_roots := [(i, [["stale"]])];
                 trace := []; run_calls := [] |} Hi Hf) as [Hok _].
  destruct Hok as (w' & Hr & Hs & _ & Ht); [reflexivity|].
  exists i, w'. split; [reflexivity|]. split; [exact Hr|].
  simpl in Hs, Ht. rewrite String.eqb_refl in Hs, Ht. simpl in Hs, Ht. auto.
Defined.

(* ------------------------------------------------------------------ *)
(** ** A step that is found cached *)

(** X14. A step whose output directory exists, and whose image need not be
    loaded (it does not run in a container, or it is a dependency step):
    [run] writes one line to the log and does nothing else.  No process is
    started, and the dependency steps and the base step are not looked at,
    whether they are cached themselves or not. *)
Theorem run_cached_step_only_logs :
  forall env fs br s i w,
    id env fs s = Ok i ->
    has_dir (step_outputs w) i = true ->
    is_script s = false \/ runs_in_docker s = false \/ is_dependency_step s = true ->
    run env fs br s w
    = (Ok tt,
       {| step_outputs := step_outputs w;
          source_roots := source_roots w;
          trace := trace w ++ [LogInfo ("The cache of the deployment step " ++ i
                                        ++ " is found, reuse it and skip it.")];
          run_calls := run_calls w |}).
Proof.
  intros env fs br s i w Hi Hd Hs. rewrite run_eq.
  assert (Hc : _check_for_cached_result env fs s w = (Ok true, w)).
  { unfold _check_for_cached_result. unfold mbind at 1, lift at 1. rewrite Hi.
    unfold mbind at 1. rewrite Hd.
    destruct (is_script s); [|reflexivity].
    assert (E : true && runs_in_docker s && negb (is_dependency_step s) = false).
    { destruct Hs as [H|[H|H]]; [discriminate H|now rewrite H|rewrite H].
      now destruct (runs_in_docker s). }
    rewrite E. reflexivity. }
  rewrite (mbind_ok _ _ _ _ _ Hc).
  unfold mbind, lift, emit. now rewrite Hi.
Qed.

Lemma run_cached_step_only_logs_witness :
  exists i w',
    id (example_env (fails_on "steps/a.sh")) example_tree step_B = Ok i
    /\ run (example_env (fails_on "steps/a.sh")) example_tree build_root_example step_B
         {| step_outputs := [(i, ["step_info.txt"])]; source_roots := [];
            trace := []; run_calls := [] |}
       = (Ok tt, w')
    /\ trace w' = [LogInfo ("The cache of the deployment step " ++ i
                            ++ " is found, reuse it and skip it.")]
    /\ step_outputs w' = [(i, ["step_info.txt"])].
Proof.
  destruct (id (example_env (fails_on "steps/a.sh")) example_tree step_B) as [i|] eqn:Hi;
    [|vm_compute in Hi; discriminate Hi].
  exists i. eexists. split; [reflexivity|]. split.
  - apply (run_cached_step_only_logs (example_env (fails_on "steps/a.sh")) example_tree
             build_root_example step_B i).
    + exact Hi.
    + simpl. now rewrite String.eqb_refl.
    + right. left. reflexivity.
  - split; reflexivity.
Defined.


(* ------------------------------------------------------------------ *)
(** ** The image of a step run in a container *)

Lemma result_image_docker :
  forall env fs s i,
    id env fs s = Ok i ->
    result_image env fs s
    = Ok (match base_image_architecture s with
          | Some arch => Some {| image_name := i; architecture := arch |}
          | None => None
          end).
Proof.
  intros env fs s i Hi. unfold result_image.
  destruct (base_image_architecture s); [|reflexivity]. now rewrite Hi.
Qed.

(** The events of [_save_step_docker_container_as_image_if_needed] when it
    returns. *)
Lemma _save_step_docker_container_as_image_if_needed_trace :
  forall env fs s i w w',
    id env fs s = Ok i ->
    _save_step_docker_container_as_image_if_needed env fs s w = (Ok tt, w') ->
    trace w'
    = trace w ++ (if is_dependency_step s then []
                  else [Call ["docker"; "commit"; container_name; i] [] None;
                        Call ["docker"; "save"; i] [] None])
    /\ (is_dependency_step s = false ->
        has_dir (step_outputs w) (temp_name i) = true).
Proof.
  intros env fs s i w w' Hi H. unfold _save_step_docker_container_as_image_if_needed in H.
  destruct (is_dependency_step s).
  { inv H. split; [now rewrite app_nil_r|]. intros E. discriminate E. }
  unfold mbind at 1, lift at 1 in H. rewrite (result_image_docker env fs s i Hi) in H.
  destruct (base_image_architecture s) as [arch|]; [|discriminate H].
  cbn [image_name] in H.
  unfold mbind at 1 in H.
  destruct (run_command_spec env ["docker"; "commit"; container_name; i] w)
    as (w1 & Ht1 & Ho1 & E1).
  rewrite E1 in H.
  destruct (fst (process env (trace w) _)); [|discriminate H].
  unfold mbind at 1, lift at 1 in H. rewrite Hi in H.
  unfold save_image in H. rewrite Ho1 in H.
  destruct (has_dir (step_outputs w) (temp_name i)); [|discriminate H].
  unfold mbind at 1, set_step_outputs in H. cbn [image_name] in H.
  match type of H with
  | check_call_with_log env ?a ?v ?d ?w2 = _ =>
      destruct (check_call_with_log_spec env a v d w2) as (w3 & Ht3 & _ & E3)
  end.
  rewrite E3 in H. cbn [trace] in Ht3, H.
  destruct (fst (process env _ _)); [|discriminate H].
  inv H. split; [|reflexivity]. rewrite Ht3, Ht1, <- app_assoc. reflexivity.
Qed.

Lemma base_image_architecture_inv :
  forall s arch,
    base_image_architecture s = Some arch ->
    is_script s = true
    /\ ((exists spec, base_step s = Some (inl spec) /\ architecture spec = arch)
        \/ (exists b, base_step s = Some (inr b) /\ is_script b = true
                      /\ base_image_architecture b = Some arch)).
Proof.
  intros [sc tn nm globs nocache sp isdep base deps st ca] arch H. simpl in *.
  destruct sc; [|discriminate H]. split; [reflexivity|].
  destruct base as [[spec|b]|]; [| |discriminate H].
  - left. exists spec. split; [reflexivity|]. now inv H.
  - right. exists b. destruct (is_script b); [auto|discriminate H].
Qed.

Lemma app_split_base :
  forall {A : Type} (l1 l2 l3 l4 l5 : list A) a b c,
    l1 ++ l2 ++ l3 ++ l4 ++ [a; b; c] ++ l5
    = (l1 ++ l2 ++ l3 ++ l4 ++ [a; b]) ++ [c] ++ l5.
Proof. intros. now rewrite <- !app_assoc. Qed.

(** X15. A step run in a container, when [_run_in_docker] returns: after
    [docker run], the container is committed as the image named by the id
    of the step, and that image is saved with [docker save], unless the
    step is a dependency step: then neither is done.  The image is saved
    into the file [<id>.tar] of the temporary output directory of the step:
    [_run_in_docker] returns only when that directory is there, as it is
    within [run].  The step starts from the image given to it or, when it
    has a base step, from the image named by the id of the base step: the
    image that the base step commits when it is not a dependency step. *)
Theorem _run_in_docker_commits_image :
  forall env fs br s cmd i w w',
    runs_in_docker s = true ->
    _get_command_line_args env fs br s = Ok cmd ->
    id env fs s = Ok i ->
    _run_in_docker env fs br s w = (Ok tt, w') ->
    (exists argv base,
      trace w'
      = trace w
        ++ [remove_container; Call argv [] None]
        ++ (if is_dependency_step s then []
            else [Call ["docker"; "commit"; container_name; i] [] None;
                  Call ["docker"; "save"; i] [] None])
        ++ [remove_container]
      /\ (exists pre, argv = pre ++ [base] ++ cmd)
      /\ match base_step s with
         | Some (inl spec) => base = image_name spec
         | Some (inr b) => id env fs b = Ok base
         | None => False
         end)
    /\ (is_dependency_step s = false ->
        has_dir (step_outputs w) (temp_name i) = true
        /\ step_outputs w' = add_file (temp_name i) (i ++ ".tar") (step_outputs w)).
Proof.
  intros env fs br s cmd i w w' Hd Hc Hi H.
  pose proof (_run_in_docker_outputs env fs br s i w (Ok tt) w' Hi H) as [_ Hout].
  specialize (Hout eq_refl).
  unfold runs_in_docker in Hd.
  destruct (base_image_architecture s) as [arch|] eqn:Ea; [|discriminate Hd].
  destruct (docker_base_image_some env fs s i arch Ea Hi) as (img & Himg & _).
  destruct (dependency_ids_ok env fs s i Hi) as [ids Hids].
  rewrite (_run_in_docker_eq env fs br s cmd i img ids w Hc Hi Himg Hids) in H.
  apply mbind_inv in H. destruct H as [(u1 & w1 & H1 & H)|(e & _ & ?)]; [|discriminate].
  destruct (run_command_spec env ["docker"; "rm"; "-f"; container_name] w)
    as (w1' & Ht1 & Ho1 & E1).
  rewrite E1 in H1. fold remove_container in Ht1.
  assert (w1' = w1) by (destruct (fst (process env (trace w) _)); now inv H1).
  subst w1'.
  apply try_finally_inv in H. destruct H as (rb & w2 & rc & Hb & Hcl & Hr).
  destruct rc as [uc|ec]; [|discriminate Hr]. subst rb.
  destruct (run_command_spec env ["docker"; "rm"; "-f"; container_name] w2)
    as (w4 & Ht4 & _ & E4).
  rewrite E4 in Hcl. fold remove_container in Ht4.
  assert (w4 = w') by (destruct (fst (process env (trace w2) _)); now inv Hcl).
  subst w4.
  apply mbind_inv in Hb. destruct Hb as [(u2 & w3 & H2 & H3)|(e & _ & ?)]; [|discriminate].
  destruct (check_call_with_log_spec env (docker_run_argv env br s i img ids cmd) [] None w1)
    as (w3' & Ht2 & Ho2 & E2).
  rewrite E2 in H2.
  assert (w3' = w3) by (destruct (fst (process env (trace w1) _)); now inv H2).
  subst w3'.
  destruct (_save_step_docker_container_as_image_if_needed_trace _ _ _ _ _ _ Hi H3)
    as [Ht3 Hdir].
  split.
  - exists (docker_run_argv env br s i img ids cmd), (image_name img).
    split; [|split].
    + rewrite Ht4, Ht3, Ht2, Ht1. rewrite <- !app_assoc. reflexivity.
    + unfold docker_run_argv. eexists. apply app_split_base.
    + destruct (base_image_architecture_inv s arch Ea)
        as (Hsc & [(spec & Hb & Harch)|(b & Hb & Hscb & Hab)]); rewrite Hb.
      * unfold docker_base_image, _base_step in Himg. rewrite Hb in Himg.
        unfold base_docker_image, _base_step, base_docker_image_with in Himg.
        rewrite Hb, Hsc in Himg. now inv Himg.
      * unfold docker_base_image, _base_step in Himg. rewrite Hb in Himg.
        unfold result_image in Himg. rewrite Hab in Himg.
        destruct (id env fs b) as [bi|]; [|discriminate Himg]. now inv Himg.
  - intros Hdep. split.
    + rewrite <- Ho1, <- Ho2. exact (Hdir Hdep).
    + rewrite Hout, Hdep. reflexivity.
Qed.

Lemma _run_in_docker_commits_image_witness :
  exists i bi cmd argv w',
    id (example_env all_succeed) example_tree step_K = Ok i
    /\ id (example_env all_succeed) example_tree step_I = Ok bi
    /\ _run_in_docker (example_env all_succeed) example_tree build_root_example step_K
         {| step_outputs := [(temp_name i, ["step_info.txt"])]; source_roots := [];
            trace := []; run_calls := [] |}
       = (Ok tt, w')
    /\ trace w'
       = [remove_container; Call argv [] None;
          Call ["docker"; "commit"; container_name; i] [] None;
          Call ["docker"; "save"; i] [] None;
          remove_container]
    /\ (exists pre, argv = pre ++ [bi] ++ cmd)
    /\ step_outputs w' = [(temp_name i, ["step_info.txt"; (i ++ ".tar")%string])].
Proof.
  destruct (_get_command_line_args (example_env all_succeed) example_tree
              build_root_example step_K) as [cmd|] eqn:Hc;
    [|vm_compute in Hc; discriminate Hc].
  assert (Hi : id (example_env all_succeed) example_tree step_K = Ok "k__e2fb6a68a7bf08078c9ff8efeeb5156e1e8bbb4cfb6af4edb481ab90dbb272e7")
    by (vm_compute; reflexivity).
  assert (Hr : exists w',
             _run_in_docker (example_env all_succeed) example_tree build_root_example
               step_K
               {| step_outputs := [(temp_name "k__e2fb6a68a7bf08078c9ff8efeeb5156e1e8bbb4cfb6af4edb481ab90dbb272e7", ["step_info.txt"])];
                  source_roots := []; trace := []; run_calls := [] |}
             = (Ok tt, w')).
  { eexists. vm_compute. reflexivity. }
  destruct Hr as [w' Hr].
  destruct (_run_in_docker_commits_image (example_env all_succeed) example_tree
              build_root_example step_K cmd _ _ w' eq_refl Hc Hi Hr)
    as ((argv & base & Ht & Hp & Hb) & Hout).
  destruct (Hout eq_refl) as [_ Ho].
  exists "k__e2fb6a68a7bf08078c9ff8efeeb5156e1e8bbb4cfb6af4edb481ab90dbb272e7", base, cmd, argv, w'.
  split; [exact Hi|]. split; [exact Hb|]. split; [exact Hr|]. split; [exact Ht|].
  split; [exact Hp|]. rewrite Ho. unfold add_file. cbn [map fst snd step_outputs].
  rewrite String.eqb_refl. reflexivity.
Defined.


(* ------------------------------------------------------------------ *)
(** ** [FinalStep] *)

Lemma used_by_all_steps : forall t s, used_by t s -> In t (all_steps s).
Proof.
  intros t s H. induction H as [|d s Hd _ IH|b s Hb _ IH].
  - apply all_steps_self.
  - apply all_steps_upstream, In_upstream_steps. left. eauto.
  - apply all_steps_upstream, In_upstream_steps. right. eauto.
Qed.

Lemma mapM_In_inv :
  forall {A B : Type} (f : A -> res B) l ys y,
    mapM f l = Ok ys -> In y ys -> exists a, In a l /\ f a = Ok y.
Proof.
  intros A B f l. induction l as [|x l IH]; intros ys y H Hin.
  - inv H. destruct Hin.
  - rewrite mapM_cons in H. destruct (f x) as [y0|] eqn:E; [|discriminate H].
    destruct (mapM f l) as [rest|]; [|discriminate H]. inv H.
    destruct Hin as [<-|Hin].
    + exists x. split; [now left|exact E].
    + destruct (IH rest y eq_refl Hin) as (a & Ha & Hf). exists a. split; [now right|exact Hf].
Qed.

(** X16. The steps that [FinalStep.all_used_cacheable_steps] lists are the
    cacheable steps among the used steps and the steps they are built on.
    After a [FinalStep.run] that returns, on a build root without output
    directories, every id of [all_used_cacheable_steps_ids] names an output
    directory of the build root, as long as the ids of the steps do not
    collide and the [_run] of the final step leaves the directories of
    the build root in place. *)
Theorem final_run_commits_cacheable_steps :
  forall env fs br f w w' ids,
    collision_free env fs (flat_map all_steps (_used_steps f)) ->
    keeps_dirs (final__run f) ->
    run_calls w = [] -> step_outputs w = [] ->
    final_run env fs br f w = (Ok tt, w') ->
    final_all_used_cacheable_steps_ids env fs f = Ok ids ->
    (forall t, In t (final_all_used_cacheable_steps f)
               <-> cacheable t = true
                   /\ exists u, In u (_used_steps f) /\ used_by t u)
    /\ forall j, In j ids -> has_dir (step_outputs w') j = true.
Proof.
  intros env fs br f w w' ids Hfree Hkeep Hw0 Hout H Hids. split.
  { intros t. unfold final_all_used_cacheable_steps. rewrite in_flat_map. split.
    - intros (u & Hu & Ht). destruct (all_used_cacheable_steps_sound u t Ht) as [Hb Hc].
      split; [exact Hc|eauto].
    - intros (Hc & u & Hu & Hb). exists u. split; [exact Hu|].
      now apply all_used_cacheable_steps_complete. }
  unfold final_run in H.
  apply mbind_inv in H. destruct H as [([] & w1 & H1 & H2)|(e & _ & ?)]; [|discriminate].
  set (U := flat_map all_steps (_used_steps f)) in *.
  assert (Hw : runs_once env fs U w).
  { constructor; rewrite Hw0; [constructor|intros j []|intros j []]. }
  assert (Hall : all_run env fs U w).
  { constructor.
    - unfold dir_names. rewrite Hout. intros d [].
    - rewrite Hw0. intros ? ? ? ? ? []. }
  assert (Hin : forall d, In d (_used_steps f) -> incl (all_steps d) U).
  { intros d Hd x Hx. unfold U. apply in_flat_map. eauto. }
  assert (HF : Forall (runs_once_from env fs br U) (_used_steps f)).
  { apply Forall_forall. intros d _. now apply runs_once_step. }
  destruct (forM_runs_once env fs br U _ HF Hin w (Ok tt) w1 Hw H1) as (_ & _ & Hok).
  destruct (Hok eq_refl) as (Hw1 & _ & Ha). destruct (Ha Hall) as [[_ Cl] Hdone].
  intros j Hj. unfold final_all_used_cacheable_steps_ids in Hids.
  destruct (mapM_In_inv _ _ _ _ Hids Hj) as (t & Ht & Htj).
  unfold final_all_used_cacheable_steps in Ht. apply in_flat_map in Ht.
  destruct Ht as (u & Hu & Ht).
  destruct (all_used_cacheable_steps_sound u t Ht) as [Hb _].
  destruct (Hdone u Hu) as (k & Hk & Hkin).
  destruct (Cl u k t (Hin u Hu u (all_steps_self u)) Hk Hkin (used_by_all_steps t u Hb))
    as (j' & Hj' & Hjin).
  assert (j' = j) by congruence. subst j'.
  apply has_dir_In. destruct (Hkeep _ _ _ H2) as [En _].
  fold (dir_names w'). rewrite En. now apply (once_committed _ _ _ _ Hw1).
Qed.


Lemma final_run_commits_cacheable_steps_witness :
  exists w' ids,
    final_run (example_env all_succeed) example_tree build_root_example final_BC
      empty_world = (Ok tt, w')
    /\ final_all_used_cacheable_steps_ids (example_env all_succeed) example_tree final_BC
       = Ok ids
    /\ List.length ids = 3
    /\ forall j, In j ids -> has_dir (step_outputs w') j = true.
Proof.
  assert (HA : id (example_env all_succeed) example_tree step_A
               = Ok "a__4228249396c694bcf704f1a1228b344ab014aa6846d0d9730e837dea0a24c350")
    by (vm_compute; reflexivity).
  assert (HB : id (example_env all_succeed) example_tree step_B
               = Ok "b__8fe5e3f51121216106456102ffc5bf16561fd3ac453fc0b0ead35290159a2487")
    by (vm_compute; reflexivity).
  assert (HC : id (example_env all_succeed) example_tree step_C
               = Ok "c__24c042a39d51911573959a47aaa2d402c5c54ceee1c14221341e994a41e9a49f")
    by (vm_compute; reflexivity).
  assert (H : exists w',
             final_run (example_env all_succeed) example_tree build_root_example final_BC
               empty_world = (Ok tt, w')).
  { eexists. vm_compute. reflexivity. }
  destruct H as [w' H].
  assert (Hids : exists ids,
             final_all_used_cacheable_steps_ids (example_env all_succeed) example_tree
               final_BC = Ok ids /\ List.length ids = 3).
  { eexists. split; vm_compute; reflexivity. }
  destruct Hids as (ids & Hids & Hlen).
  assert (Hf : collision_free (example_env all_succeed) example_tree
                 (flat_map all_steps (_used_steps final_BC))).
  { change (flat_map all_steps (_used_steps final_BC)) with [step_A; step_B; step_C].
    unfold collision_free. revert HA HB HC.
    generalize (id (example_env all_succeed) example_tree) as g.
    intros g HA HB HC t u j k Ht Hu Hj Hk.
    destruct Ht as [<-|[<-|[<-|[]]]]; destruct Hu as [<-|[<-|[<-|[]]]];
      rewrite ?HA, ?HB, ?HC in Hj; rewrite ?HA, ?HB, ?HC in Hk; inv Hj; inv Hk;
      (split; [intros E; first [reflexivity|discriminate E]
              |unfold temp_name; simpl; intros E; discriminate E]). }
  exists w', ids. split; [exact H|]. split; [exact Hids|]. split; [exact Hlen|].
  exact (proj2 (final_run_commits_cacheable_steps (example_env all_succeed) example_tree
                  build_root_example final_BC empty_world w' ids Hf
                  (keeps_ret tt) eq_refl eq_refl H Hids)).
Defined.

(* ------------------------------------------------------------------ *)
(** ** A cache hit of a step whose image is there already *)

(** X17. A step that runs in a container and is not a dependency step,
    found cached: [run] asks [docker images -q <id>] first.  When that
    prints something, the image is not loaded: [run] writes its line to the
    log and starts nothing else.  When the query itself fails, [run]
    raises, although the output directory of the step is there. *)
Theorem run_cached_image_present :
  forall env fs br s i w,
    is_script s = true ->
    runs_in_docker s = true ->
    is_dependency_step s = false ->
    id env fs s = Ok i ->
    has_dir (step_outputs w) i = true ->
    (forall out,
        process env (trace w) (Call ["docker"; "images"; "-q"; i] [] None) = (true, out) ->
        strip_is_empty out = false ->
        run env fs br s w
        = (Ok tt,
           {| step_outputs := step_outputs w;
              source_roots := source_roots w;
              trace := trace w
                       ++ [Call ["docker"; "images"; "-q"; i] [] None;
                           LogInfo ("The cache of the deployment step " ++ i
                                    ++ " is found, reuse it and skip it.")];
              run_calls := run_calls w |}))
    /\ (fst (process env (trace w) (Call ["docker"; "images"; "-q"; i] [] None)) = false ->
        run env fs br s w
        = (Raise (CalledProcessError ["docker"; "images"; "-q"; i]),
           {| step_outputs := step_outputs w;
              source_roots := source_roots w;
              trace := trace w ++ [Call ["docker"; "images"; "-q"; i] [] None];
              run_calls := run_calls w |})).
Proof.
  intros env fs br s i w Hsc Hd Hdep Hi Hh.
  unfold runs_in_docker in Hd.
  destruct (base_image_architecture s) as [arch|] eqn:Ha; [clear Hd|discriminate Hd].
  pose proof (_check_for_cached_result_hit_in_docker env fs s i arch w Hsc Ha Hdep Hi Hh)
    as Hc.
  split.
  - intros out Hp Hout. rewrite run_eq.
    assert (Hc' : _check_for_cached_result env fs s w
                  = (Ok true,
                     {| step_outputs := step_outputs w;
                        source_roots := source_roots w;
                        trace := trace w ++ [Call ["docker"; "images"; "-q"; i] [] None];
                        run_calls := run_calls w |})).
    { rewrite Hc. unfold load_image, check_output_with_log, mbind, check_process, emit.
      cbn [image_name]. rewrite Hp, Hout. reflexivity. }
    rewrite (mbind_ok _ _ _ _ _ Hc').
    unfold mbind, lift, emit. rewrite Hi. cbn [trace step_outputs source_roots run_calls].
    now rewrite <- app_assoc.
  - intros Hp. rewrite run_eq.
    unfold mbind at 1. rewrite Hc.
    unfold load_image, check_output_with_log, mbind, check_process, emit.
    cbn [image_name].
    destruct (process env (trace w) (Call ["docker"; "images"; "-q"; i] [] None))
      as [ok out]. simpl in Hp. subst ok. reflexivity.
Qed.

Lemma run_cached_image_present_witness :
  exists i w r w',
    id (example_env (fun _ _ => (true, "0a1b2c3d"))) example_tree step_I = Ok i
    /\ run (example_env (fun _ _ => (true, "0a1b2c3d"))) example_tree build_root_example
         step_I w = (r, w')
    /\ r = Ok tt
    /\ trace w' = [Call ["docker"; "images"; "-q"; i] [] None;
                   LogInfo ("The cache of the deployment step " ++ i
                            ++ " is found, reuse it and skip it.")].
Proof.
  destruct (id (example_env (fun _ _ => (true, "0a1b2c3d"))) example_tree step_I)
    as [i|] eqn:Hi; [|vm_compute in Hi; discriminate Hi].
  exists i, {| step_outputs := [(i, ["step_info.txt"])]; source_roots := [];
               trace := []; run_calls := [] |}.
  do 2 eexists. split; [reflexivity|]. split.
  - apply (proj1 (run_cached_image_present (example_env (fun _ _ => (true, "0a1b2c3d")))
                    example_tree build_root_example step_I i
                    {| step_outputs := [(i, ["step_info.txt"])]; source_roots := [];
                       trace := []; run_calls := [] |}
                    eq_refl eq_refl eq_refl Hi
                    ltac:(simpl; now rewrite String.eqb_refl)) "0a1b2c3d");
      reflexivity.
  - split; reflexivity.
Defined.

(* ------------------------------------------------------------------ *)
(** ** What a fingerprint tells about a step *)

Lemma overall_info_inv :
  forall env fs s info,
    overall_info env fs s = Ok info ->
    exists paths checksum deps base base_id,
      tracked_file_paths env fs s = Ok paths
      /\ calculate_files_checksum env fs paths = Ok checksum
      /\ mapM (overall_info env fs) (_dependency_steps s) = Ok deps
      /\ match _base_step s with
         | Some b => overall_info env fs b = Ok base
         | None => base = JNull
         end
      /\ info = JDict ([("name", JStr (name s));
                        ("used_files", JList (map (fun p => JStr (str_path p)) paths));
                        ("files_checksum", JStr checksum);
                        ("dependency_steps", JList deps);
                        ("base_step", base);
                        ("additional_settings", settings_json (_additional_settings s))]
                       ++ match base_docker_image_with s base_id with
                          | Some spec => [("docker_image", as_dict spec)]
                          | None => []
                          end).
Proof.
  intros env fs s info H. rewrite overall_info_eq in H.
  destruct (tracked_file_paths env fs s) as [paths|] eqn:Et; [|discriminate H].
  destruct (calculate_files_checksum env fs paths) as [checksum|] eqn:Ec; [|discriminate H].
  destruct (mapM (overall_info env fs) (_dependency_steps s)) as [deps|] eqn:Ed;
    [|discriminate H].
  destruct (_base_step s) as [b|].
  - destruct (overall_info env fs b) as [base|] eqn:Eb; [|discriminate H].
    injection H as <-.
    exists paths, checksum, deps, base, (id_of (name b) (dumps base)).
    repeat split; assumption.
  - injection H as <-. exists paths, checksum, deps, JNull, EmptyString.
    repeat split; assumption.
Qed.

(** All the fields of a fingerprint are read back from its serialization. *)
Lemma canon_info_all_fields :
  forall n u c d b a o n' u' c' d' b' a' o',
    canon (JDict ([("name", n); ("used_files", u); ("files_checksum", c);
                   ("dependency_steps", d); ("base_step", b);
                   ("additional_settings", a)]
                  ++ match o with Some x => [("docker_image", x)] | None => [] end))
    = canon (JDict ([("name", n'); ("used_files", u'); ("files_checksum", c');
                     ("dependency_steps", d'); ("base_step", b');
                     ("additional_settings", a')]
                    ++ match o' with Some x => [("docker_image", x)] | None => [] end)) ->
    canon n = canon n' /\ canon u = canon u' /\ canon c = canon c'
    /\ canon d = canon d' /\ canon b = canon b' /\ canon a = canon a'
    /\ option_map canon o = option_map canon o'.
Proof.
  intros n u c d b a o n' u' c' d' b' a' o' H.
  destruct o, o'; cbn in H; inv H; cbn [option_map]; repeat split; congruence.
Qed.

Lemma base_docker_image_with_architecture :
  forall s base_id,
    option_map architecture (base_docker_image_with s base_id) = base_image_architecture s.
Proof.
  intros [sc tn nm globs nocache sp isdep base deps st ca] base_id.
  unfold base_docker_image_with. simpl.
  destruct sc; [|reflexivity].
  destruct base as [[spec|b]|]; [reflexivity| |reflexivity].
  destruct (is_script b); [|reflexivity].
  destruct (base_image_architecture b); reflexivity.
Qed.

Lemma as_dict_canon_inj : forall x y, canon (as_dict x) = canon (as_dict y) -> x = y.
Proof.
  intros [n a] [n' a'] H. cbn in H. now inv H.
Qed.

Lemma map_eq_through :
  forall {A B C : Type} (f : A -> B) (g : A -> C),
    (forall x y, f x = f y -> g x = g y) ->
    forall l l', map f l = map f l' -> map g l = map g l'.
Proof.
  intros A B C f g H l. induction l as [|x l IH]; intros [|y l'] E;
    try discriminate E; [reflexivity|].
  simpl in E. injection E as E1 E2. simpl. f_equal; auto.
Qed.

(** The settings are read back from their part of the serialization, as a
    set of pairs of a name and a value. *)
Lemma settings_json_canon :
  forall st st',
    canon (settings_json st) = canon (settings_json st') ->
    forall n v, In (n, v) st -> In (n, v) st'.
Proof.
  intros st st' H n v Hin. unfold settings_json in H. rewrite !canon_dict in H.
  injection H as H.
  set (h := fun kv : string * option string =>
              (fst kv, match snd kv with Some v => JStr v | None => JNull end)) in *.
  set (g := fun kv : string * json => (fst kv, canon (snd kv))) in *.
  assert (P : Permutation (map g (map h st)) (map g (map h st'))).
  { etransitivity; [apply Permutation_map, (sorted_by_perm key_leb)|].
    rewrite H. apply Permutation_sym, Permutation_map, (sorted_by_perm key_leb). }
  assert (Hg : In (g (h (n, v))) (map g (map h st'))).
  { eapply Permutation_in; [exact P|]. now apply in_map, in_map. }
  rewrite map_map in Hg. apply in_map_iff in Hg. destruct Hg as ([n' v'] & E & Hin').
  unfold g, h in E. simpl in E. injection E as -> E.
  destruct v as [x|], v' as [x'|]; simpl in E; try discriminate E; [|exact Hin'].
  injection E as ->. exact Hin'.
Qed.

Lemma mapM_Forall2 :
  forall {A B : Type} (f : A -> res B) l ys,
    mapM f l = Ok ys -> Forall2 (fun x y => f x = Ok y) l ys.
Proof.
  intros A B f l. induction l as [|x l IH]; intros ys H.
  - inv H. constructor.
  - rewrite mapM_cons in H. destruct (f x) as [y|] eqn:E; [|discriminate H].
    destruct (mapM f l) as [rest|]; [|discriminate H]. inv H.
    constructor; [exact E|now apply IH].
Qed.

Lemma key_leb_total :
  forall {B : Type} (x y : string * B), key_leb x y = true \/ key_leb y x = true.
Proof.
  intros B x y. apply (leb_of_total String.compare string_compare_total_order).
Qed.

(** A serialization is that of the value with its dictionaries in the order
    of their keys. *)
Lemma dumps_at_canon : forall v level, dumps_at level (canon v) = dumps_at level v.
Proof.
  induction v as [|s|items IH|items IH] using json_induction; intros level;
    try reflexivity.
  - destruct items as [|x items]; [reflexivity|].
    change (canon (JList (x :: items))) with (JList (canon x :: map canon items)).
    rewrite !dumps_at_list. do 3 f_equal.
    change (canon x :: map canon items) with (map canon (x :: items)).
    rewrite map_map. f_equal. apply map_ext_in. intros y Hy.
    rewrite Forall_forall in IH. now apply IH.
  - destruct items as [|kv items]; [reflexivity|].
    rewrite canon_dict.
    destruct (sorted_by key_leb (kv :: items)) as [|kv' sorted] eqn:Es.
    { apply sorted_by_nil in Es. discriminate Es. }
    cbn [map]. rewrite !dumps_at_dict. do 3 f_equal.
    change ((fst kv', canon (snd kv')) :: map (fun kv0 => (fst kv0, canon (snd kv0))) sorted)
      with (map (fun kv0 : string * json => (fst kv0, canon (snd kv0))) (kv' :: sorted)).
    rewrite <- Es.
    rewrite (sorted_by_map (fun kv0 : string * json => (fst kv0, canon (snd kv0)))
               key_leb key_leb) by reflexivity.
    rewrite (sorted_by_idempotent key_leb key_leb_total).
    rewrite map_map. f_equal. apply map_ext_in. intros y Hy. cbn [fst snd]. do 2 f_equal.
    rewrite Forall_forall in IH. apply IH.
    eapply Permutation_in; [apply Permutation_sym, (sorted_by_perm key_leb)|exact Hy].
Qed.

Lemma canon_dumps : forall a b, canon a = canon b -> dumps a = dumps b.
Proof.
  intros a b H. unfold dumps. now rewrite <- (dumps_at_canon a), <- (dumps_at_canon b), H.
Qed.

Lemma Forall2_canon :
  forall {A B : Type} (R : A -> json -> Prop) (R' : B -> json -> Prop) l ys,
    Forall2 R l ys ->
    forall l' ys', Forall2 R' l' ys' -> map canon ys = map canon ys' ->
      Forall2 (fun d d' => exists x y, R d x /\ R' d' y /\ canon x = canon y) l l'.
Proof.
  intros A B R R' l ys H. induction H as [|d y l ys Hd _ IH]; intros l' ys' H' E.
  - destruct H'; [constructor|discriminate E].
  - destruct H' as [|d' y' l' ys' Hd' H']; [discriminate E|].
    simpl in E. injection E as E1 E2. constructor; [eauto|]. now apply (IH l' ys').
Qed.

Lemma overall_info_str_ok :
  forall env fs s x,
    overall_info env fs s = Ok x -> overall_info_str env fs s = Ok (dumps x).
Proof. intros env fs s x H. unfold overall_info_str. now rewrite H. Qed.

(** X18. The serialization of the fingerprint of a step tells the inputs of
    the step.  Two steps with the same [overall_info_str], in the same or in
    two source trees, have the same name, the same tracked file names in
    the same order with the same checksum, the same settings, the same
    architecture and image to run in, and their dependency steps, one by
    one, and their base steps have the same [overall_info_str] in turn. *)
Theorem overall_info_str_determines_inputs :
  forall env fs env' fs' s t str,
    overall_info_str env fs s = Ok str ->
    overall_info_str env' fs' t = Ok str ->
    name s = name t
    /\ (exists ps pt c,
          tracked_file_paths env fs s = Ok ps
          /\ tracked_file_paths env' fs' t = Ok pt
          /\ map str_path ps = map str_path pt
          /\ calculate_files_checksum env fs ps = Ok c
          /\ calculate_files_checksum env' fs' pt = Ok c)
    /\ (forall n v, In (n, v) (_additional_settings s) <-> In (n, v) (_additional_settings t))
    /\ base_image_architecture s = base_image_architecture t
    /\ (forall x y,
          is_script s = true -> is_script t = true ->
          base_step s = Some (inl x) -> base_step t = Some (inl y) -> x = y)
    /\ Forall2 (fun d d' => exists x,
                  overall_info_str env fs d = Ok x /\ overall_info_str env' fs' d' = Ok x)
               (_dependency_steps s) (_dependency_steps t)
    /\ match _base_step s, _base_step t with
       | Some p, Some q =>
           exists x, overall_info_str env fs p = Ok x /\ overall_info_str env' fs' q = Ok x
       | None, None => True
       | _, _ => False
       end.
Proof.
  intros env fs env' fs' s t str Hs Ht. unfold overall_info_str in Hs, Ht.
  destruct (overall_info env fs s) as [a|] eqn:Ha; [|discriminate Hs].
  destruct (overall_info env' fs' t) as [b|] eqn:Hb; [|discriminate Ht].
  injection Hs as Hs. injection Ht as Ht.
  assert (Hc : canon a = canon b) by (apply dumps_inj; congruence).
  clear Hs Ht str.
  destruct (overall_info_inv _ _ _ _ Ha)
    as (ps & c & deps & base & bid & Hps & Hck & Hd & Hbase & ->).
  destruct (overall_info_inv _ _ _ _ Hb)
    as (pt & c' & deps' & base' & bid' & Hpt & Hck' & Hd' & Hbase' & ->).
  assert (Hf : canon (JStr (name s)) = canon (JStr (name t))
               /\ canon (JList (map (fun p => JStr (str_path p)) ps))
                  = canon (JList (map (fun p => JStr (str_path p)) pt))
               /\ canon (JStr c) = canon (JStr c')
               /\ canon (JList deps) = canon (JList deps')
               /\ canon base = canon base'
               /\ canon (settings_json (_additional_settings s))
                  = canon (settings_json (_additional_settings t))
               /\ option_map canon (option_map as_dict (base_docker_image_with s bid))
                  = option_map canon (option_map as_dict (base_docker_image_with t bid'))).
  { apply canon_info_all_fields.
    destruct (base_docker_image_with s bid), (base_docker_image_with t bid'); exact Hc. }
  clear Hc. destruct Hf as (Hn & Hu & Hcc & Hdd & Hbb & Hst & Himg).
  assert (Eimg : base_docker_image_with s bid = base_docker_image_with t bid').
  { destruct (base_docker_image_with s bid) as [x|],
             (base_docker_image_with t bid') as [y|];
      cbn [option_map] in Himg; try discriminate Himg; [|reflexivity].
    f_equal. apply as_dict_canon_inj. congruence. }
  split; [change (JStr (name s) = JStr (name t)) in Hn; now injection Hn|].
  split.
  { exists ps, pt, c. change (JStr c = JStr c') in Hcc. injection Hcc as <-.
    change (JList (map canon (map (fun p => JStr (str_path p)) ps))
            = JList (map canon (map (fun p => JStr (str_path p)) pt))) in Hu.
    injection Hu as Hu.
    repeat split; try assumption.
    rewrite !map_map in Hu.
    apply (map_eq_through (fun p => canon (JStr (str_path p))) str_path); [|exact Hu].
    intros x y E. change (JStr (str_path x) = JStr (str_path y)) in E. now injection E. }
  split.
  { intros n v. split; apply settings_json_canon; [exact Hst|symmetry; exact Hst]. }
  split.
  { rewrite <- (base_docker_image_with_architecture s bid),
            <- (base_docker_image_with_architecture t bid'). now rewrite Eimg. }
  split.
  { intros x y Hss Hst' Ex Ey. unfold base_docker_image_with in Eimg.
    rewrite Hss, Ex, Hst', Ey in Eimg. congruence. }
  split.
  { change (JList (map canon deps) = JList (map canon deps')) in Hdd.
    injection Hdd as Hdd.
    pose proof (Forall2_canon _ _ _ _ (mapM_Forall2 _ _ _ Hd) _ _
                  (mapM_Forall2 _ _ _ Hd') Hdd) as HF.
    eapply Forall2_impl; [|exact HF].
    intros d d' (x & y & Hx & Hy & E). exists (dumps x). split.
    - now apply overall_info_str_ok.
    - rewrite (canon_dumps _ _ E). now apply overall_info_str_ok. }
  destruct (_base_step s) as [p|], (_base_step t) as [q|].
  - exists (dumps base). split; [now apply overall_info_str_ok|].
    rewrite (canon_dumps _ _ Hbb). now apply overall_info_str_ok.
  - subst base'. destruct (overall_info_inv _ _ _ _ Hbase) as (? & ? & ? & ? & ? & _ & _ & _ & _ & ->).
    rewrite canon_dict in Hbb. discriminate Hbb.
  - subst base. destruct (overall_info_inv _ _ _ _ Hbase') as (? & ? & ? & ? & ? & _ & _ & _ & _ & ->).
    rewrite canon_dict in Hbb. discriminate Hbb.
  - exact I.
Qed.

Lemma overall_info_str_determines_inputs_witness :
  exists str,
    overall_info_str (example_env all_succeed) example_tree step_B = Ok str
    /\ overall_info_str (example_env (fails_on "run")) example_tree step_B = Ok str
    /\ Forall2 (fun d d' => exists x,
                  overall_info_str (example_env all_succeed) example_tree d = Ok x
                  /\ overall_info_str (example_env (fails_on "run")) example_tree d' = Ok x)
               [step_A] [step_A].
Proof.
  destruct (overall_info_str (example_env all_succeed) example_tree step_B)
    as [str|] eqn:Hs; [|vm_compute in Hs; discriminate Hs].
  assert (Ht : overall_info_str (example_env (fails_on "run")) example_tree step_B = Ok str).
  { rewrite <- Hs. vm_compute. reflexivity. }
  exists str. split; [reflexivity|]. split; [exact Ht|].
  exact (proj1 (proj2 (proj2 (proj2 (proj2 (proj2
           (overall_info_str_determines_inputs _ _ _ _ step_B step_B str Hs Ht))))))).
Defined.

(* ------------------------------------------------------------------ *)
(** ** The build root at the call of [_run] *)

(** X19. On a build root without output directories, when [run] gets to
    the call of [_run] of a step: every step that the step is built on,
    through dependency and base steps, has its output directory in place,
    the temporary output directory of the step is there, and the [_run] of
    the step has not been called before, as long as the ids of the steps do
    not collide. *)
Theorem upstream_outputs_ready_before__run :
  forall env fs br s i w w2,
    collision_free env fs (all_steps s) ->
    run_calls w = [] -> step_outputs w = [] ->
    id env fs s = Ok i ->
    (run_upstream env fs br s ;;; open_temp_output env fs s) w = (Ok tt, w2) ->
    run env fs br s w = (call_run env fs br s ;;; commit_output env fs s) w2
    /\ (forall u, In u (upstream_steps s) ->
          exists j, id env fs u = Ok j /\ has_dir (step_outputs w2) j = true)
    /\ has_dir (step_outputs w2) (temp_name i) = true
    /\ ~ In i (run_calls w2).
Proof.
  intros env fs br s i w w2 Hfree Hw0 Hout Hi Hu.
  apply mbind_inv in Hu. destruct Hu as [([] & wu & Hup & Ho)|(e' & _ & ?)]; [|discriminate].
  assert (Hc : _check_for_cached_result env fs s w = (Ok false, w)).
  { unfold _check_for_cached_result. unfold mbind at 1, lift at 1. rewrite Hi.
    unfold mbind at 1. rewrite Hout. cbn [has_dir existsb andb].
    destruct (is_script s); reflexivity. }
  set (U := all_steps s) in *.
  assert (Hw : runs_once env fs U w).
  { constructor; rewrite Hw0; [constructor|intros j []|intros j []]. }
  assert (Hall : all_run env fs U w).
  { constructor.
    - unfold dir_names. rewrite Hout. intros d [].
    - rewrite Hw0. intros ? ? ? ? ? []. }
  assert (HF : Forall (runs_once_from env fs br U) (_dependency_steps s)).
  { apply Forall_forall. intros d _. now apply runs_once_step. }
  destruct (run_upstream_once env fs br U s HF
              (fun b _ => runs_once_step env fs br U Hfree b) (incl_refl _)
              w (Ok tt) wu Hw Hup) as (_ & Hframe & Hok).
  destruct (Hok eq_refl) as (Hwu & _ & Ha). destruct (Ha Hall) as [[_ Cl] Hdone].
  destruct (open_temp_output_spec _ _ _ _ _ _ _ Hi Ho) as [Er2 En2].
  split; [|split; [|split]].
  - rewrite run_eq. rewrite (mbind_ok _ _ _ _ _ Hc).
    rewrite (mbind_ok _ _ _ _ _ Hup). now rewrite (mbind_ok _ _ _ _ _ Ho).
  - intros u Hin.
    assert (Hd : exists d, In d (_dependency_steps s
                                 ++ match _base_step s with Some b => [b] | None => [] end)
                           /\ In d (upstream_steps s) /\ In u (all_steps d)).
    { apply In_upstream_steps in Hin. destruct Hin as [(d & Hd & Hud)|(b & Hb & Hub)].
      - exists d. split; [apply in_app_iff; now left|]. split; [|exact Hud].
        apply In_upstream_steps. left. exists d. split; [exact Hd|apply all_steps_self].
      - exists b. split; [apply in_app_iff; right; rewrite Hb; now left|].
        split; [|exact Hub].
        apply In_upstream_steps. right. exists b. split; [exact Hb|apply all_steps_self]. }
    destruct Hd as (d & Hd & HdU & Hud).
    destruct (Hdone d Hd) as (k & Hk & Hkin).
    destruct (Cl d k u (all_steps_upstream s d HdU) Hk Hkin Hud) as (j & Hj & Hjin).
    exists j. split; [exact Hj|].
    apply has_dir_In. fold (dir_names w2). apply En2.
    destruct (String.eqb_spec j (temp_name i)) as [E|E]; [now right|left].
    split; [now apply (once_committed _ _ _ _ Hwu)|exact E].
  - apply has_dir_In. fold (dir_names w2). apply En2. now right.
  - rewrite Er2. intros Hin. destruct (Hframe i Hin) as [Hin0|(u & Hu1 & Hu2)].
    + rewrite Hw0 in Hin0. destruct Hin0.
    + destruct (Hfree u s i i (all_steps_upstream s u Hu1) (all_steps_self s) Hu2 Hi)
        as [Heq _].
      rewrite (Heq eq_refl) in Hu1. now apply not_upstream_of_itself in Hu1.
Qed.

Lemma upstream_outputs_ready_before__run_witness :
  exists w2 a,
    (run_upstream (example_env all_succeed) example_tree build_root_example step_B
     ;;; open_temp_output (example_env all_succeed) example_tree step_B) empty_world
    = (Ok tt, w2)
    /\ id (example_env all_succeed) example_tree step_A = Ok a
    /\ has_dir (step_outputs w2) a = true.
Proof.
  assert (HA : id (example_env all_succeed) example_tree step_A
               = Ok "a__4228249396c694bcf704f1a1228b344ab014aa6846d0d9730e837dea0a24c350")
    by (vm_compute; reflexivity).
  assert (HB : id (example_env all_succeed) example_tree step_B
               = Ok "b__8fe5e3f51121216106456102ffc5bf16561fd3ac453fc0b0ead35290159a2487")
    by (vm_compute; reflexivity).
  assert (H : exists w2,
             (run_upstream (example_env all_succeed) example_tree build_root_example step_B
              ;;; open_temp_output (example_env all_succeed) example_tree step_B) empty_world
             = (Ok tt, w2)) by (eexists; vm_compute; reflexivity).
  destruct H as (w2 & H).
  assert (Hf : collision_free (example_env all_succeed) example_tree (all_steps step_B)).
  { change (all_steps step_B) with [step_A; step_B].
    unfold collision_free. revert HA HB.
    generalize (id (example_env all_succeed) example_tree) as f.
    intros f HA HB t u j k Ht Hu Hj Hk.
    destruct Ht as [<-|[<-|[]]]; destruct Hu as [<-|[<-|[]]];
      rewrite ?HA, ?HB in Hj; rewrite ?HA, ?HB in Hk; inv Hj; inv Hk;
      (split; [intros E; first [reflexivity|discriminate E]
              |unfold temp_name; simpl; intros E; discriminate E]). }
  destruct (proj1 (proj2 (upstream_outputs_ready_before__run _ _ _ step_B _ empty_world w2
                            Hf eq_refl eq_refl HB H)) step_A (or_introl eq_refl))
    as (a & Ha & Hd).
  exists w2, a. split; [exact H|]. split; assumption.
Defined.
